(** * loops: a block-diagram dataflow engine (github.com/ktye/loops)

    A shallow embedding of [loops.go] and [blocks.go].

    - Numbers.  The source computes on [float64].  The engine only moves
      numbers around; the blocks add, multiply and compare them.  The
      development is parametric in the arithmetic ([Num]), with two
      instances: [float64] (IEEE 754 binary64, Rocq's primitive floats)
      and [exactQ] (rationals, no rounding).
    - Slices are lists; a Go [int] index is a [Z]; indexing out of range
      panics, which the embedding makes explicit ([Panic]).
    - A [chan float64] is an identifier handed out by an allocator; a nil
      channel is [None].
    - Goroutines are program-counter machines, and the whole program is a
      step relation on configurations with rendezvous on unbuffered
      channels. *)

From Stdlib Require Import ZArith QArith Qround Floats Lia.
From stdpp Require Import base tactics option list.

Local Open Scope Z_scope.
Local Open Scope list_scope.

(** ** Arithmetic *)

Class Num (F : Type) := {
  nzero : F;
  nadd : F -> F -> F;
  nmul : F -> F -> F;
  nge : F -> F -> bool
}.

(** Go's [float64]: [+], [*] and [>=] of IEEE 754 binary64. *)
#[export] Instance float64 : Num float := {
  nzero := 0%float;
  nadd := PrimFloat.add;
  nmul := PrimFloat.mul;
  nge := fun x y => PrimFloat.leb y x
}.

(** The same operations without rounding. *)
#[export] Instance exactQ : Num Q := {
  nzero := 0%Q;
  nadd := Qplus;
  nmul := Qmult;
  nge := fun x y => Qle_bool y x
}.

(** ** Go slices indexed by [int] *)

Section Slices.
Context {A : Type}.

(** [l[i]]: [None] is the run-time panic "index out of range". *)
Definition index (l : list A) (i : Z) : option A :=
  if 0 <=? i then l !! Z.to_nat i else None.

(** [l[i] = v]. *)
Definition set_index (l : list A) (i : Z) (v : A) : option (list A) :=
  if (0 <=? i) && (i <? Z.of_nat (length l))
  then Some (<[Z.to_nat i := v]> l) else None.

Definition in_range (l : list A) (i : Z) : Prop :=
  0 <= i < Z.of_nat (length l).
End Slices.

(** ** Data model of loops.go *)

(** A channel created by [make(chan float64)]. *)
Abbreviation chan := nat (only parsing).

(** A port slot: [None] is the nil channel. *)
Abbreviation port := (option chan) (only parsing).

Inductive dir := input_port | output_port.

(** The error of [check]:
    [fmt.Errorf("block %d input %d is not connected", i, k)] and
    [fmt.Errorf("block %d output %d is not connected", i, k)]. *)
Inductive error := not_connected (i : nat) (d : dir) (k : nat).

Section Loops.
Context {F : Type} `{Num F}.
(** Whatever a [Step] may touch outside its block: standard output, files,
    the variables captured by a callback. *)
Context {World : Type}.

(** [type Block interface]: the result of [Step] is the updated receiver,
    the contents of [out], the world and the returned flag; [None] is a
    run-time panic inside [Step].  A slice passed by value keeps its
    length ([Step_length]).  [Inputs] and [Outputs] are counts: the
    [make] of [Add] panics on a negative length, which no block of the
    package returns. *)
Class Block (B : Type) := {
  Inputs : B -> nat;
  Outputs : B -> nat;
  Step : B -> list F -> list F -> World -> option (B * list F * World * bool);
  Step_length : forall b x y w b' y' w' c,
    Step b x y w = Some (b', y', w', c) -> length y' = length y
}.

Context {B : Type} `{Block B}.

(** [type ioBlock struct { Block; In, Out []chan float64 }] *)
Record ioBlock := {
  b_Block : B;
  b_In : list port;
  b_Out : list port
}.

(** [type IC struct { value float64; block int; input int }] *)
Record IC := {
  value : F;
  block : Z;
  input : Z
}.

(** [type System struct] *)
Record System := {
  s_In : list port;
  s_Out : list port;
  blocks : list ioBlock;
  initials : list IC;
  initialized : bool
}.

(** The zero value [var system System]. *)
Definition System_zero : System :=
  {| s_In := []; s_Out := []; blocks := []; initials := [];
     initialized := false |}.

Definition System_Inputs (s : System) : nat := length (s_In s).
Definition System_Outputs (s : System) : nat := length (s_Out s).

(** *** Building the graph

    The methods below mutate the system through its pointer and
    [Connect] allocates a channel: they run in a state monad over the
    system and the allocator, with [Panic] for a failed index. *)

Record Store := {
  sys : System;
  next_chan : chan
}.

Inductive Res (A : Type) :=
| Ok (a : A) (st : Store)
| Panic (st : Store).
#[global] Arguments Ok {A} a st.
#[global] Arguments Panic {A} st.

Definition M (A : Type) := Store -> Res A.

Definition ret {A} (a : A) : M A := fun st => Ok a st.
Definition bind {A C} (m : M A) (k : A -> M C) : M C :=
  fun st => match m st with
            | Ok a st' => k a st'
            | Panic st' => Panic st'
            end.
Definition panic {A} : M A := fun st => Panic st.
Definition get_sys : M System := fun st => Ok (sys st) st.
Definition put_sys (s : System) : M unit :=
  fun st => Ok tt {| sys := s; next_chan := next_chan st |}.
(** [make(chan float64)] *)
Definition make_chan : M chan :=
  fun st => Ok (next_chan st)
               {| sys := sys st; next_chan := S (next_chan st) |}.
Definition lift {A} (o : option A) : M A :=
  match o with Some a => ret a | None => panic end.

#[export] Instance M_ret : MRet M := @ret.
#[export] Instance M_bind : MBind M := fun A C k m => bind m k.

(** [func (s *System) Add(b Block)] *)
Definition System_Add (b : B) : M unit :=
  s ← get_sys;
  let io := {| b_Block := b;
               b_In := replicate (Inputs b) None;
               b_Out := replicate (Outputs b) None |} in
  put_sys {| s_In := s_In s; s_Out := s_Out s;
             blocks := blocks s ++ [io];
             initials := initials s;
             initialized := initialized s |}.

(** [func (s *System) AddIC(x float64, dst, i int)] *)
Definition System_AddIC (x : F) (dst i : Z) : M unit :=
  s ← get_sys;
  put_sys {| s_In := s_In s; s_Out := s_Out s;
             blocks := blocks s;
             initials := initials s ++ [{| value := x; block := dst; input := i |}];
             initialized := initialized s |}.

(** [s.Out[k] = c] *)
Definition set_s_Out (k : Z) (c : chan) : M unit :=
  s ← get_sys;
  l ← lift (set_index (s_Out s) k (Some c));
  put_sys {| s_In := s_In s; s_Out := l; blocks := blocks s;
             initials := initials s; initialized := initialized s |}.

(** [s.In[k] = c] *)
Definition set_s_In (k : Z) (c : chan) : M unit :=
  s ← get_sys;
  l ← lift (set_index (s_In s) k (Some c));
  put_sys {| s_In := l; s_Out := s_Out s; blocks := blocks s;
             initials := initials s; initialized := initialized s |}.

Definition with_blocks (s : System) (bs : list ioBlock) : System :=
  {| s_In := s_In s; s_Out := s_Out s; blocks := bs;
     initials := initials s; initialized := initialized s |}.

(** [s.blocks[dst].In[i] = c] *)
Definition set_block_In (dst i : Z) (c : chan) : M unit :=
  s ← get_sys;
  b ← lift (index (blocks s) dst);
  l ← lift (set_index (b_In b) i (Some c));
  put_sys (with_blocks s
    (<[Z.to_nat dst := {| b_Block := b_Block b; b_In := l; b_Out := b_Out b |}]>
       (blocks s))).

(** [s.blocks[src].Out[o] = c] *)
Definition set_block_Out (src o : Z) (c : chan) : M unit :=
  s ← get_sys;
  b ← lift (index (blocks s) src);
  l ← lift (set_index (b_Out b) o (Some c));
  put_sys (with_blocks s
    (<[Z.to_nat src := {| b_Block := b_Block b; b_In := b_In b; b_Out := l |}]>
       (blocks s))).

(** [func (s *System) Connect(src, dst, o, i int)] *)
Definition System_Connect (src dst o i : Z) : M unit :=
  c ← make_chan;
  (if i <? 0 then set_s_Out (- i - 1) c else set_block_In dst i c);;
  (if o <? 0 then set_s_In (- o - 1) c else set_block_Out src o c).

(** [func (s *System) check() error]: [None] is [nil]. *)
Fixpoint check_ports (i : nat) (d : dir) (k : nat) (l : list port)
  : option error :=
  match l with
  | [] => None
  | None :: _ => Some (not_connected i d k)
  | Some _ :: l' => check_ports i d (S k) l'
  end.

Fixpoint check_blocks (i : nat) (bs : list ioBlock) : option error :=
  match bs with
  | [] => None
  | b :: bs' =>
      match check_ports i input_port 0 (b_In b) with
      | Some e => Some e
      | None =>
          match check_ports i output_port 0 (b_Out b) with
          | Some e => Some e
          | None => check_blocks (S i) bs'
          end
      end
  end.

Definition System_check (s : System) : option error :=
  check_blocks 0 (blocks s).

(** *** Goroutines

    The worker of [Start], one per block:
<<
    go func(in, out []chan float64, b Block) {
      x := make([]float64, len(in))
      y := make([]float64, len(out))
      for {
        var ok bool
        for i, c := range in { x[i], ok = <-c; if !ok { return } }
        if b.Step(x, y) == false { done <- true; return }
        for i, c := range out { c <- y[i] }
      }
    }(b.In, b.Out, b.Block)
>>
    as a machine whose program counter says which statement is next:
    [WRecv i] the receive on [in[i]] (or the end of that range when [i]
    is past the last port), [WCall] the call of [Step], [WNotify] the
    send on [done], [WSend i] the send on [out[i]] (or the end of the
    range, back to the head of the loop), [WExit] after [return],
    [WPanic] after a panic. *)

Inductive wpc :=
| WRecv (i : nat) | WCall | WNotify | WSend (i : nat) | WExit | WPanic.

(** [w_cycles] counts the completed iterations of the loop; the program
    does not read it. *)
Record worker := {
  w_in : list port;
  w_out : list port;
  w_b : B;
  w_x : list F;
  w_y : list F;
  w_pc : wpc;
  w_cycles : nat
}.

(** The goroutine as [go func(...)(b.In, b.Out, b.Block)] creates it: it
    holds the two slices of the block as they are at that moment. *)
Definition spawn (io : ioBlock) : worker :=
  {| w_in := b_In io; w_out := b_Out io; w_b := b_Block io;
     w_x := replicate (length (b_In io)) nzero;
     w_y := replicate (length (b_Out io)) nzero;
     w_pc := WRecv 0; w_cycles := 0 |}.

Definition set_pc (w : worker) (pc : wpc) : worker :=
  {| w_in := w_in w; w_out := w_out w; w_b := w_b w;
     w_x := w_x w; w_y := w_y w; w_pc := pc; w_cycles := w_cycles w |}.

(** What a goroutine does next. *)
Inductive op :=
| op_recv (c : port)            (* [x[i], ok = <-c] *)
| op_send (c : port) (v : F)    (* [c <- v] *)
| op_notify                     (* [done <- true] *)
| op_wait                       (* [<-done] *)
| op_local                      (* a statement that uses no channel *)
| op_none.                      (* nothing: returned or panicked *)

Definition w_op (w : worker) : op :=
  match w_pc w with
  | WRecv i =>
      match w_in w !! i with Some c => op_recv c | None => op_local end
  | WCall => op_local
  | WNotify => op_notify
  | WSend i =>
      match w_out w !! i with
      | Some c => op_send c (default nzero (w_y w !! i))
      | None => op_local
      end
  | WExit | WPanic => op_none
  end.

(** The statements without a channel: leaving the range over [in],
    calling [Step], leaving the range over [out]. *)
Definition w_local (w : worker) (wd : World) : worker * World :=
  match w_pc w with
  | WRecv _ => (set_pc w WCall, wd)
  | WCall =>
      match Step (w_b w) (w_x w) (w_y w) wd with
      | Some (b', y', wd', continue) =>
          ({| w_in := w_in w; w_out := w_out w; w_b := b';
              w_x := w_x w; w_y := y';
              w_pc := if continue then WSend 0 else WNotify;
              w_cycles := w_cycles w |}, wd')
      | None => (set_pc w WPanic, wd)
      end
  | WSend _ =>
      ({| w_in := w_in w; w_out := w_out w; w_b := w_b w;
          w_x := w_x w; w_y := w_y w; w_pc := WRecv 0;
          w_cycles := S (w_cycles w) |}, wd)
  | _ => (w, wd)
  end.

(** [x[i], ok = <-c; if !ok { return }] once the receive has completed
    with [(v, ok)]. *)
Definition w_received (w : worker) (v : F) (ok : bool) : worker :=
  match w_pc w with
  | WRecv i =>
      {| w_in := w_in w; w_out := w_out w; w_b := w_b w;
         w_x := <[i := v]> (w_x w); w_y := w_y w;
         w_pc := if ok then WRecv (S i) else WExit;
         w_cycles := w_cycles w |}
  | _ => w
  end.

(** After a send has completed. *)
Definition w_sent (w : worker) : worker :=
  match w_pc w with
  | WSend i => set_pc w (WSend (S i))
  | WNotify => set_pc w WExit
  | _ => w
  end.

(** [Start] itself, on the caller's goroutine: [MSpawn i] is the [go]
    statement for block [i] (or the end of that range), [MSendIC j] the
    send of the [j]-th initial condition (or the end of that range),
    [MWait] the receive on [done], [MReturn e] after [return e]. *)
Inductive mpc :=
| MSpawn (i : nat) | MSendIC (j : nat) | MWait
| MReturn (e : option error) | MPanic.

(** [s.blocks[ic.block].In[ic.input]] *)
Definition ic_target (s : System) (ic : IC) : option port :=
  b ← index (blocks s) (block ic);
  index (b_In b) (input ic).

Definition m_op (s : System) (pc : mpc) : op :=
  match pc with
  | MSpawn _ => op_local
  | MSendIC j =>
      match initials s !! j with
      | Some ic =>
          match ic_target s ic with
          | Some c => op_send c (value ic)
          | None => op_local
          end
      | None => op_local
      end
  | MWait => op_wait
  | MReturn _ | MPanic => op_none
  end.

Definition m_local (s : System) (pc : mpc) (ws : list worker)
  : mpc * list worker :=
  match pc with
  | MSpawn i =>
      match blocks s !! i with
      | Some io => (MSpawn (S i), ws ++ [spawn io])
      | None => (MSendIC 0, ws)
      end
  | MSendIC j =>
      match initials s !! j with
      | Some _ => (MPanic, ws)      (* the index expression panicked *)
      | None => (MWait, ws)
      end
  | _ => (pc, ws)
  end.

Definition m_sent (pc : mpc) : mpc :=
  match pc with MSendIC j => MSendIC (S j) | _ => pc end.

Definition m_received (pc : mpc) : mpc :=
  match pc with MWait => MReturn None | _ => pc end.

(** [func (s *System) Start() error]: where the caller's goroutine stands
    after [check]. *)
Definition System_Start (s : System) : mpc :=
  match System_check s with
  | Some e => MReturn (Some e)
  | None => MSpawn 0
  end.

(** *** One goroutine at a time

    What a goroutine does when each of its channel operations finds its
    partner: the statements it runs, in program order. *)

Inductive wlabel :=
| l_recv (c : port) (v : F) (ok : bool)   (* [x[i], ok = <-c] gave [(v, ok)] *)
| l_call (x : list F)                     (* [b.Step(x, y)] *)
| l_notify                                (* [done <- true] *)
| l_send (c : port) (v : F).              (* [c <- v] *)

Definition w_label_local (w : worker) : list wlabel :=
  match w_pc w with WCall => [l_call (w_x w)] | _ => [] end.

(** [env] holds what the receives will find, in order; [(v, false)] is
    a closed channel. *)
Fixpoint w_drive (fuel : nat) (env : list (F * bool)) (w : worker)
    (wd : World) : list wlabel * worker * World :=
  match fuel with
  | O => ([], w, wd)
  | S fuel' =>
      match w_op w with
      | op_recv c =>
          match env with
          | [] => ([], w, wd)
          | (v, ok) :: env' =>
              let '(ls, w', wd') :=
                w_drive fuel' env' (w_received w v ok) wd in
              (l_recv c v ok :: ls, w', wd')
          end
      | op_send c v =>
          let '(ls, w', wd') := w_drive fuel' env (w_sent w) wd in
          (l_send c v :: ls, w', wd')
      | op_notify =>
          let '(ls, w', wd') := w_drive fuel' env (w_sent w) wd in
          (l_notify :: ls, w', wd')
      | op_local =>
          let '(w1, wd1) := w_local w wd in
          let '(ls, w', wd') := w_drive fuel' env w1 wd1 in
          (w_label_local w ++ ls, w', wd')
      | _ => ([], w, wd)
      end
  end.

Inductive mlabel :=
| l_go (io : ioBlock)              (* [go func(...){...}(b.In, b.Out, b.Block)] *)
| l_ic (c : port) (v : F)          (* [s.blocks[ic.block].In[ic.input] <- ic.value] *)
| l_wait.                          (* [<-done] *)

Definition m_label (s : System) (pc : mpc) : list mlabel :=
  match pc with
  | MSpawn i =>
      match blocks s !! i with Some io => [l_go io] | None => [] end
  | MSendIC j =>
      match initials s !! j with
      | Some ic =>
          match ic_target s ic with
          | Some c => [l_ic c (value ic)]
          | None => []
          end
      | None => []
      end
  | MWait => [l_wait]
  | _ => []
  end.

Fixpoint m_drive (fuel : nat) (s : System) (pc : mpc) (ws : list worker)
  : list mlabel * mpc * list worker :=
  match fuel with
  | O => ([], pc, ws)
  | S fuel' =>
      match m_op s pc with
      | op_local =>
          let '(pc1, ws1) := m_local s pc ws in
          let '(ls, pc', ws') := m_drive fuel' s pc1 ws1 in
          (m_label s pc ++ ls, pc', ws')
      | op_send _ _ =>
          let '(ls, pc', ws') := m_drive fuel' s (m_sent pc) ws in
          (m_label s pc ++ ls, pc', ws')
      | op_wait =>
          let '(ls, pc', ws') := m_drive fuel' s (m_received pc) ws in
          (m_label s pc ++ ls, pc', ws')
      | _ => ([], pc, ws)
      end
  end.

(** *** The running program *)

Record config := {
  c_sys : System;
  c_main : mpc;
  c_workers : list worker;
  c_world : World
}.

Definition start_config (s : System) (wd : World) : config :=
  {| c_sys := s; c_main := System_Start s; c_workers := []; c_world := wd |}.

Definition w_panicked (w : worker) : bool :=
  match w_pc w with WPanic => true | _ => false end.

(** A panic on any goroutine ends the program. *)
Definition crashed (c : config) : bool :=
  match c_main c with
  | MPanic => true
  | _ => existsb w_panicked (c_workers c)
  end.

(** The channels somebody outside has closed (the program never closes
    one). *)
Variable closed : chan -> bool.

Inductive choice :=
| main_local                     (* [Start] runs a statement without a channel *)
| worker_local (k : nat)         (* so does worker [k] *)
| ic_delivered (k : nat)         (* [Start] sends, worker [k] receives *)
| value_passed (k k' : nat)      (* worker [k] sends, worker [k'] receives *)
| notified (k : nat)             (* worker [k] sends on [done], [Start] receives *)
| closed_recv (k : nat)          (* worker [k] receives on a closed channel *)
| closed_send (k : nat)          (* worker [k] sends on a closed channel *)
| closed_send_main.              (* [Start] sends on a closed channel *)

Definition with_worker (c : config) (k : nat) (w : worker) (mpc' : mpc)
  : config :=
  {| c_sys := c_sys c; c_main := mpc';
     c_workers := <[k := w]> (c_workers c); c_world := c_world c |}.

(** One step of the program.  A send and a receive on an unbuffered
    channel complete together; nothing completes on a nil channel. *)
Definition exec (ch : choice) (c : config) : option config :=
  if crashed c then None else
  match ch with
  | main_local =>
      match m_op (c_sys c) (c_main c) with
      | op_local =>
          let '(pc, ws) := m_local (c_sys c) (c_main c) (c_workers c) in
          Some {| c_sys := c_sys c; c_main := pc; c_workers := ws;
                  c_world := c_world c |}
      | _ => None
      end
  | worker_local k =>
      w ← c_workers c !! k;
      match w_op w with
      | op_local =>
          let '(w', wd) := w_local w (c_world c) in
          Some {| c_sys := c_sys c; c_main := c_main c;
                  c_workers := <[k := w']> (c_workers c); c_world := wd |}
      | _ => None
      end
  | ic_delivered k =>
      w ← c_workers c !! k;
      match m_op (c_sys c) (c_main c), w_op w with
      | op_send (Some a) v, op_recv (Some a') =>
          if bool_decide (a = a') && negb (closed a)
          then Some (with_worker c k (w_received w v true) (m_sent (c_main c)))
          else None
      | _, _ => None
      end
  | value_passed k k' =>
      w ← c_workers c !! k;
      w' ← c_workers c !! k';
      match w_op w, w_op w' with
      | op_send (Some a) v, op_recv (Some a') =>
          if bool_decide (k ≠ k') && bool_decide (a = a') && negb (closed a)
          then Some {| c_sys := c_sys c; c_main := c_main c;
                       c_workers := <[k' := w_received w' v true]>
                                      (<[k := w_sent w]> (c_workers c));
                       c_world := c_world c |}
          else None
      | _, _ => None
      end
  | notified k =>
      w ← c_workers c !! k;
      match w_op w, m_op (c_sys c) (c_main c) with
      | op_notify, op_wait =>
          Some (with_worker c k (w_sent w) (m_received (c_main c)))
      | _, _ => None
      end
  | closed_recv k =>
      w ← c_workers c !! k;
      match w_op w with
      | op_recv (Some a) =>
          if closed a
          then Some (with_worker c k (w_received w nzero false) (c_main c))
          else None
      | _ => None
      end
  | closed_send k =>
      w ← c_workers c !! k;
      match w_op w with
      | op_send (Some a) _ =>
          if closed a
          then Some (with_worker c k (set_pc w WPanic) (c_main c))
          else None
      | _ => None
      end
  | closed_send_main =>
      match m_op (c_sys c) (c_main c) with
      | op_send (Some a) _ =>
          if closed a
          then Some {| c_sys := c_sys c; c_main := MPanic;
                       c_workers := c_workers c; c_world := c_world c |}
          else None
      | _ => None
      end
  end.

(** A schedule run from a configuration. *)
Fixpoint run (sched : list choice) (c : config) : option config :=
  match sched with
  | [] => Some c
  | ch :: sched' => c' ← exec ch c; run sched' c'
  end.

Definition stuck (c : config) : Prop := forall ch, exec ch c = None.

(** [func (s *System) Step(in, out []chan float64)]: the call of [Start]
    it makes, if any.  Neither [Step] nor [Start] assigns to a field of
    the system. *)
Definition System_Step (s : System) : option mpc :=
  if negb (initialized s) then Some (System_Start s) else None.

End Loops.

Arguments Block F World B : clear implicits.
Arguments System F B : clear implicits.
Arguments ioBlock B : clear implicits.
Arguments IC F : clear implicits.
Arguments worker F B : clear implicits.
Arguments config F World B : clear implicits.
Arguments Store F B : clear implicits.
Arguments mlabel F B : clear implicits.
Arguments wlabel F : clear implicits.
Arguments op F : clear implicits.

(** The program closes no channel: when nobody else does either, none is
    closed. *)
Definition no_close : chan -> bool := fun _ => false.

(** ** The standard blocks of blocks.go *)

Section Blocks.
Context {F : Type} `{Num F} {World : Type}.

(** The simulation time step increment, [var DT = 0.01]. *)
Variable DT : F.

(** [fmt.Println(time, v)] *)
Variable println : F -> F -> World -> World.

Definition result (B : Type) : Type := option (B * list F * World * bool).

(** [type Scale float64] *)
Definition Scale := F.
Definition Scale_Step (b : Scale) (inp out : list F) (w : World)
  : result Scale :=
  x ← index inp 0;
  out' ← set_index out 0 (nmul b x);
  Some (b, out', w, true).

(** [type Add struct{}] *)
Definition Add_Step (b : unit) (inp out : list F) (w : World)
  : result unit :=
  x0 ← index inp 0;
  x1 ← index inp 1;
  out' ← set_index out 0 (nadd x0 x1);
  Some (b, out', w, true).

(** [type Integrate struct { State float64 }] *)
Record Integrate := { State : F }.
Definition Integrate_Step (b : Integrate) (inp out : list F) (w : World)
  : result Integrate :=
  x ← index inp 0;
  let b' := {| State := nadd (State b) (nmul x DT) |} in
  out' ← set_index out 0 (State b');
  Some (b', out', w, true).

(** [type Source float64] *)
Definition Source := F.
Definition Source_Step (b : Source) (inp out : list F) (w : World)
  : result Source :=
  out' ← set_index out 0 b;
  Some (b, out', w, true).

(** [type Print struct { time float64 }] *)
Record Print := { time : F }.
Definition Print_Step (b : Print) (inp out : list F) (w : World)
  : result Print :=
  x ← index inp 0;
  Some ({| time := nadd (time b) DT |}, out, println (time b) x w, true).

(** [type Tee struct{}] *)
Definition Tee_Step (b : unit) (inp out : list F) (w : World)
  : result unit :=
  x ← index inp 0;
  out1 ← set_index out 0 x;
  x' ← index inp 0;
  out2 ← set_index out1 1 x';
  Some (b, out2, w, true).

(** [type Stop struct { Time float64; Callbacks []func(); t float64 }] *)
Record Stop := {
  Time : F;
  Callbacks : list (World -> World);
  t : F
}.

(** [for _, f := range s.Callbacks { f() }] *)
Definition call_all (fs : list (World -> World)) (w : World) : World :=
  foldl (fun w f => f w) w fs.

Definition Stop_Step (s : Stop) (inp out : list F) (w : World)
  : result Stop :=
  let s' := {| Time := Time s; Callbacks := Callbacks s;
               t := nadd (t s) DT |} in
  if nge (t s') (Time s')
  then Some (s', out, call_all (Callbacks s') w, false)
  else
    x ← index inp 0;
    out' ← set_index out 0 x;
    Some (s', out', w, true).

(** A value of the interface type [Block] holding one of the blocks
    above; its methods dispatch on the dynamic type. *)
Inductive StdBlock :=
| BScale (b : Scale)
| BAdd
| BIntegrate (b : Integrate)
| BSource (b : Source)
| BPrint (b : Print)
| BTee
| BStop (b : Stop).

Definition Std_Inputs (b : StdBlock) : nat :=
  match b with
  | BScale _ => 1 | BAdd => 2 | BIntegrate _ => 1 | BSource _ => 0
  | BPrint _ => 1 | BTee => 1 | BStop _ => 1
  end.

Definition Std_Outputs (b : StdBlock) : nat :=
  match b with
  | BScale _ => 1 | BAdd => 1 | BIntegrate _ => 1 | BSource _ => 1
  | BPrint _ => 0 | BTee => 2 | BStop _ => 1
  end.

Definition wrap {B} (inj : B -> StdBlock) (r : result B) : result StdBlock :=
  '(b, y, w, c) ← r; Some (inj b, y, w, c).

Definition Std_Step (b : StdBlock) (inp out : list F) (w : World)
  : result StdBlock :=
  match b with
  | BScale b => wrap BScale (Scale_Step b inp out w)
  | BAdd => wrap (fun _ => BAdd) (Add_Step tt inp out w)
  | BIntegrate b => wrap BIntegrate (Integrate_Step b inp out w)
  | BSource b => wrap BSource (Source_Step b inp out w)
  | BPrint b => wrap BPrint (Print_Step b inp out w)
  | BTee => wrap (fun _ => BTee) (Tee_Step tt inp out w)
  | BStop b => wrap BStop (Stop_Step b inp out w)
  end.

Lemma set_index_length {A} (l l' : list A) i v :
  set_index l i v = Some l' -> length l' = length l.
Proof.
  unfold set_index. case_match; [|done].
  intros [= <-]. by rewrite length_insert.
Qed.

Lemma Std_Step_length b x y w b' y' w' c :
  Std_Step b x y w = Some (b', y', w', c) -> length y' = length y.
Proof.
  destruct b; simpl; unfold wrap, Scale_Step, Add_Step, Integrate_Step,
    Source_Step, Print_Step, Tee_Step, Stop_Step; intros Hs;
    repeat match goal with
      | Hb : _ ≫= _ = Some _ |- _ =>
          apply bind_Some in Hb as (? & ? & ?)
      | Hb : (if ?g then _ else _) = Some _ |- _ => destruct g
      | Hb : (let '(_, _) := ?p in _) = Some _ |- _ => destruct p
      | Hb : Some _ = Some _ |- _ => injection Hb as <- <- <- <-
      | Hi : set_index _ _ _ = Some _ |- _ =>
          apply set_index_length in Hi
      end; congruence.
Qed.

Definition Std_Block : Block F World StdBlock :=
  {| Inputs := Std_Inputs;
     Outputs := Std_Outputs;
     Step := Std_Step;
     Step_length := Std_Step_length |}.

End Blocks.

Arguments StdBlock F World : clear implicits.
Arguments Stop F World : clear implicits.
Arguments Integrate F : clear implicits.
Arguments Print F : clear implicits.

(** ** The package with its default step

    [var DT = 0.01] *)
Definition DT_default : float := 0.01%float.

(** A world in which printing leaves no trace. *)
Definition quiet : float -> float -> unit -> unit := fun _ _ w => w.

#[export] Instance Std_float : Block float unit (StdBlock float unit) :=
  Std_Block DT_default quiet.

(** * What the properties speak of *)

Section Vocabulary.
Context {F : Type} `{Num F} {World : Type} {B : Type} `{Block F World B}.

(** ** Ports and slots *)

Definition ports (d : dir) (b : ioBlock B) : list port :=
  match d with input_port => b_In b | output_port => b_Out b end.

(** Every port of the block holds a channel. *)
Definition bound (b : ioBlock B) : Prop :=
  Forall is_Some (b_In b) /\ Forall is_Some (b_Out b).

(** A place that holds a channel: port [p] of block [k], or port [p] of
    the system's own boundary. *)
Inductive slot :=
| blk_in (k p : nat) | blk_out (k p : nat)
| sys_in (p : nat) | sys_out (p : nat).

#[export] Instance slot_eq_dec : EqDecision slot.
Proof. solve_decision. Defined.

Definition read (s : System F B) (sl : slot) : option port :=
  match sl with
  | blk_in k p => b ← blocks s !! k; b_In b !! p
  | blk_out k p => b ← blocks s !! k; b_Out b !! p
  | sys_in p => s_In s !! p
  | sys_out p => s_Out s !! p
  end.

(** The two slots [Connect(src, dst, o, i)] assigns. *)
Definition dst_slot (dst i : Z) : slot :=
  if i <? 0 then sys_out (Z.to_nat (- i - 1))
  else blk_in (Z.to_nat dst) (Z.to_nat i).

Definition src_slot (src o : Z) : slot :=
  if o <? 0 then sys_in (Z.to_nat (- o - 1))
  else blk_out (Z.to_nat src) (Z.to_nat o).

(** The indices are in range: a non-negative port index with its block
    index, a negative one with the boundary array. *)
Definition valid_dst (s : System F B) (dst i : Z) : bool :=
  if i <? 0 then bool_decide (in_range (s_Out s) (- i - 1))
  else match index (blocks s) dst with
       | Some b => bool_decide (in_range (b_In b) i)
       | None => false
       end.

Definition valid_src (s : System F B) (src o : Z) : bool :=
  if o <? 0 then bool_decide (in_range (s_In s) (- o - 1))
  else match index (blocks s) src with
       | Some b => bool_decide (in_range (b_Out b) o)
       | None => false
       end.

(** Every channel of the system came from the allocator. *)
Definition allocated (st : Store F B) : Prop :=
  forall sl c, read (sys st) sl = Some (Some c) -> (c < next_chan st)%nat.

(** The first assignment of [Connect]. *)
Definition assign_dst (dst i : Z) (c : chan) : M (F:=F) (B:=B) unit :=
  if i <? 0 then set_s_Out (- i - 1) c else set_block_In dst i c.

Definition assign_src (src o : Z) (c : chan) : M (F:=F) (B:=B) unit :=
  if o <? 0 then set_s_In (- o - 1) c else set_block_Out src o c.

(** The entry [Add(b)] appends. *)
Definition fresh_ioBlock (b : B) : ioBlock B :=
  {| b_Block := b;
     b_In := replicate (Inputs b) None;
     b_Out := replicate (Outputs b) None |}.

(** The initial condition [AddIC(x, dst, i)] records. *)
Definition ic_in_range (s : System F B) (ic : IC F) : Prop :=
  exists b, index (blocks s) (block ic) = Some b
            /\ in_range (b_In b) (input ic).

(** ** One goroutine at a time *)

(** The edge an initial condition is sent on. *)
Definition ic_edge (s : System F B) (ic : IC F) : port :=
  default None (ic_target s ic).

Definition ic_label (s : System F B) (ic : IC F) : mlabel F B :=
  l_ic (ic_edge s ic) (value ic).

(** The receives all succeed. *)
Definition delivered (vs : list F) : list (F * bool) :=
  (fun v => (v, true)) <$> vs.

(** The receives of one iteration, as the worker sees them. *)
Definition recv_labels (ins : list port) (env : list (F * bool))
  : list (wlabel F) :=
  zip_with (fun c r => l_recv c r.1 r.2) ins env.

(** A worker at the head of its loop, its two buffers as long as its two
    port lists. *)
Definition at_head (w : worker F B) : Prop :=
  w_pc w = WRecv 0
  /\ length (w_x w) = length (w_in w)
  /\ length (w_y w) = length (w_out w).

(** ** Executions *)

(** The workers are the blocks spawned so far, in order, each on the
    ports of its block. *)
Definition workers_of (s : System F B) (ws : list (worker F B)) : Prop :=
  Forall2 (fun w io => w_in w = b_In io /\ w_out w = b_Out io)
          ws (take (length ws) (blocks s)).

Definition main_ok (s : System F B) (pc : mpc) (ws : list (worker F B))
  : Prop :=
  match pc with
  | MSpawn i => length ws = i /\ (i <= length (blocks s))%nat
  | MReturn (Some _) => length ws = 0%nat
  | _ => length ws = length (blocks s)
  end.

Definition spawned (s : System F B) (c : config F World B) : Prop :=
  c_sys c = s /\ main_ok s (c_main c) (c_workers c)
  /\ workers_of s (c_workers c).

(** The blocks satisfying [P] go on for ever: on one input and one
    output their [Step] neither panics nor says stop. *)
Definition perpetual (P : B -> Prop) : Prop :=
  forall blk x y wd, P blk -> length x = 1%nat -> length y = 1%nat ->
    exists b' y' wd', Step blk x y wd = Some (b', y', wd', true) /\ P b'.

Section Cycle.
Variable s : System F B.
(** The blocks of the cycle, and for each of them the input port at
    which the cycle feeds it. *)
Variable on_cycle : nat -> Prop.
Variable fed_at : nat -> nat.

(** The edge into each block of the cycle is written by blocks of the
    cycle only, and no initial condition is sent on it. *)
Definition unseeded : Prop :=
  forall k io, on_cycle k -> blocks s !! k = Some io ->
    exists e, b_In io !! fed_at k = Some (Some e)
      /\ (forall k' io' o, blocks s !! k' = Some io' ->
            b_Out io' !! o = Some (Some e) -> on_cycle k')
      /\ (forall ic, ic ∈ initials s -> ic_target s ic <> Some (Some e)).

(** No worker of the cycle has got past the receive on that edge. *)
Definition waiting (c : config F World B) : Prop :=
  forall k w, on_cycle k -> c_workers c !! k = Some w ->
    exists i, w_pc w = WRecv i /\ (i <= fed_at k)%nat
              /\ w_cycles w = 0%nat
              /\ exists io, blocks s !! k = Some io /\ w_b w = b_Block io.

End Cycle.

End Vocabulary.

(** ** A cycle of two blocks *)

Section RingVocabulary.
Context {F : Type} `{Num F} {World : Type} {B : Type} `{Block F World B}.
Variable P : B -> Prop.
Variables (sin sout : list port) (init : bool).
Variables (A B' : B) (a b : chan) (v : F).

Definition ioA : ioBlock B :=
  {| b_Block := A; b_In := [Some a]; b_Out := [Some b] |}.

Definition ioB : ioBlock B :=
  {| b_Block := B'; b_In := [Some b]; b_Out := [Some a] |}.

(** A -> B -> A: the output of [A] is the input of [B] and the output
    of [B] is the input of [A]. *)
Definition ring_system (ics : list (IC F)) : System F B :=
  {| s_In := sin; s_Out := sout; blocks := [ioA; ioB];
     initials := ics; initialized := init |}.

(** One initial condition: on the edge A -> B when [seedB] (it is sent
    to the input of [B]), otherwise on the edge B -> A. *)
Definition seed (seedB : bool) : IC F :=
  {| value := v; block := if seedB then 1 else 0; input := 0 |}.

Definition good (io : ioBlock B) (w : worker F B) : Prop :=
  w_in w = b_In io /\ w_out w = b_Out io
  /\ length (w_x w) = 1%nat /\ length (w_y w) = 1%nat /\ P (w_b w).

Definition fresh (io : ioBlock B) (w : worker F B) : Prop :=
  good io w /\ w_pc w = WRecv 0 /\ w_cycles w = 0%nat.

(** Where the two workers of the ring can be, once the initial value
    is in: [T] received it. *)
Definition ring (pcT : wpc) (cT : nat) (pcO : wpc) (cO : nat) : Prop :=
  match pcT, pcO with
  | (WRecv 1 | WCall | WSend 0), WRecv 0 => cO = cT
  | (WRecv 1 | WCall | WSend 0), WSend 1 => S cO = cT
  | WRecv 0, (WRecv 1 | WCall | WSend 0) => cT = S cO
  | WSend 1, (WRecv 1 | WCall | WSend 0) => cT = cO
  | _, _ => False
  end.

Definition Inv (seedB : bool) (c : config F World B) : Prop :=
  c_sys c = ring_system [seed seedB] /\
  match c_main c, c_workers c with
  | MSpawn 0, [] => True
  | MSpawn 1, [w0] => fresh ioA w0
  | MSpawn 2, [w0; w1] | MSendIC 0, [w0; w1] => fresh ioA w0 /\ fresh ioB w1
  | MSendIC 1, [w0; w1] | MWait, [w0; w1] =>
      good ioA w0 /\ good ioB w1 /\
      if seedB then ring (w_pc w1) (w_cycles w1) (w_pc w0) (w_cycles w0)
      else ring (w_pc w0) (w_cycles w0) (w_pc w1) (w_cycles w1)
  | _, _ => False
  end.

Definition phase (pc : wpc) : nat :=
  match pc with
  | WRecv 0 => 0 | WRecv (S _) => 1 | WCall => 2
  | WSend 0 => 3 | WSend (S _) => 4 | _ => 0
  end.

Definition pos_w (w : worker F B) : nat := 5 * w_cycles w + phase (w_pc w).

Definition pos_m (pc : mpc) : nat :=
  match pc with
  | MSpawn i => i | MSendIC j => 3 + j | MWait => 5 | _ => 0
  end.

Definition progress (c : config F World B) : nat :=
  pos_m (c_main c) + sum_list (pos_w <$> c_workers c).

(** The same two blocks with no initial condition. *)
Definition InvU (c : config F World B) : Prop :=
  c_sys c = ring_system [] /\
  match c_main c, c_workers c with
  | MSpawn 0, [] => True
  | MSpawn 1, [w0] => w0 = spawn ioA
  | MSpawn 2, [w0; w1] | MSendIC 0, [w0; w1] | MWait, [w0; w1] =>
      w0 = spawn ioA /\ w1 = spawn ioB
  | _, _ => False
  end.

Definition pos_u (pc : mpc) : nat :=
  match pc with
  | MSpawn i => i | MSendIC _ => 3 | MWait => 4 | _ => 0
  end.

End RingVocabulary.

(** ** Blocks driven step by step *)

Section TimeVocabulary.
Context {F : Type} `{Num F} {World : Type}.
Variable DT : F.

(** [s.t] after [k] calls of [Step], from zero: [DT] added [k] times. *)
Definition elapsed (k : nat) : F := Nat.iter k (fun t => nadd t DT) nzero.

(** The block after [k] calls. *)
Definition Stop_after (s : Stop F World) (k : nat) : Stop F World :=
  {| Time := Time s; Callbacks := Callbacks s; t := elapsed k |}.

(** What a worker does with its block: [Step] on each input in turn,
    sending the output after each call that says continue, until a call
    says stop.  The result is what was sent, the block, the world, and
    whether the block has said stop. *)
Fixpoint drive {B : Type} (step : B -> list F -> list F -> World -> result B)
    (b : B) (y : list F) (w : World) (xs : list (list F))
  : list (list F) * B * World * bool :=
  match xs with
  | [] => ([], b, w, false)
  | x :: xs' =>
      match step b x y w with
      | Some (b', y', w', true) =>
          let '(sent, b'', w'', halted) := drive step b' y' w' xs' in
          (y' :: sent, b'', w'', halted)
      | Some (b', y', w', false) => ([], b', w', true)
      | None => ([], b, w, false)
      end
  end.

(** One-port signals. *)
Definition wires (xs : list F) : list (list F) := (fun x => [x]) <$> xs.

(** An [Integrate] block after one call of [Step] on each of [xs] in
    turn: each input times [DT], added to [State]. *)
Definition Integrate_after (b : Integrate F) (xs : list F) : Integrate F :=
  foldl (fun b x => {| State := nadd (State b) (nmul x DT) |}) b xs.

(** What it has put out by then: its state after each call. *)
Definition Integrate_sent (b : Integrate F) (xs : list F) : list (list F) :=
  (fun k => [State (Integrate_after b (take (S k) xs))]) <$> seq 0 (length xs).

End TimeVocabulary.

(** ** Small systems *)

Definition is_Scale (blk : StdBlock float unit) : Prop :=
  exists k, blk = BScale k.

(** Two scaling blocks in a cycle, seeded on the edge into the second. *)
Definition scale_ring : System float (StdBlock float unit) :=
  ring_system [] [] false (BScale 2%float) (BScale 0.5%float) 0 1
              [seed 1%float true].

(** The same cycle with a [Stop] block in it, seeded on the edge into
    the [Stop] block, which stops at its first step. *)
Definition stopping_ring : System float (StdBlock float unit) :=
  ring_system [] [] false
              (BStop {| Time := 0%float; Callbacks := []; t := 0%float |})
              (BScale 1%float) 0 1
              [seed 1%float false].

Definition stopping_schedule : list choice :=
  [main_local; main_local; main_local; ic_delivered 0; main_local;
   worker_local 0; worker_local 0; notified 0].

(** The stop block of the test of the first-order example: stop time
    3, with the default step. *)
Definition stop3 : Stop float unit :=
  {| Time := 3%float; Callbacks := []; t := 0%float |}.

(** A scaling block wired to itself through channels 0 and 1, at the head
    of its loop. *)
Definition scale_worker : worker float (StdBlock float unit) :=
  {| w_in := [Some 0%nat]; w_out := [Some 1%nat]; w_b := BScale 2%float;
     w_x := [0%float]; w_y := [0%float]; w_pc := WRecv 0; w_cycles := 0 |}.

(** Validation passes on a system with no block; its one initial
    condition names block 0, which does not exist: [Start] panics where
    it should send it, and returns nothing. *)
Definition stray_ic : System float (StdBlock float unit) :=
  {| s_In := []; s_Out := []; blocks := [];
     initials := [{| value := 1%float; block := 0; input := 0 |}];
     initialized := false |}.

(** Two blocks just added, nothing connected. *)
Definition two_scales : Store float (StdBlock float unit) :=
  {| sys := {| s_In := []; s_Out := [];
               blocks := [fresh_ioBlock (BScale 2%float);
                          fresh_ioBlock (BScale 0.5%float)];
               initials := []; initialized := false |};
     next_chan := 0 |}.

(** A system with one boundary input, one boundary output and no block. *)
Definition boundary_only : Store float (StdBlock float unit) :=
  {| sys := {| s_In := [None]; s_Out := [None]; blocks := [];
               initials := []; initialized := false |};
     next_chan := 0 |}.

(** * What the further properties speak of *)

(** ** Setting a system up *)

Section BuildVocabulary.
Context {F : Type} `{Num F} {World : Type} {B : Type} `{Block F World B}.

(** A call of one of the three methods that build the graph. *)
Inductive call :=
| call_Add (b : B)
| call_AddIC (x : F) (dst i : Z)
| call_Connect (src dst o i : Z).

Definition do_call (c : call) : M (F:=F) (B:=B) unit :=
  match c with
  | call_Add b => System_Add b
  | call_AddIC x dst i => System_AddIC x dst i
  | call_Connect src dst o i => System_Connect src dst o i
  end.

(** Calls one after the other, as in a function that sets a system up;
    a panic ends it. *)
Fixpoint do_calls (cs : list call) : M (F:=F) (B:=B) unit :=
  match cs with
  | [] => ret tt
  | c :: cs' => do_call c;; do_calls cs'
  end.

(** The system as the calls leave it, whether they returned or
    panicked. *)
Definition store_of {A} (r : Res (F:=F) (B:=B) A) : Store F B :=
  match r with Ok _ st => st | Panic st => st end.

Definition returned {A} (r : Res (F:=F) (B:=B) A) : bool :=
  match r with Ok _ _ => true | Panic _ => false end.

(** The end of a channel a slot holds: the end that is read (an input
    of a block, an output of the system) or the end that is written. *)
Definition read_end (sl : slot) : bool :=
  match sl with blk_in _ _ | sys_out _ => true | _ => false end.

(** No channel sits in two slots of the same end. *)
Definition point_to_point (s : System F B) : Prop :=
  forall sl1 sl2 c,
    read s sl1 = Some (Some c) -> read s sl2 = Some (Some c) ->
    read_end sl1 = read_end sl2 -> sl1 = sl2.

(** The entry has as many ports as its block says. *)
Definition arity_ok (io : ioBlock B) : Prop :=
  length (b_In io) = Inputs (b_Block io)
  /\ length (b_Out io) = Outputs (b_Block io).

Definition well_formed (st : Store F B) : Prop :=
  allocated st /\ point_to_point (sys st)
  /\ Forall arity_ok (blocks (sys st)).

(** [s'] is [s] with more in it: the same boundary, the same blocks with
    the same numbers of ports and maybe more blocks after them, the
    same initial conditions and maybe more after them, and a channel in
    every slot that had one. *)
Definition grown (s s' : System F B) : Prop :=
  length (s_In s') = length (s_In s)
  /\ length (s_Out s') = length (s_Out s)
  /\ (exists more, b_Block <$> blocks s' = (b_Block <$> blocks s) ++ more)
  /\ (forall k io, blocks s !! k = Some io ->
        exists io', blocks s' !! k = Some io'
          /\ length (b_In io') = length (b_In io)
          /\ length (b_Out io') = length (b_Out io))
  /\ (forall sl c, read s sl = Some (Some c) ->
        exists c', read s' sl = Some (Some c'))
  /\ (exists more, initials s' = initials s ++ more)
  /\ initialized s' = initialized s.

(** Port [k] in direction [d] of block [i] is the first nil port of the
    system in the order [check] walks it: block by block, the inputs of
    a block before its outputs, each by ascending index. *)
Definition first_unbound (s : System F B) (i : nat) (d : dir) (k : nat)
  : Prop :=
  exists b, blocks s !! i = Some b
    /\ Forall bound (take i (blocks s))
    /\ ports d b !! k = Some None
    /\ Forall is_Some (take k (ports d b))
    /\ (d = output_port -> Forall is_Some (b_In b)).

(** A [Connect] among the calls names the slot, as its destination or
    as its source. *)
Definition names (cs : list call) (sl : slot) : Prop :=
  exists src dst o i,
    call_Connect src dst o i ∈ cs
    /\ (dst_slot dst i = sl \/ src_slot src o = sl).

(** Nothing writes to the channel: no slot holds its writing end and
    no initial condition is sent on it. *)
Definition orphan (s : System F B) (e : chan) : Prop :=
  (forall sl, read_end sl = false -> read s sl <> Some (Some e))
  /\ (forall ic, ic ∈ initials s -> ic_target s ic <> Some (Some e)).

End BuildVocabulary.

Arguments call F B : clear implicits.

(** ** Blocks step by step *)

Section BlockVocabulary.
Context {F : Type} `{Num F} {World : Type}.
Variable DT : F.
Variable println : F -> F -> World -> World.

(** The world after a [Print] block whose clock shows [elapsed k] has
    printed the values [xs], one per step. *)
Fixpoint printed (k : nat) (xs : list F) (w : World) : World :=
  match xs with
  | [] => w
  | x :: xs' => printed (S k) xs' (println (elapsed DT k) x w)
  end.

(** A [Stop] block at the step at which it stops. *)
Definition stopping (b : StdBlock F World) : bool :=
  match b with
  | BStop s => nge (nadd (t s) DT) (Time s)
  | _ => false
  end.

End BlockVocabulary.

(** The two zeros of binary64. *)
Definition SFzero (f : spec_float) : Prop :=
  match f with S754_zero _ => True | _ => False end.

(** Equal up to the sign of zero. *)
Definition same (x y : float) : Prop :=
  Prim2SF x = Prim2SF y \/ (SFzero (Prim2SF x) /\ SFzero (Prim2SF y)).

Definition no_Stop (b : StdBlock float unit) : Prop :=
  match b with BStop _ => False | _ => True end.

(** ** Runs *)

Section RunVocabulary.
Context {F : Type} `{Num F} {World : Type} {B : Type} `{Block F World B}.

(** The blocks satisfying [P] never say stop. *)
Definition never_stops (P : B -> Prop) : Prop :=
  forall blk x y wd b' y' wd' ok,
    P blk -> Step blk x y wd = Some (b', y', wd', ok) -> ok = true /\ P b'.

(** The blocks satisfying [P] do not panic on slices as long as their
    numbers of inputs and outputs, and keep these numbers. *)
Definition safe (P : B -> Prop) : Prop :=
  forall blk x y wd,
    P blk -> length x = Inputs blk -> length y = Outputs blk ->
    exists b' y' wd' ok,
      Step blk x y wd = Some (b', y', wd', ok)
      /\ P b' /\ Inputs b' = Inputs blk /\ Outputs b' = Outputs blk.

(** A property of workers that no step of a worker breaks; [closed] says
    which channels are closed. *)
Definition stable (closed : chan -> bool) (Q : worker F B -> Prop) : Prop :=
  (forall w wd, Q w -> w_op w = op_local -> Q (w_local w wd).1)
  /\ (forall w p v ok, Q w -> w_op w = op_recv p -> Q (w_received w v ok))
  /\ (forall w p v, Q w -> w_op w = op_send p v -> Q (w_sent w))
  /\ (forall w, Q w -> w_op w = op_notify -> Q (w_sent w))
  /\ (forall w a v, Q w -> w_op w = op_send (Some a) v -> closed a = true ->
        Q (set_pc w WPanic)).

(** The worker has not stopped: it is not about to send on [done]. *)
Definition going (P : B -> Prop) (w : worker F B) : Prop :=
  P (w_b w) /\ w_pc w <> WNotify.

(** The worker's buffers fit its block, and it has not panicked. *)
Definition sound (P : B -> Prop) (w : worker F B) : Prop :=
  length (w_x w) = Inputs (w_b w) /\ length (w_y w) = Outputs (w_b w)
  /\ P (w_b w) /\ w_pc w <> WPanic.

End RunVocabulary.

(** ** The cycle of two blocks run by hand *)

Section HandVocabulary.
Context {F : Type} `{Num F} {World : Type} {B : Type} `{Block F World B}.
Variables (A B' : B) (v : F) (seedB : bool) (wd0 : World).

(** The data of the cycle: the block the initial value goes to and what
    it has last put out, the other block and what it has last put out,
    and the world. *)
Record ring_data := {
  d_first : B;
  d_first_out : list F;
  d_second : B;
  d_second_out : list F;
  d_world : World
}.

(** Call number [n] (from 0) when it is the first block's: on the
    initial value the first time, later on what the second block has
    put out. *)
Definition step_first (n : nat) (d : ring_data) : option ring_data :=
  '(b', y', wd', _) ←
    Step (d_first d) (match n with O => [v] | _ => d_second_out d end)
         (d_first_out d) (d_world d);
  Some {| d_first := b'; d_first_out := y'; d_second := d_second d;
          d_second_out := d_second_out d; d_world := wd' |}.

Definition step_second (d : ring_data) : option ring_data :=
  '(b', y', wd', _) ←
    Step (d_second d) (d_first_out d) (d_second_out d) (d_world d);
  Some {| d_first := d_first d; d_first_out := d_first_out d;
          d_second := b'; d_second_out := y'; d_world := wd' |}.

(** The cycle run on one thread: [n] calls of [Step], the two blocks in
    turn, from the blocks as they were added, output buffers holding
    zero, and the world [wd0]. *)
Fixpoint by_hand (n : nat) : option ring_data :=
  match n with
  | O => Some {| d_first := if seedB then B' else A;
                 d_first_out := [nzero];
                 d_second := if seedB then A else B';
                 d_second_out := [nzero];
                 d_world := wd0 |}
  | S n' =>
      d ← by_hand n';
      if Nat.even n' then step_first n' d else step_second d
  end.

(** The calls of [Step] a worker has made. *)
Definition calls (w : worker F B) : nat :=
  (w_cycles w + match w_pc w with WSend _ => 1 | _ => 0 end)%nat.

Definition total_calls (c : config F World B) : nat :=
  sum_list (calls <$> c_workers c).

(** The data of a configuration of the cycle. *)
Definition data_of (c : config F World B) : option ring_data :=
  match c_workers c with
  | [w0; w1] =>
      let '(wT, wO) := if seedB then (w1, w0) else (w0, w1) in
      Some {| d_first := w_b wT; d_first_out := w_y wT;
              d_second := w_b wO; d_second_out := w_y wO;
              d_world := c_world c |}
  | _ => None
  end.

(** Having received, and not yet called [Step]. *)
Definition awaiting (w : worker F B) : Prop :=
  w_pc w = WRecv 1 \/ w_pc w = WCall.

Variables (a b : chan).

Definition DataInv (c : config F World B) : Prop :=
  match c_main c, c_workers c with
  | (MSendIC 1 | MWait), [w0; w1] =>
      let '(wT, wO) := if seedB then (w1, w0) else (w0, w1) in
      by_hand (total_calls c) = data_of c
      /\ (awaiting wT ->
            w_x wT = match calls wT with O => [v] | _ => w_y wO end)
      /\ (awaiting wO -> w_x wO = w_y wT)
  | _, ws =>
      Forall2 (fun w io => w = spawn io) ws
              (take (length ws) [ioA A a b; ioB B' a b])
      /\ c_world c = wd0
  end.

End HandVocabulary.

(** ** The cycle of two blocks with two initial conditions *)

Section OverVocabulary.
Context {F : Type} `{Num F} {World : Type} {B : Type} `{Block F World B}.
Variable P : B -> Prop.
Variables (sin sout : list port) (init : bool).
Variables (A B' : B) (a b : chan) (v1 v2 : F).

(** Between the receive of a value and the send of the next. *)
Definition holding (pc : wpc) : Prop :=
  match pc with WRecv 1 | WCall | WSend 0 => True | _ => False end.

Definition InvO (s1 s2 : bool) (c : config F World B) : Prop :=
  c_sys c = ring_system sin sout init A B' a b [seed v1 s1; seed v2 s2] /\
  match c_main c, c_workers c with
  | MSpawn 0, [] => True
  | MSpawn 1, [w0] => fresh P (ioA A a b) w0
  | MSpawn 2, [w0; w1] | MSendIC 0, [w0; w1] =>
      fresh P (ioA A a b) w0 /\ fresh P (ioB B' a b) w1
  | MSendIC 1, [w0; w1] =>
      good P (ioA A a b) w0 /\ good P (ioB B' a b) w1 /\
      if s1 then ring (w_pc w1) (w_cycles w1) (w_pc w0) (w_cycles w0)
      else ring (w_pc w0) (w_cycles w0) (w_pc w1) (w_cycles w1)
  | MSendIC 2, [w0; w1] | MWait, [w0; w1] =>
      good P (ioA A a b) w0 /\ good P (ioB B' a b) w1 /\
      holding (w_pc w0) /\ holding (w_pc w1)
  | _, _ => False
  end.

(** Both initial values are in. *)
Definition over (c : config F World B) : Prop :=
  match c_main c with MSendIC 2 | MWait => True | _ => False end.

Definition pos_h (w : worker F B) : nat :=
  match w_pc w with WCall => 1 | WSend _ => 2 | _ => 0 end.

Definition pos_o (c : config F World B) : nat :=
  match c_main c with MWait => 1 | _ => 0 end
  + sum_list (pos_h <$> c_workers c).

End OverVocabulary.

(** ** The cycle of two blocks of which one counts down *)

Section HaltVocabulary.
Context {F : Type} `{Num F} {World : Type} {B : Type} `{Block F World B}.

(** The blocks [PA n] have made [n] calls of [Step]; they say stop at
    call [N] and not before, and do not panic on one input and one
    output. *)
Definition counts_down (PA : nat -> B -> Prop) (N : nat) : Prop :=
  forall n blk x y wd,
    (n < N)%nat -> PA n blk -> length x = 1%nat -> length y = 1%nat ->
    exists b' y' wd',
      Step blk x y wd = Some (b', y', wd', negb (S n =? N)%nat)
      /\ PA (S n) b'.

Variable P : B -> Prop.
Variable PA : nat -> B -> Prop.
Variable N : nat.
Variables (sin sout : list port) (init : bool).
Variables (A B' : B) (a b : chan) (v : F).

(** Waiting for a value that will not come, or about to. *)
Definition resting (pc : wpc) : Prop :=
  match pc with WRecv 0 | WSend 1 => True | _ => False end.

Definition phase_h (pc : wpc) : nat :=
  match pc with
  | WRecv 0 => 0 | WRecv (S _) => 1 | WCall => 2
  | WSend 0 | WNotify => 3 | WSend (S _) | WExit => 4 | WPanic => 0
  end.

Definition pos_wh (w : worker F B) : nat :=
  5 * w_cycles w + phase_h (w_pc w).

Definition pos_mh (pc : mpc) : nat :=
  match pc with
  | MSpawn i => i | MSendIC j => 3 + j | MWait => 5
  | MReturn _ => 6 | MPanic => 0
  end.

Definition progress_h (c : config F World B) : nat :=
  pos_mh (c_main c) + sum_list (pos_wh <$> c_workers c).

(** The cycle of two blocks whose first block counts down: where its
    goroutines can be. *)
Definition InvS (seedB : bool) (c : config F World B) : Prop :=
  c_sys c = ring_system sin sout init A B' a b [seed v seedB] /\
  match c_main c, c_workers c with
  | MSpawn 0, [] => True
  | MSpawn 1, [w0] => fresh (PA 0) (ioA A a b) w0
  | MSpawn 2, [w0; w1] | MSendIC 0, [w0; w1] =>
      fresh (PA 0) (ioA A a b) w0 /\ fresh P (ioB B' a b) w1
  | MSendIC 1, [w0; w1] | MWait, [w0; w1] =>
      good P (ioB B' a b) w1 /\
      match w_pc w0 with
      | WNotify =>
          good (PA N) (ioA A a b) w0 /\ S (w_cycles w0) = N
          /\ resting (w_pc w1) /\ (calls w1 <= N)%nat
      | _ =>
          good (PA (calls w0)) (ioA A a b) w0 /\ (calls w0 < N)%nat /\
          if seedB then ring (w_pc w1) (w_cycles w1) (w_pc w0) (w_cycles w0)
          else ring (w_pc w0) (w_cycles w0) (w_pc w1) (w_cycles w1)
      end
  | MReturn None, [w0; w1] =>
      good P (ioB B' a b) w1 /\ good (PA N) (ioA A a b) w0
      /\ w_pc w0 = WExit /\ S (w_cycles w0) = N
      /\ resting (w_pc w1) /\ (calls w1 <= N)%nat
  | _, _ => False
  end.

End HaltVocabulary.

(** A [Stop] block that has made [n] steps from zero. *)
Definition Stop_at {F : Type} `{Num F} {World : Type} (DT T : F)
    (cbs : list (World -> World)) (n : nat) (blk : StdBlock F World) : Prop :=
  blk = BStop {| Time := T; Callbacks := cbs; t := elapsed DT n |}.

(** ** More small systems *)

(** Three scaling blocks just added, the output of the first connected
    to the input of the second. *)
Definition three_scales_calls : list (call float (StdBlock float unit)) :=
  [call_Add (BScale 2%float); call_Add (BScale 3%float);
   call_Add (BScale 5%float); call_Connect 0 1 0 0].

(** Two scaling blocks connected in a cycle. *)
Definition cycle_calls : list (call float (StdBlock float unit)) :=
  [call_Add (BScale 2%float); call_Add (BScale 0.5%float);
   call_Connect 0 1 0 0; call_Connect 1 0 0 0].

Definition three_scales : Store float (StdBlock float unit) :=
  store_of (do_calls three_scales_calls
              {| sys := System_zero; next_chan := 0 |}).

(** [Start] has returned, and a second [Stop] block has reached its
    time. *)
Definition second_stop : config float unit (StdBlock float unit) :=
  {| c_sys := stopping_ring; c_main := MReturn None;
     c_workers :=
       [{| w_in := [Some 0%nat]; w_out := [Some 1%nat];
           w_b := BStop {| Time := 0%float; Callbacks := [];
                           t := 1%float |};
           w_x := [1%float]; w_y := [0%float];
           w_pc := WNotify; w_cycles := 0 |}];
     c_world := tt |}.

(** The cycle of a [Stop] block with stop time 3 and a scaling block,
    seeded on the edge into the scaling block. *)
Definition stop3_ring : System float (StdBlock float unit) :=
  ring_system [] [] false (BStop stop3) (BScale 1%float) 0 1
              [seed 1%float true].

(** A scaling block, in any arithmetic. *)
Definition scaling {F World : Type} (blk : StdBlock F World) : Prop :=
  exists k, blk = BScale k.

(** The cycle of a [Stop] block with stop time 1 and a scaling block,
    without rounding. *)
Definition stop1_ring : System Q (StdBlock Q unit) :=
  ring_system [] [] false
              (BStop {| Time := 1%Q; Callbacks := []; t := 0%Q |})
              (BScale 1%Q) 0 1 [seed 1%Q true].

(** A world that keeps what is printed. *)
Definition println_log (t x : Q) (w : list (Q * Q)) : list (Q * Q) :=
  w ++ [(t, x)].

(** * Properties *)

(** Undo one [exec]: every way a step can have happened. *)
Ltac exec_inv Hex :=
  unfold exec in Hex;
  destruct (crashed _) eqn:?; [discriminate Hex|];
  match type of Hex with
  | match ?ch with _ => _ end = _ =>
      destruct ch as [|kx|kx|kx ky|kx|kx|kx|]
  end;
  cbn [mbind option_bind] in Hex;
  repeat match type of Hex with
    | context [c_workers ?c !! ?k] =>
        let Hk := fresh "Hk" in
        destruct (c_workers c !! k) eqn:Hk; cbn [mbind option_bind] in Hex;
        [|discriminate Hex]
    end;
  repeat match type of Hex with
    | context [m_op ?s ?pc] =>
        let Hop := fresh "Hmop" in
        destruct (m_op s pc) as [[?|]|[?|] ?| | | |] eqn:Hop;
        try discriminate Hex
    | context [w_op ?w] =>
        let Hop := fresh "Hwop" in
        destruct (w_op w) as [[?|]|[?|] ?| | | |] eqn:Hop;
        try discriminate Hex
    | context [m_local ?s ?pc ?ws] =>
        let Hl := fresh "Hml" in
        destruct (m_local s pc ws) eqn:Hl
    | context [w_local ?w ?wd] =>
        let Hl := fresh "Hwl" in
        destruct (w_local w wd) eqn:Hl
    | (if ?g then _ else _) = _ =>
        let Hg := fresh "Hg" in
        destruct g eqn:Hg; [|discriminate Hex]
    end;
  injection Hex as <-.

(** Evaluating [exec] on a configuration whose workers are written out. *)
Ltac norm H :=
  cbn in H;
  try change (Z.to_nat 1) with 1%nat in H;
  try change (Z.to_nat 0) with 0%nat in H;
  cbn in H;
  repeat (case_bool_decide; cbn in H; try discriminate H).

Ltac lookups H :=
  repeat match type of H with
    | context [ (_ :: _) !! ?k ] =>
        is_var k; destruct k as [|k]; cbn in H; try discriminate H
    | context [ @nil _ !! ?k ] =>
        is_var k; destruct k as [|k]; cbn in H; try discriminate H
    end.

Ltac fa := repeat first [apply Forall_nil_2 | apply Forall_cons_2].

(** ** Validation ([check]) *)

Section Check.
Context {F : Type} `{Num F} {World : Type} {B : Type} `{Block F World B}.

Lemma check_ports_None i d k (l : list port) :
  check_ports i d k l = None <-> Forall is_Some l.
Proof.
  revert k. induction l as [|[c|] l IH]; intros k; simpl.
  - split; [constructor | done].
  - rewrite IH. split.
    + intros Hl. constructor; [by eexists | done].
    + by inversion 1.
  - split; [done|]. inversion 1 as [|? ? [? ?]]. done.
Qed.

Lemma check_ports_Some i d k (l : list port) e :
  check_ports i d k l = Some e ->
  exists j, e = not_connected i d (k + j) /\ l !! j = Some None
            /\ Forall is_Some (take j l).
Proof.
  revert k. induction l as [|[c|] l IH]; intros k; simpl; [done| |].
  - intros (j & -> & Hj & Hbefore)%IH. exists (S j).
    split; [f_equal; lia|]. split; [done|].
    simpl. constructor; [by eexists | done].
  - intros [= <-]. exists 0%nat. split; [f_equal; lia|]. by split.
Qed.

Lemma check_blocks_None i (bs : list (ioBlock B)) :
  check_blocks i bs = None <-> Forall bound bs.
Proof.
  revert i. induction bs as [|b bs IH]; intros i; simpl.
  - split; [constructor | done].
  - destruct (check_ports i input_port 0 (b_In b)) eqn:Hin.
    { split; [done|]. inversion 1 as [|? ? [Hb _]]; subst.
      apply (check_ports_None i input_port 0) in Hb. congruence. }
    destruct (check_ports i output_port 0 (b_Out b)) eqn:Hout.
    { split; [done|]. inversion 1 as [|? ? [_ Hb]]; subst.
      apply (check_ports_None i output_port 0) in Hb. congruence. }
    apply check_ports_None in Hin, Hout. rewrite IH. split.
    + intros Hbs. by constructor.
    + by inversion 1.
Qed.

Lemma check_blocks_Some i0 (bs : list (ioBlock B)) i d k :
  check_blocks i0 bs = Some (not_connected i d k) ->
  exists j b, i = (i0 + j)%nat /\ bs !! j = Some b
              /\ ports d b !! k = Some None
              /\ Forall bound (take j bs).
Proof.
  revert i0. induction bs as [|b bs IH]; intros i0; simpl; [done|].
  destruct (check_ports i0 input_port 0 (b_In b)) eqn:Hin.
  { intros [= ->]. apply check_ports_Some in Hin as (j & [= -> -> ->] & Hj & _).
    exists 0%nat, b. split; [lia|]. by repeat split. }
  destruct (check_ports i0 output_port 0 (b_Out b)) eqn:Hout.
  { intros [= ->]. apply check_ports_Some in Hout as (j & [= -> -> ->] & Hj & _).
    exists 0%nat, b. split; [lia|]. by repeat split. }
  intros (j & b' & -> & Hj & Hk & Hbefore)%IH.
  exists (S j), b'. split; [lia|]. repeat split; try done.
  simpl. constructor; [|done].
  split; by eapply check_ports_None.
Qed.

Lemma crashed_start (s : System F B) (wd : World) :
  crashed (start_config s wd) = false.
Proof.
  unfold crashed, start_config, System_Start. simpl.
  by destruct (System_check s).
Qed.

(** C3.  [check] returns nil exactly when every input and output port
    of every registered block holds a channel.  Otherwise its error
    names a block index and a port index at which a nil port sits, and
    [Start] returns that error at once: no worker exists, the world is
    untouched and the program has no step to take. *)
Theorem check_nil_iff_bound_and_Start_refuses
    (s : System F B) (wd : World) (closed : chan -> bool) :
  (System_check s = None <-> Forall bound (blocks s))
  /\ (forall i d k, System_check s = Some (not_connected i d k) ->
        exists b, blocks s !! i = Some b /\ ports d b !! k = Some None)
  /\ (forall e, System_check s = Some e ->
        System_Start s = MReturn (Some e)
        /\ c_workers (start_config s wd) = []
        /\ c_world (start_config s wd) = wd
        /\ c_sys (start_config s wd) = s
        /\ stuck closed (start_config s wd)).
Proof.
  split; [apply check_blocks_None|]. split.
  - intros i d k (j & b & -> & Hj & Hk & _)%check_blocks_Some. eauto.
  - intros e He. unfold System_Start. rewrite He.
    repeat split. intros ch.
    unfold exec. rewrite crashed_start.
    unfold start_config, System_Start. rewrite He.
    by destruct ch.
Qed.

End Check.

(** ** Building the graph ([Add], [AddIC], [Connect]) *)

Section Build.
Context {F : Type} `{Num F} {World : Type} {B : Type} `{Block F World B}.
Implicit Types (st : Store F B) (s : System F B).

Lemma index_Some {A} (l : list A) i x :
  index l i = Some x <-> 0 <= i /\ l !! Z.to_nat i = Some x.
Proof.
  unfold index. destruct (Z.leb_spec 0 i); split; try done.
  - by intros [_ ?].
  - intros [? _]. lia.
Qed.

Lemma index_None {A} (l : list A) i :
  index l i = None <-> ~ in_range l i.
Proof.
  unfold index, in_range. destruct (Z.leb_spec 0 i).
  - rewrite lookup_ge_None. lia.
  - split; [lia | done].
Qed.

Lemma set_index_Some {A} (l : list A) i v :
  in_range l i -> set_index l i v = Some (<[Z.to_nat i := v]> l).
Proof.
  unfold in_range, set_index. intros [? ?].
  destruct (Z.leb_spec 0 i); [|lia].
  destruct (Z.ltb_spec i (Z.of_nat (length l))); [done | lia].
Qed.

Lemma set_index_None {A} (l : list A) i v :
  ~ in_range l i -> set_index l i v = None.
Proof.
  unfold in_range, set_index. intros ?.
  destruct (Z.leb_spec 0 i); [|done].
  destruct (Z.ltb_spec i (Z.of_nat (length l))); [lia | done].
Qed.

Lemma in_range_lt {A} (l : list A) i :
  in_range l i -> (Z.to_nat i < length l)%nat.
Proof. unfold in_range. lia. Qed.

Lemma assign_dst_valid st dst i c :
  valid_dst (sys st) dst i = true ->
  exists s', assign_dst dst i c st = Ok tt {| sys := s'; next_chan := next_chan st |}
    /\ read s' (dst_slot dst i) = Some (Some c)
    /\ (forall sl, sl <> dst_slot dst i -> read s' sl = read (sys st) sl)
    /\ b_Block <$> blocks s' = b_Block <$> blocks (sys st)
    /\ initials s' = initials (sys st)
    /\ initialized s' = initialized (sys st)
    /\ (forall src o, valid_src s' src o = valid_src (sys st) src o).
Proof.
  unfold valid_dst, assign_dst, dst_slot. destruct st as [s n]; simpl.
  destruct (i <? 0) eqn:Hi.
  - intros Hr%bool_decide_eq_true.
    unfold set_s_Out, mbind, M_bind, bind, get_sys; simpl.
    rewrite (set_index_Some _ _ _ Hr); simpl.
    eexists; split; [reflexivity|]; simpl.
    split; [apply list_lookup_insert_eq; by apply in_range_lt|].
    split; [|done].
    intros [] Hne; simpl; try done.
    apply list_lookup_insert_ne. congruence.
  - destruct (index (blocks s) dst) as [b|] eqn:Hb; [|done].
    intros Hr%bool_decide_eq_true.
    unfold set_block_In, mbind, M_bind, bind, get_sys; simpl.
    rewrite Hb; simpl. rewrite (set_index_Some _ _ _ Hr); simpl.
    apply index_Some in Hb as [Hdst Hb].
    pose proof (lookup_lt_Some _ _ _ Hb) as Hlt.
    eexists; split; [reflexivity|]; simpl.
    split.
    { rewrite list_lookup_insert_eq by done. simpl.
      apply list_lookup_insert_eq. by apply in_range_lt. }
    split.
    { intros [k p|k p|p|p] Hne; simpl; try done.
      - destruct (decide (k = Z.to_nat dst)) as [->|Hk].
        + rewrite list_lookup_insert_eq by done. rewrite Hb. simpl.
          apply list_lookup_insert_ne. congruence.
        + by rewrite list_lookup_insert_ne.
      - destruct (decide (k = Z.to_nat dst)) as [->|Hk].
        + rewrite list_lookup_insert_eq by done. by rewrite Hb.
        + by rewrite list_lookup_insert_ne. }
    split.
    { rewrite list_fmap_insert. simpl. apply list_insert_id.
      by rewrite list_lookup_fmap, Hb. }
    repeat split.
    intros src o. unfold valid_src. simpl.
    destruct (o <? 0); [done|].
    unfold index. destruct (0 <=? src); [|done].
    destruct (decide (Z.to_nat src = Z.to_nat dst)) as [->|Hk].
    + rewrite list_lookup_insert_eq by done. by rewrite Hb.
    + by rewrite list_lookup_insert_ne.
Qed.

Lemma assign_src_valid st src o c :
  valid_src (sys st) src o = true ->
  exists s', assign_src src o c st = Ok tt {| sys := s'; next_chan := next_chan st |}
    /\ read s' (src_slot src o) = Some (Some c)
    /\ (forall sl, sl <> src_slot src o -> read s' sl = read (sys st) sl)
    /\ b_Block <$> blocks s' = b_Block <$> blocks (sys st)
    /\ initials s' = initials (sys st)
    /\ initialized s' = initialized (sys st).
Proof.
  unfold valid_src, assign_src, src_slot. destruct st as [s n]; simpl.
  destruct (o <? 0) eqn:Ho.
  - intros Hr%bool_decide_eq_true.
    unfold set_s_In, mbind, M_bind, bind, get_sys; simpl.
    rewrite (set_index_Some _ _ _ Hr); simpl.
    eexists; split; [reflexivity|]; simpl.
    split; [apply list_lookup_insert_eq; by apply in_range_lt|].
    split; [|done].
    intros [] Hne; simpl; try done.
    apply list_lookup_insert_ne. congruence.
  - destruct (index (blocks s) src) as [b|] eqn:Hb; [|done].
    intros Hr%bool_decide_eq_true.
    unfold set_block_Out, mbind, M_bind, bind, get_sys; simpl.
    rewrite Hb; simpl. rewrite (set_index_Some _ _ _ Hr); simpl.
    apply index_Some in Hb as [Hdst Hb].
    pose proof (lookup_lt_Some _ _ _ Hb) as Hlt.
    eexists; split; [reflexivity|]; simpl.
    split.
    { rewrite list_lookup_insert_eq by done. simpl.
      apply list_lookup_insert_eq. by apply in_range_lt. }
    split.
    { intros [k p|k p|p|p] Hne; simpl; try done.
      - destruct (decide (k = Z.to_nat src)) as [->|Hk].
        + rewrite list_lookup_insert_eq by done. by rewrite Hb.
        + by rewrite list_lookup_insert_ne.
      - destruct (decide (k = Z.to_nat src)) as [->|Hk].
        + rewrite list_lookup_insert_eq by done. rewrite Hb. simpl.
          apply list_lookup_insert_ne. congruence.
        + by rewrite list_lookup_insert_ne. }
    split; [|done].
    rewrite list_fmap_insert. simpl. apply list_insert_id.
    by rewrite list_lookup_fmap, Hb.
Qed.

Lemma assign_dst_invalid st dst i c :
  valid_dst (sys st) dst i = false -> assign_dst dst i c st = Panic st.
Proof.
  unfold valid_dst, assign_dst. destruct st as [s n]; simpl.
  destruct (i <? 0).
  - intros Hr%bool_decide_eq_false.
    unfold set_s_Out, mbind, M_bind, bind, get_sys; simpl.
    by rewrite (set_index_None _ _ _ Hr).
  - unfold set_block_In, mbind, M_bind, bind, get_sys; simpl.
    destruct (index (blocks s) dst) as [b|]; [|done].
    intros Hr%bool_decide_eq_false. simpl.
    by rewrite (set_index_None _ _ _ Hr).
Qed.

Lemma assign_src_invalid st src o c :
  valid_src (sys st) src o = false -> assign_src src o c st = Panic st.
Proof.
  unfold valid_src, assign_src. destruct st as [s n]; simpl.
  destruct (o <? 0).
  - intros Hr%bool_decide_eq_false.
    unfold set_s_In, mbind, M_bind, bind, get_sys; simpl.
    by rewrite (set_index_None _ _ _ Hr).
  - unfold set_block_Out, mbind, M_bind, bind, get_sys; simpl.
    destruct (index (blocks s) src) as [b|]; [|done].
    intros Hr%bool_decide_eq_false. simpl.
    by rewrite (set_index_None _ _ _ Hr).
Qed.

Lemma Connect_unfold src dst o i st :
  System_Connect src dst o i st =
  match assign_dst dst i (next_chan st)
          {| sys := sys st; next_chan := S (next_chan st) |} with
  | Ok _ st' => assign_src src o (next_chan st) st'
  | Panic st' => Panic st'
  end.
Proof. reflexivity. Qed.

Lemma allocated_weaken (st : Store F B) s' n' :
  allocated st -> (next_chan st < n')%nat ->
  (forall sl c, read s' sl = Some (Some c) ->
     read (sys st) sl = Some (Some c) \/ c = next_chan st) ->
  allocated {| sys := s'; next_chan := n' |}.
Proof.
  intros Ha Hn Hs sl c Hc. simpl in *.
  destruct (Hs sl c Hc) as [Hold| ->]; [|done].
  specialize (Ha sl c Hold). lia.
Qed.

(** C7.  With indices in range, [Connect(src, dst, o, i)] takes one
    channel from the allocator, a channel no slot of the system holds,
    and stores it in the destination slot ([blocks[dst].In[i]], or
    [Out[-i-1]] of the system itself when [i] is negative) and in the
    source slot ([blocks[src].Out[o]], or [In[-o-1]] of the system when
    [o] is negative), whatever the two slots held before.  Every other
    slot, the blocks, the initial conditions and the [initialized] flag
    are as before. *)
Theorem Connect_binds_one_fresh_edge (st : Store F B) (src dst o i : Z) :
  valid_dst (sys st) dst i = true ->
  valid_src (sys st) src o = true ->
  exists st',
    System_Connect src dst o i st = Ok tt st'
    /\ next_chan st' = S (next_chan st)
    /\ (allocated st ->
          forall sl, read (sys st) sl <> Some (Some (next_chan st)))
    /\ read (sys st') (dst_slot dst i) = Some (Some (next_chan st))
    /\ read (sys st') (src_slot src o) = Some (Some (next_chan st))
    /\ (forall sl, sl <> dst_slot dst i -> sl <> src_slot src o ->
          read (sys st') sl = read (sys st) sl)
    /\ b_Block <$> blocks (sys st') = b_Block <$> blocks (sys st)
    /\ initials (sys st') = initials (sys st)
    /\ initialized (sys st') = initialized (sys st)
    /\ (allocated st -> allocated st').
Proof.
  intros Hd Hs. rewrite Connect_unfold.
  destruct (assign_dst_valid
              {| sys := sys st; next_chan := S (next_chan st) |}
              dst i (next_chan st) Hd)
    as (s1 & -> & Hrd & Hod & Hb1 & Hi1 & Hf1 & Hv); simpl in *.
  rewrite <- Hv in Hs.
  destruct (assign_src_valid
              {| sys := s1; next_chan := S (next_chan st) |}
              src o (next_chan st) Hs)
    as (s2 & -> & Hrs & Hos & Hb2 & Hi2 & Hf2); simpl in *.
  assert (Hne : dst_slot dst i <> src_slot src o).
  { unfold dst_slot, src_slot. by destruct (i <? 0), (o <? 0). }
  eexists; split; [reflexivity|]; simpl.
  split; [done|]. split.
  { intros Ha sl Hsl. specialize (Ha sl _ Hsl). lia. }
  split; [by rewrite Hos, Hrd|]. split; [done|]. split.
  { intros sl H1 H2. by rewrite Hos, Hod. }
  split; [congruence|]. split; [congruence|]. split; [congruence|].
  intros Ha. apply (allocated_weaken st); [done | simpl; lia |].
  intros sl c Hc.
  destruct (decide (sl = src_slot src o)) as [->|H2]; [right; congruence|].
  rewrite Hos in Hc by done.
  destruct (decide (sl = dst_slot dst i)) as [->|H1]; [right; congruence|].
  rewrite Hod in Hc by done. by left.
Qed.

(** C9.  [Add(b)] appends one entry to the block list and changes
    nothing else.  The entry holds [b], [b.Inputs()] input ports and
    [b.Outputs()] output ports, all nil.  So a block with a port fails
    validation right after [Add], and any system fails it whose entry
    at that index still has a nil port. *)
Theorem Add_appends_unbound_block (st : Store F B) (b : B) :
  System_Add b st =
    Ok tt {| sys := {| s_In := s_In (sys st); s_Out := s_Out (sys st);
                       blocks := blocks (sys st) ++ [fresh_ioBlock b];
                       initials := initials (sys st);
                       initialized := initialized (sys st) |};
             next_chan := next_chan st |}
  /\ b_Block (fresh_ioBlock b) = b
  /\ length (b_In (fresh_ioBlock b)) = Inputs b
  /\ length (b_Out (fresh_ioBlock b)) = Outputs b
  /\ Forall (fun c => c = None) (b_In (fresh_ioBlock b))
  /\ Forall (fun c => c = None) (b_Out (fresh_ioBlock b))
  /\ ((0 < Inputs b + Outputs b)%nat ->
       forall s' : System F B,
         blocks s' = blocks (sys st) ++ [fresh_ioBlock b] ->
                  System_check s' <> None)
  /\ (forall (s' : System F B) io,
        blocks s' !! length (blocks (sys st)) = Some io ->
        ~ bound io -> System_check s' <> None).
Proof.
  split; [reflexivity|]. split; [reflexivity|].
  unfold fresh_ioBlock; simpl.
  split; [apply length_replicate|]. split; [apply length_replicate|].
  split; [apply Forall_replicate; done|].
  split; [apply Forall_replicate; done|].
  assert (Hgen : forall (s' : System F B) io k,
             blocks s' !! k = Some io -> ~ bound io ->
             System_check s' <> None).
  { intros s' io k Hk Hnb Hc. apply check_blocks_None in Hc.
    apply Hnb. eapply Forall_lookup_1; eauto. }
  split; [|intros s' io; apply Hgen].
  intros Hpos s' Hs'.
  apply (Hgen s' (fresh_ioBlock b) (length (blocks (sys st)))).
  { rewrite Hs'. apply list_lookup_middle. done. }
  unfold bound, fresh_ioBlock; simpl. intros [Hi Ho].
  destruct (Inputs b) eqn:Hn.
  - destruct (Outputs b) eqn:Hm; [lia|].
    simpl in Ho. inversion Ho as [|? ? [? ?]]. done.
  - simpl in Hi. inversion Hi as [|? ? [? ?]]. done.
Qed.

Lemma ic_target_None (s : System F B) (ic : IC F) :
  ic_target s ic = None <-> ~ ic_in_range s ic.
Proof.
  unfold ic_target, ic_in_range.
  destruct (index (blocks s) (block ic)) as [b|] eqn:Hb; simpl.
  - rewrite index_None. split.
    + intros Hn (b' & [= <-] & Hr). done.
    + intros Hn Hr. apply Hn. eauto.
  - split; [|done]. intros _ (b' & ? & _). done.
Qed.

Lemma ic_target_Some (s : System F B) (ic : IC F) :
  ic_in_range s ic -> is_Some (ic_target s ic).
Proof.
  intros Hr. destruct (ic_target s ic) eqn:Ht; [by eexists|].
  by apply ic_target_None in Ht.
Qed.

(** C10 (amended).  There is no range check anywhere.  [Connect] panics
    exactly when one of its two index expressions is out of range: a
    port index that is not negative with a block index outside the block
    list or a port index at or past the arity of that block, or a
    negative port index [p] with [-p-1] outside the boundary array (the
    block index then plays no part).  [AddIC] records whatever it is
    given.  [Start] panics when it comes to a recorded initial condition
    whose block index is outside the block list or whose input index is
    outside that block's input ports. *)
Theorem indices_are_not_checked :
  (forall (st : Store F B) src dst o i,
      (exists st', System_Connect src dst o i st = Panic st')
      <-> valid_dst (sys st) dst i && valid_src (sys st) src o = false)
  /\ (forall (st : Store F B) x dst i,
        System_AddIC x dst i st =
          Ok tt {| sys := {| s_In := s_In (sys st); s_Out := s_Out (sys st);
                             blocks := blocks (sys st);
                             initials := initials (sys st) ++
                               [{| value := x; block := dst; input := i |}];
                             initialized := initialized (sys st) |};
                   next_chan := next_chan st |})
  /\ (forall (s : System F B) j ic ws fuel,
        initials s !! j = Some ic ->
        ~ ic_in_range s ic ->
        m_op s (MSendIC j) = op_local
        /\ m_drive (S fuel) s (MSendIC j) ws = ([], MPanic, ws)).
Proof.
  split; [|split].
  - intros st src dst o i. rewrite Connect_unfold.
    destruct (valid_dst (sys st) dst i) eqn:Hd; simpl.
    + destruct (assign_dst_valid
                  {| sys := sys st; next_chan := S (next_chan st) |}
                  dst i (next_chan st) Hd)
        as (s1 & -> & _ & _ & _ & _ & _ & Hv); simpl in *.
      rewrite <- Hv.
      destruct (valid_src s1 src o) eqn:Hs.
      * destruct (assign_src_valid
                    {| sys := s1; next_chan := S (next_chan st) |}
                    src o (next_chan st) Hs) as (s2 & -> & _).
        split; [intros [? ?]; done | done].
      * rewrite assign_src_invalid by done. split; [done | eauto].
    + rewrite assign_dst_invalid by done. split; [done | eauto].
  - reflexivity.
  - intros s j ic ws fuel Hj Hr%ic_target_None.
    assert (Hop : m_op s (MSendIC j) = op_local).
    { simpl. by rewrite Hj, Hr. }
    split; [done|].
    cbn [m_drive]. rewrite Hop. cbn [m_local m_label]. rewrite Hj, Hr.
    destruct fuel; reflexivity.
Qed.

End Build.

(** ** One iteration of a worker *)

Section WorkerCycle.
Context {F : Type} `{Num F} {World : Type} {B : Type} `{Block F World B}.
Implicit Types (vs x y : list F) (v : F) (ins outs : list port).

Lemma w_drive_local fuel env (w : worker F B) wd :
  w_op w = op_local ->
  w_drive (S fuel) env w wd =
    let '(ls, w', wd') :=
      w_drive fuel env (w_local w wd).1 (w_local w wd).2 in
    (w_label_local w ++ ls, w', wd').
Proof.
  intros Hop. cbn [w_drive]. rewrite Hop. by destruct (w_local w wd).
Qed.

Lemma w_drive_exit fuel env (w : worker F B) wd :
  w_pc w = WExit -> w_drive fuel env w wd = ([], w, wd).
Proof.
  intros Hpc. destruct fuel; [done|]. cbn [w_drive].
  unfold w_op. by rewrite Hpc.
Qed.

(** The range over [in], from port [i] on: [vs] arrive. *)
Lemma w_drive_recvs fuel env vs ins outs b x y cyc wd i :
  (i + length vs <= length ins)%nat ->
  length x = length ins ->
  w_drive (length vs + fuel) (delivered vs ++ env)
    {| w_in := ins; w_out := outs; w_b := b; w_x := x; w_y := y;
       w_pc := WRecv i; w_cycles := cyc |} wd =
  let '(ls, w', wd') :=
    w_drive fuel env
      {| w_in := ins; w_out := outs; w_b := b;
         w_x := take i x ++ vs ++ drop (i + length vs) x; w_y := y;
         w_pc := WRecv (i + length vs); w_cycles := cyc |} wd in
  (zip_with (fun c v => l_recv c v true) (drop i ins) vs ++ ls, w', wd').
Proof.
  revert i x. induction vs as [|v vs IH]; intros i x Hi Hx.
  - simpl. rewrite Nat.add_0_r, take_drop.
    rewrite zip_with_nil_r.
    by destruct (w_drive fuel env _ wd) as [[? ?] ?].
  - simpl length in *.
    destruct (lookup_lt_is_Some_2 ins i ltac:(lia)) as [c Hc].
    change (S (length vs) + fuel)%nat with (S (length vs + fuel)).
    cbn [w_drive w_op w_pc w_in]. rewrite Hc.
    cbn [delivered fmap list_fmap app].
    unfold w_received; cbn [w_pc w_in w_out w_b w_x w_y w_cycles].
    fold (delivered vs).
    rewrite (IH (S i)); [| lia | by rewrite length_insert].
    rewrite (drop_S _ _ _ Hc). cbn [zip_with].
    replace (S i + length vs)%nat with (i + S (length vs))%nat by lia.
    replace (take (S i) (<[i:=v]> x) ++ vs ++
             drop (i + S (length vs)) (<[i:=v]> x))
      with (take i x ++ (v :: vs) ++ drop (i + S (length vs)) x).
    { by destruct (w_drive fuel env _ wd) as [[? ?] ?]. }
    rewrite drop_insert_lt by lia.
    destruct (lookup_lt_is_Some_2 x i ltac:(lia)) as [xi Hxi].
    rewrite (take_S_r _ _ v) by (apply list_lookup_insert_eq; lia).
    rewrite take_insert_ge by lia.
    by rewrite <- app_assoc.
Qed.

(** The range over [out], from port [i] on. *)
Lemma w_drive_sends fuel env rest ins outs b x y cyc wd i :
  drop i outs = rest ->
  length y = length outs ->
  w_drive (length rest + S fuel) env
    {| w_in := ins; w_out := outs; w_b := b; w_x := x; w_y := y;
       w_pc := WSend i; w_cycles := cyc |} wd =
  let '(ls, w', wd') :=
    w_drive fuel env
      {| w_in := ins; w_out := outs; w_b := b; w_x := x; w_y := y;
         w_pc := WRecv 0; w_cycles := S cyc |} wd in
  (zip_with l_send rest (drop i y) ++ ls, w', wd').
Proof.
  revert i. induction rest as [|c rest IH]; intros i Hdrop Hy.
  - assert (Hi : outs !! i = None).
    { apply lookup_ge_None. apply drop_nil_inv in Hdrop. lia. }
    change (length [] + S fuel)%nat with (S fuel).
    rewrite w_drive_local by (unfold w_op; simpl; by rewrite Hi).
    unfold w_local, w_label_local; simpl.
    by destruct (w_drive fuel env _ wd) as [[? ?] ?].
  - assert (Hi : outs !! i = Some c).
    { rewrite <- (Nat.add_0_r i), <- lookup_drop, Hdrop. done. }
    destruct (lookup_lt_is_Some_2 y i) as [v Hv].
    { rewrite Hy. by eapply lookup_lt_Some. }
    change (length (c :: rest) + S fuel)%nat
      with (S (length rest + S fuel)).
    cbn [w_drive w_op w_pc w_out w_y]. rewrite Hi, Hv.
    unfold w_sent, set_pc; cbn [w_pc w_in w_out w_b w_x w_y w_cycles].
    rewrite (IH (S i));
      [|by rewrite (drop_S _ _ _ Hi) in Hdrop; injection Hdrop | done].
    rewrite (drop_S _ _ _ Hv). simpl.
    by destruct (w_drive fuel env _ wd) as [[? ?] ?].
Qed.

Lemma recv_labels_delivered ins vs :
  recv_labels ins (delivered vs) =
  zip_with (fun c v => l_recv c v true) ins vs.
Proof.
  unfold recv_labels, delivered. revert ins.
  induction vs as [|v vs IH]; intros [|c ins]; simpl; f_equal; auto.
Qed.

Lemma recv_labels_closed ins vs v c :
  ins !! length vs = Some c ->
  recv_labels ins (delivered vs ++ [(v, false)]) =
  zip_with (fun c v => l_recv c v true) ins vs ++ [l_recv c v false].
Proof.
  unfold recv_labels, delivered. revert ins.
  induction vs as [|v0 vs IH]; intros [|c0 ins]; simpl; try done.
  - intros [= ->]. by destruct ins.
  - intros Hc. f_equal. by apply IH.
Qed.

Lemma w_drive_head fuel env vs ins outs b x y cyc wd :
  length vs = length ins ->
  length x = length ins ->
  w_drive (length ins + S fuel) (delivered vs ++ env)
    {| w_in := ins; w_out := outs; w_b := b; w_x := x; w_y := y;
       w_pc := WRecv 0; w_cycles := cyc |} wd =
  let '(ls, w', wd') :=
    w_drive fuel env
      {| w_in := ins; w_out := outs; w_b := b; w_x := vs; w_y := y;
         w_pc := WCall; w_cycles := cyc |} wd in
  (recv_labels ins (delivered vs) ++ ls, w', wd').
Proof.
  intros Hvs Hx. rewrite <- Hvs at 1.
  rewrite (w_drive_recvs (S fuel) env vs ins outs b x y cyc wd 0)
    by (simpl; lia).
  rewrite recv_labels_delivered.
  change (0 + length vs)%nat with (length vs).
  change (take 0 x) with (@nil F). rewrite app_nil_l.
  change (drop 0 ins) with ins.
  rewrite Hvs, <- Hx, drop_all, app_nil_r.
  rewrite w_drive_local
    by (unfold w_op; simpl; rewrite lookup_ge_None_2; [done | lia]).
  unfold w_local, w_label_local, set_pc; simpl.
  by destruct (w_drive fuel env _ wd) as [[? ?] ?].
Qed.


End WorkerCycle.

(** ** The running program: what every execution keeps *)

Section Running.
Context {F : Type} `{Num F} {World : Type} {B : Type} `{Block F World B}.
Variable closed : chan -> bool.

Implicit Types (c : config F World B) (w : worker F B) (s : System F B).
Implicit Types (wd : World).

Lemma w_received_ports w v ok :
  w_in (w_received w v ok) = w_in w /\ w_out (w_received w v ok) = w_out w.
Proof. unfold w_received. by destruct (w_pc w). Qed.

Lemma w_sent_ports w :
  w_in (w_sent w) = w_in w /\ w_out (w_sent w) = w_out w.
Proof. unfold w_sent. by destruct (w_pc w). Qed.

Lemma w_local_ports w wd :
  w_in (w_local w wd).1 = w_in w /\ w_out (w_local w wd).1 = w_out w.
Proof.
  unfold w_local. destruct (w_pc w); try done.
  by destruct (Step _ _ _ _) as [[[[? ?] ?] ?]|].
Qed.

Lemma exec_sys ch c c' : exec closed ch c = Some c' -> c_sys c' = c_sys c.
Proof. intros Hex. exec_inv Hex; reflexivity. Qed.

Lemma run_sys sched c c' : run closed sched c = Some c' -> c_sys c' = c_sys c.
Proof.
  revert c. induction sched as [|ch sched IH]; intros c; simpl.
  - by intros [= ->].
  - destruct (exec closed ch c) as [c1|] eqn:Hex; [|done]. simpl.
    intros Hrun. rewrite (IH _ Hrun). by eapply exec_sys.
Qed.

Lemma workers_of_insert s ws k w w' :
  workers_of s ws -> ws !! k = Some w ->
  w_in w' = w_in w -> w_out w' = w_out w ->
  workers_of s (<[k := w']> ws).
Proof.
  unfold workers_of. intros Hws Hk Hi Ho. rewrite length_insert.
  apply Forall2_lookup. intros j.
  destruct (decide (j = k)) as [->|Hne].
  - rewrite list_lookup_insert_eq by (by eapply lookup_lt_Some).
    pose proof (Forall2_lookup_l _ _ _ _ _ Hws Hk) as (io & -> & ? & ?).
    constructor. split; congruence.
  - rewrite list_lookup_insert_ne by done.
    by apply Forall2_lookup.
Qed.

Lemma workers_of_snoc s ws io :
  workers_of s ws -> blocks s !! length ws = Some io ->
  workers_of s (ws ++ [spawn io]).
Proof.
  unfold workers_of. intros Hws Hio.
  rewrite length_app. simpl. rewrite Nat.add_1_r.
  rewrite (take_S_r _ _ _ Hio).
  apply Forall2_app; [done|]. by repeat constructor.
Qed.

Lemma spawned_start s wd : spawned s (start_config s wd).
Proof.
  unfold spawned, start_config, System_Start; simpl.
  split; [done|]. split; [|constructor].
  destruct (System_check s); simpl; [done | lia].
Qed.

Lemma spawned_exec s ch c c' :
  spawned s c -> exec closed ch c = Some c' -> spawned s c'.
Proof.
  intros (Hs & Hm & Hws) Hex. unfold spawned.
  rewrite (exec_sys _ _ _ Hex). split; [done|].
  exec_inv Hex; cbn [c_main c_workers with_worker] in *.
  - (* main_local *)
    unfold m_local in Hml. rewrite Hs in *.
    destruct (c_main c) as [i|j| | |]; try discriminate Hmop.
    + destruct Hm as [Hlen Hle].
      destruct (blocks s !! i) as [io|] eqn:Hio; injection Hml as <- <-.
      * pose proof (lookup_lt_Some _ _ _ Hio).
        split; [simpl; rewrite length_app; simpl; lia|].
        apply workers_of_snoc; [done | by rewrite Hlen].
      * apply lookup_ge_None in Hio. split; [simpl; lia | done].
    + simpl in Hm.
      destruct (initials s !! j); injection Hml as <- <-; by split.
  - (* worker_local *)
    pose proof (w_local_ports w (c_world c)) as [Hi Ho].
    rewrite Hwl in Hi, Ho. simpl in Hi, Ho.
    split; [|by eapply workers_of_insert].
    unfold main_ok in *. rewrite length_insert. exact Hm.
  - (* ic_delivered *)
    split; [|eapply workers_of_insert; [done|done|apply w_received_ports..]].
    unfold main_ok in *. rewrite length_insert.
    destruct (c_main c); try discriminate Hmop; simpl; done.
  - (* value_passed *)
    apply andb_true_iff in Hg as [[Hkk _]%andb_true_iff _].
    apply bool_decide_eq_true in Hkk.
    split.
    { unfold main_ok in *. rewrite !length_insert. exact Hm. }
    eapply workers_of_insert; [|by rewrite list_lookup_insert_ne
                               |apply w_received_ports..].
    eapply workers_of_insert; [done|done|apply w_sent_ports..].
  - (* notified *)
    destruct (w_sent_ports w) as [Hi Ho].
    split; [|by eapply workers_of_insert].
    unfold main_ok in *. rewrite length_insert.
    destruct (c_main c); try discriminate Hmop; simpl; done.
  - (* closed_recv *)
    destruct (w_received_ports w nzero false) as [Hi Ho].
    split; [|by eapply workers_of_insert].
    unfold main_ok in *. rewrite length_insert. exact Hm.
  - (* closed_send *)
    split; [|by eapply workers_of_insert].
    unfold main_ok in *. rewrite length_insert. exact Hm.
  - (* closed_send_main *)
    split; [|done].
    destruct (c_main c); try discriminate Hmop; simpl in *; done.
Qed.

Lemma spawned_run s sched c c' :
  spawned s c -> run closed sched c = Some c' -> spawned s c'.
Proof.
  revert c. induction sched as [|ch sched IH]; intros c Hc; simpl.
  - by intros [= <-].
  - destruct (exec closed ch c) as [c1|] eqn:Hex; [|done]. simpl.
    apply IH. by eapply spawned_exec.
Qed.

Lemma w_op_recv w p :
  w_op w = op_recv p -> exists i, w_pc w = WRecv i /\ w_in w !! i = Some p.
Proof.
  unfold w_op. destruct (w_pc w) as [i| | |i| |]; try done.
  - destruct (w_in w !! i) eqn:Hi; [|done]. intros [= ->]. eauto.
  - by destruct (w_out w !! i).
Qed.

Lemma w_op_send w p v :
  w_op w = op_send p v -> exists i, w_pc w = WSend i /\ w_out w !! i = Some p.
Proof.
  unfold w_op. destruct (w_pc w) as [i| | |i| |]; try done.
  - by destruct (w_in w !! i).
  - destruct (w_out w !! i) eqn:Hi; [|done]. intros [= -> _]. eauto.
Qed.

Lemma w_op_at_recv w i :
  w_pc w = WRecv i ->
  match w_in w !! i with
  | Some p => w_op w = op_recv p
  | None => w_op w = op_local
  end.
Proof. unfold w_op. intros ->. by destruct (w_in w !! i). Qed.

Lemma worker_ports (s : System F B) c k w :
  spawned s c -> c_workers c !! k = Some w ->
  exists io, blocks s !! k = Some io
             /\ w_in w = b_In io /\ w_out w = b_Out io.
Proof.
  intros (_ & _ & Hws) Hk.
  destruct (Forall2_lookup_l _ _ _ _ _ Hws Hk) as (io & Hio & ? & ?).
  apply lookup_take_Some in Hio as [Hio _]. eauto.
Qed.

End Running.

(** ** [Start] on the caller's goroutine *)

Section StartOrder.
Context {F : Type} `{Num F} {World : Type} {B : Type} `{Block F World B}.

Lemma m_drive_returned fuel (s : System F B) e ws :
  m_drive fuel s (MReturn e) ws = ([], MReturn e, ws).
Proof. by destruct fuel. Qed.

Lemma m_drive_wait fuel (s : System F B) ws :
  m_drive (S fuel) s MWait ws = ([l_wait], MReturn None, ws).
Proof. cbn [m_drive m_op m_received m_label]. by rewrite m_drive_returned. Qed.

Lemma m_drive_local fuel (s : System F B) pc ws :
  m_op s pc = op_local ->
  m_drive (S fuel) s pc ws =
    let '(ls, pc', ws') :=
      m_drive fuel s (m_local s pc ws).1 (m_local s pc ws).2 in
    (m_label s pc ++ ls, pc', ws').
Proof.
  intros Hop. cbn [m_drive]. rewrite Hop.
  by destruct (m_local s pc ws).
Qed.

Lemma m_drive_send fuel (s : System F B) pc ws c v :
  m_op s pc = op_send c v ->
  m_drive (S fuel) s pc ws =
    let '(ls, pc', ws') := m_drive fuel s (m_sent pc) ws in
    (m_label s pc ++ ls, pc', ws').
Proof. intros Hop. cbn [m_drive]. by rewrite Hop. Qed.

(** The range over [s.initials], from the [j]-th on, when the targets
    exist. *)
Lemma m_drive_ics (s : System F B) ws fuel rest j :
  drop j (initials s) = rest ->
  Forall (ic_in_range s) rest ->
  m_drive (length rest + S (S fuel)) s (MSendIC j) ws =
    ((ic_label s <$> rest) ++ [l_wait], MReturn None, ws).
Proof.
  revert j. induction rest as [|ic rest IH]; intros j Hdrop Hr.
  - assert (Hj : initials s !! j = None).
    { apply lookup_ge_None. apply drop_nil_inv in Hdrop. lia. }
    change (length [] + S (S fuel))%nat with (S (S fuel)).
    rewrite m_drive_local by (cbn [m_op]; by rewrite Hj).
    cbn [m_local m_label]. rewrite Hj. cbn [fst snd].
    by rewrite m_drive_wait.
  - assert (Hj : initials s !! j = Some ic).
    { rewrite <- (Nat.add_0_r j), <- lookup_drop, Hdrop. done. }
    inversion Hr as [|? ? Hic Hrest]; subst.
    destruct (ic_target_Some s ic Hic) as [c Hc].
    change (length (ic :: rest) + S (S fuel))%nat
      with (S (length rest + S (S fuel))).
    assert (Hop : m_op s (MSendIC j) = op_send c (value ic)).
    { cbn [m_op]. rewrite Hj. by rewrite Hc. }
    rewrite (m_drive_send _ _ _ _ c (value ic) Hop).
    cbn [m_sent m_label]. rewrite Hj. cbv beta iota. rewrite Hc.
    rewrite (IH (S j));
      [|by rewrite (drop_S _ _ _ Hj) in Hdrop; injection Hdrop | done].
    rewrite fmap_cons. unfold ic_label at 2, ic_edge. by rewrite Hc.
Qed.

(** The range over [s.blocks], from the [i]-th on. *)
Lemma m_drive_spawns (s : System F B) ws fuel rest i :
  drop i (blocks s) = rest ->
  m_drive (length rest + S fuel) s (MSpawn i) ws =
    let '(ls, pc, ws') := m_drive fuel s (MSendIC 0) (ws ++ (spawn <$> rest)) in
    ((l_go <$> rest) ++ ls, pc, ws').
Proof.
  revert i ws. induction rest as [|io rest IH]; intros i ws Hdrop.
  - assert (Hi : blocks s !! i = None).
    { apply lookup_ge_None. apply drop_nil_inv in Hdrop. lia. }
    change (length [] + S fuel)%nat with (S fuel).
    rewrite m_drive_local by done.
    simpl m_local. simpl m_label. rewrite Hi. simpl fst; simpl snd.
    simpl. by rewrite app_nil_r.
  - assert (Hi : blocks s !! i = Some io).
    { rewrite <- (Nat.add_0_r i), <- lookup_drop, Hdrop. done. }
    change (length (io :: rest) + S fuel)%nat
      with (S (length rest + S fuel)).
    rewrite m_drive_local by done.
    simpl m_local. simpl m_label. rewrite Hi. simpl fst; simpl snd.
    rewrite (IH (S i));
      [|by rewrite (drop_S _ _ _ Hi) in Hdrop; injection Hdrop].
    rewrite <- app_assoc. simpl.
    by destruct (m_drive fuel s (MSendIC 0) _) as [[? ?] ?].
Qed.

(** C2 (amended).  When validation succeeds and every recorded initial
    condition names an input port that exists, [Start] runs, in this
    order: one [go] statement per registered block, in the order of the
    block list; then one send per recorded initial condition, in the
    order recorded, each on the edge bound to its target port; then one
    receive on [done]; and then it returns nil.  In the running program,
    whenever [Start] stands at the send of an initial condition every
    block has its worker, and [Start] leaves the receive on [done] only
    together with a worker that sends on [done]. *)
Theorem Start_phases (s : System F B) :
  System_check s = None ->
  Forall (ic_in_range s) (initials s) ->
  (forall fuel,
      m_drive (length (blocks s) + length (initials s) + 3 + fuel) s
              (System_Start s) [] =
        ((l_go <$> blocks s) ++ (ic_label s <$> initials s) ++ [l_wait],
         MReturn None,
         spawn <$> blocks s))
  /\ Forall (fun ic => exists c, ic_edge s ic = Some c) (initials s)
  /\ (forall closed (wd : World) sched c j,
        run closed sched (start_config s wd) = Some c ->
        c_main c = MSendIC j ->
        Forall2 (fun w io => w_in w = b_In io /\ w_out w = b_Out io)
                (c_workers c) (blocks s))
  /\ (forall closed (c c' : config F World B) ch,
        c_sys c = s -> c_main c = MWait ->
        exec closed ch c = Some c' ->
        c_main c' = MWait
        \/ exists k w, ch = notified k /\ c_workers c !! k = Some w
                       /\ w_pc w = WNotify /\ c_main c' = MReturn None).
Proof.
  intros Hc Hr. split; [|split; [|split]].
  - intros fuel. unfold System_Start. rewrite Hc.
    replace (length (blocks s) + length (initials s) + 3 + fuel)%nat
      with (length (blocks s) + S (length (initials s) + S (S fuel)))%nat
      by lia.
    rewrite (m_drive_spawns s [] _ (blocks s) 0) by done.
    rewrite (m_drive_ics s _ fuel (initials s) 0) by done.
    done.
  - apply check_blocks_None in Hc.
    eapply Forall_impl; [exact Hr|]. intros ic (b & Hb & Hi).
    unfold ic_edge, ic_target. rewrite Hb. simpl.
    apply index_Some in Hb as [_ Hb].
    pose proof (Forall_lookup_1 _ _ _ _ Hc Hb) as [Hin _].
    destruct (index (b_In b) (input ic)) as [p|] eqn:Hp.
    + apply index_Some in Hp as [_ Hp].
      destruct (Forall_lookup_1 _ _ _ _ Hin Hp) as [c ->]. by exists c.
    + by apply index_None in Hp.
  - intros closed wd sched c j Hrun Hj.
    destruct (spawned_run closed s sched _ c (spawned_start s wd) Hrun)
      as (_ & Hm & Hws).
    unfold main_ok in Hm. rewrite Hj in Hm.
    unfold workers_of in Hws. by rewrite Hm, take_ge in Hws.
  - intros closed c c' ch Hs Hm Hex.
    exec_inv Hex; cbn [c_main with_worker]; rewrite ?Hm in *;
      try discriminate; try (by left).
    right. exists kx, w. repeat split; try done.
    unfold w_op in Hwop.
    destruct (w_pc w) as [i| | |i| |]; try done.
    + by destruct (w_in w !! i).
    + by destruct (w_out w !! i).
Qed.

End StartOrder.

(** ** A cycle that no initial condition seeds *)

Section Unseeded.
Context {F : Type} `{Num F} {World : Type} {B : Type} `{Block F World B}.
Implicit Types (c : config F World B) (w : worker F B).

Variable s : System F B.
Variable on_cycle : nat -> Prop.
Variable fed_at : nat -> nat.

#[local] Abbreviation unseeded := (unseeded s on_cycle fed_at).
#[local] Abbreviation waiting := (waiting s on_cycle fed_at).

Hypothesis Hun : unseeded.

Lemma waiting_exec ch c c' :
  spawned s c -> waiting c -> exec no_close ch c = Some c' -> waiting c'.
Proof.
  intros Hsp Hw Hex k w' Hon Hk'.
  pose proof Hsp as (Hs & Hm & Hws).
  exec_inv Hex; cbn [c_workers with_worker] in Hk'; try done.
  - (* main_local *)
    unfold m_local in Hml. rewrite Hs in *.
    destruct (c_main c) as [i|j| | |]; try discriminate Hmop.
    + destruct Hm as [Hlen Hle].
      destruct (blocks s !! i) as [io|] eqn:Hio; injection Hml as <- <-;
        [|by apply Hw].
      apply lookup_app_Some in Hk' as [Hk'|[Hge Hk']]; [by apply Hw|].
      apply list_lookup_singleton_Some in Hk' as [Hk0 <-].
      exists 0%nat. simpl. repeat split; [lia|].
      exists io. split; [|done]. rewrite <- Hio. f_equal. lia.
    + destruct (initials s !! j); injection Hml as <- <-; by apply Hw.
  - (* worker_local *)
    destruct (decide (k = kx)) as [->|Hne];
      [|rewrite list_lookup_insert_ne in Hk' by done; by apply Hw].
    exfalso.
    destruct (Hw _ _ Hon Hk) as (i & Hpc & Hi & _).
    destruct (worker_ports _ _ _ _ Hsp Hk) as (io & Hio & Hin & _).
    destruct (Hun _ _ Hon Hio) as (e & He & _).
    pose proof (w_op_at_recv _ _ Hpc) as Hop.
    rewrite Hin in Hop.
    destruct (lookup_lt_is_Some_2 (b_In io) i) as [p Hp].
    { apply lookup_lt_Some in He. eapply Nat.le_lt_trans; [exact Hi | exact He]. }
    rewrite Hp in Hop. congruence.
  - (* ic_delivered *)
    destruct (decide (k = kx)) as [->|Hne];
      [|rewrite list_lookup_insert_ne in Hk' by done; by apply Hw].
    rewrite list_lookup_insert_eq in Hk' by (by eapply lookup_lt_Some).
    injection Hk' as <-.
    destruct (Hw _ _ Hon Hk) as (i & Hpc & Hi & Hcyc & Hb).
    destruct (worker_ports _ _ _ _ Hsp Hk) as (io & Hio & Hin & _).
    destruct (Hun _ _ Hon Hio) as (e & He & _ & Hseed).
    apply w_op_recv in Hwop as (i' & Hpc' & Hi').
    rewrite Hpc in Hpc'. injection Hpc' as <-.
    exists (S i). unfold w_received. rewrite Hpc. simpl.
    repeat split; try done.
    destruct (decide (i = fed_at kx)) as [->|]; [|lia]. exfalso.
    rewrite Hin, He in Hi'. injection Hi' as <-.
    apply andb_true_iff in Hg as [Hg%bool_decide_eq_true _].
    rewrite Hg, Hs in Hmop. unfold m_op in Hmop.
    destruct (c_main c) as [|j| | |]; try done.
    destruct (initials s !! j) as [ic|] eqn:Hj; [|done].
    destruct (ic_target s ic) as [p|] eqn:Ht; [|done].
    injection Hmop as -> _.
    eapply Hseed; [|exact Ht]. by eapply list_elem_of_lookup_2.
  - (* value_passed *)
    apply andb_true_iff in Hg as [[Hkk Ha]%andb_true_iff _].
    apply bool_decide_eq_true in Hkk, Ha. rewrite Ha in *. clear Ha.
    assert (Hsender : ~ on_cycle kx).
    { intros Hon0. destruct (Hw _ _ Hon0 Hk) as (i & Hpc & _).
      apply w_op_send in Hwop as (? & ? & _). congruence. }
    destruct (decide (k = ky)) as [->|Hne].
    + rewrite list_lookup_insert_eq in Hk'
        by (rewrite length_insert; by eapply lookup_lt_Some).
      injection Hk' as <-.
      destruct (Hw _ _ Hon Hk0) as (i & Hpc & Hi & Hcyc & Hb).
      destruct (worker_ports _ _ _ _ Hsp Hk0) as (io & Hio & Hin & _).
      destruct (Hun _ _ Hon Hio) as (e & He & Hwr & _).
      apply w_op_recv in Hwop0 as (i' & Hpc' & Hi').
      rewrite Hpc in Hpc'. injection Hpc' as <-.
      exists (S i). unfold w_received. rewrite Hpc. simpl.
      repeat split; try done.
      destruct (decide (i = fed_at ky)) as [->|]; [|lia]. exfalso.
      rewrite Hin, He in Hi'. injection Hi' as <-.
      apply w_op_send in Hwop as (o & _ & Ho).
      destruct (worker_ports _ _ _ _ Hsp Hk) as (io0 & Hio0 & _ & Hout).
      rewrite Hout in Ho. eauto.
    + rewrite list_lookup_insert_ne in Hk' by done.
      destruct (decide (k = kx)) as [->|Hne']; [done|].
      rewrite list_lookup_insert_ne in Hk' by done. by apply Hw.
  - (* notified *)
    destruct (decide (k = kx)) as [->|Hne];
      [|rewrite list_lookup_insert_ne in Hk' by done; by apply Hw].
    exfalso. destruct (Hw _ _ Hon Hk) as (i & Hpc & _).
    unfold w_op in Hwop. rewrite Hpc in Hwop.
    by destruct (w_in w !! i).
Qed.

Lemma waiting_run sched c c' :
  spawned s c -> waiting c -> run no_close sched c = Some c' -> waiting c'.
Proof.
  revert c. induction sched as [|ch sched IH]; intros c Hsp Hw; simpl.
  - by intros [= <-].
  - destruct (exec no_close ch c) as [c1|] eqn:Hex; [|done]. simpl.
    apply IH; [by eapply spawned_exec | by eapply waiting_exec].
Qed.

Lemma unseeded_cycle_waits wd sched c :
  run no_close sched (start_config s wd) = Some c -> waiting c.
Proof.
  apply waiting_run; [apply spawned_start|].
  intros k w _ Hk. done.
Qed.

End Unseeded.

(** ** A cycle of two blocks *)

Section Ring.
Context {F : Type} `{Num F} {World : Type} {B : Type} `{Block F World B}.

Variable P : B -> Prop.
Hypothesis HP : perpetual P.

Variables (sin sout : list port) (init : bool).
Variables (A B' : B) (a b : chan) (v : F).
Hypothesis Hab : a <> b.
Hypothesis HA : P A.
Hypothesis HB : P B'.

Implicit Types (wd : World) (c : config F World B).

#[local] Abbreviation ioA := (ioA A a b).
#[local] Abbreviation ioB := (ioB B' a b).
#[local] Abbreviation ring_system := (ring_system sin sout init A B' a b).
#[local] Abbreviation seed := (seed v).
#[local] Abbreviation good := (good P).
#[local] Abbreviation fresh := (fresh P).
#[local] Abbreviation Inv := (Inv P sin sout init A B' a b v).
#[local] Abbreviation InvU := (InvU sin sout init A B' a b).

Lemma Inv_start seedB wd : Inv seedB (start_config (ring_system [seed seedB]) wd).
Proof. split; [done|]. by destruct seedB; vm_compute. Qed.

Ltac use_step H :=
  match type of H with
  | context [Step ?blk ?x ?y ?wd] =>
      let E := fresh "E" in
      let HP' := fresh "HP'" in
      destruct (HP blk x y wd) as (? & ? & ? & E & HP');
      [done..|]; rewrite E in H; cbn in H;
      apply Step_length in E
  end.

Ltac finish H :=
  first
    [ discriminate H
    | injection H as <-;
      split; [split; [reflexivity|]; cbn; unfold fresh, good; cbn;
              rewrite ?length_insert;
              repeat split; try done; try lia; try congruence
             | unfold progress, pos_w; cbn; lia] ].

Lemma Inv_step seedB ch c c' :
  Inv seedB c -> exec no_close ch c = Some c' ->
  Inv seedB c' /\ (progress c < progress c')%nat.
Proof.
  destruct c as [s m ws wd]. intros [Hs HI]; simpl in Hs; subst s.
  simpl in HI.
  destruct m as [[|[|[|i]]]|[|[|j]]| | |]; try done;
    destruct ws as [|w0 [|w1 [|w2 ws]]]; try done.
  - (* MSpawn 0 *)
    intros Hex. destruct ch; cbn in Hex; lookups Hex; finish Hex.
  - destruct w0 as [i0 o0 b0 x0 y0 pc0 c0].
    destruct HI as ((Hi0 & Ho0 & Hx0 & Hy0 & Hb0) & Hpc0 & Hc0); cbn in *; subst.
    intros Hex. destruct ch; cbn in Hex; lookups Hex; finish Hex.
  - destruct w0 as [i0 o0 b0 x0 y0 pc0 c0], w1 as [i1 o1 b1 x1 y1 pc1 c1].
    destruct HI as (((Hi0 & Ho0 & Hx0 & Hy0 & Hb0) & Hpc0 & Hc0)
                    & ((Hi1 & Ho1 & Hx1 & Hy1 & Hb1) & Hpc1 & Hc1)); cbn in *; subst.
    intros Hex. destruct ch; cbn in Hex; lookups Hex; finish Hex.
  - destruct w0 as [i0 o0 b0 x0 y0 pc0 c0], w1 as [i1 o1 b1 x1 y1 pc1 c1].
    destruct HI as (((Hi0 & Ho0 & Hx0 & Hy0 & Hb0) & Hpc0 & Hc0)
                    & ((Hi1 & Ho1 & Hx1 & Hy1 & Hb1) & Hpc1 & Hc1)); cbn in *; subst.
    intros Hex. destruct seedB;
    destruct ch; cbn in Hex; lookups Hex; norm Hex; try done; try finish Hex.
  - destruct w0 as [i0 o0 b0 x0 y0 pc0 c0], w1 as [i1 o1 b1 x1 y1 pc1 c1].
    destruct HI as ((Hi0 & Ho0 & Hx0 & Hy0 & Hb0)
                    & (Hi1 & Ho1 & Hx1 & Hy1 & Hb1) & Hring); cbn in *; subst.
    intros Hex. destruct seedB;
      destruct pc0 as [[|[|?]]| | |[|[|?]]| |]; try done;
      destruct pc1 as [[|[|?]]| | |[|[|?]]| |]; try done;
      destruct ch; cbn in Hex; lookups Hex; norm Hex;
      try use_step Hex; try done; try finish Hex.
  - destruct w0 as [i0 o0 b0 x0 y0 pc0 c0], w1 as [i1 o1 b1 x1 y1 pc1 c1].
    destruct HI as ((Hi0 & Ho0 & Hx0 & Hy0 & Hb0)
                    & (Hi1 & Ho1 & Hx1 & Hy1 & Hb1) & Hring); cbn in *; subst.
    intros Hex. destruct seedB;
      destruct pc0 as [[|[|?]]| | |[|[|?]]| |]; try done;
      destruct pc1 as [[|[|?]]| | |[|[|?]]| |]; try done;
      destruct ch; cbn in Hex; lookups Hex; norm Hex;
      try use_step Hex; try done; try finish Hex.
Qed.

Ltac step_eqn wd :=
  try match goal with
    | |- context [ {| w_in := _; w_out := _; w_b := ?blk; w_x := ?x;
                      w_y := ?y; w_pc := WCall; w_cycles := _ |} ] =>
        let E := fresh "E" in
        destruct (HP blk x y wd) as (? & ? & ? & E & _); [done..|]
    end.

Ltac take_step ch :=
  eexists ch, _; unfold exec; cbn;
  try change (Z.to_nat 1) with 1%nat;
  try change (Z.to_nat 0) with 0%nat;
  cbn; rewrite ?bool_decide_eq_true_2 by done; cbn;
  try match goal with
    | E : Step _ _ _ _ = _ |- _ => rewrite E
    end;
  reflexivity.

Lemma Inv_not_stuck seedB c :
  Inv seedB c -> exists ch c', exec no_close ch c = Some c'.
Proof.
  destruct c as [s m ws wd]. intros [Hs HI]; simpl in Hs; subst s.
  simpl in HI.
  destruct m as [[|[|[|i]]]|[|[|j]]| | |]; try done;
    destruct ws as [|w0 [|w1 [|w2 ws]]]; try done.
  - take_step main_local.
  - destruct w0 as [i0 o0 b0 x0 y0 pc0 c0].
    destruct HI as ((Hi0 & Ho0 & Hx0 & Hy0 & Hb0) & Hpc0 & Hc0); cbn in *; subst.
    take_step main_local.
  - destruct w0 as [i0 o0 b0 x0 y0 pc0 c0], w1 as [i1 o1 b1 x1 y1 pc1 c1].
    destruct HI as (((Hi0 & Ho0 & Hx0 & Hy0 & Hb0) & Hpc0 & Hc0)
                    & ((Hi1 & Ho1 & Hx1 & Hy1 & Hb1) & Hpc1 & Hc1)); cbn in *; subst.
    take_step main_local.
  - destruct w0 as [i0 o0 b0 x0 y0 pc0 c0], w1 as [i1 o1 b1 x1 y1 pc1 c1].
    destruct HI as (((Hi0 & Ho0 & Hx0 & Hy0 & Hb0) & Hpc0 & Hc0)
                    & ((Hi1 & Ho1 & Hx1 & Hy1 & Hb1) & Hpc1 & Hc1)); cbn in *; subst.
    destruct seedB; [take_step (ic_delivered 1) | take_step (ic_delivered 0)].
  - destruct w0 as [i0 o0 b0 x0 y0 pc0 c0], w1 as [i1 o1 b1 x1 y1 pc1 c1].
    destruct HI as ((Hi0 & Ho0 & Hx0 & Hy0 & Hb0)
                    & (Hi1 & Ho1 & Hx1 & Hy1 & Hb1) & Hring); cbn in *; subst.
    destruct seedB;
      destruct pc0 as [[|[|?]]| | |[|[|?]]| |]; try done;
      destruct pc1 as [[|[|?]]| | |[|[|?]]| |]; try done;
      take_step main_local.
  - destruct w0 as [i0 o0 b0 x0 y0 pc0 c0], w1 as [i1 o1 b1 x1 y1 pc1 c1].
    destruct HI as ((Hi0 & Ho0 & Hx0 & Hy0 & Hb0)
                    & (Hi1 & Ho1 & Hx1 & Hy1 & Hb1) & Hring); cbn in *; subst.
    destruct seedB;
      destruct pc0 as [[|[|?]]| | |[|[|?]]| |]; try done;
      destruct pc1 as [[|[|?]]| | |[|[|?]]| |]; try done;
      step_eqn wd;
      first [ take_step (worker_local 0) | take_step (worker_local 1)
            | take_step (value_passed 0 1) | take_step (value_passed 1 0) ].
Qed.

Lemma Inv_bound seedB c :
  Inv seedB c ->
  ((3 < progress c)%nat -> length (c_workers c) = 2%nat)
  /\ Forall (fun w => (progress c <= 10 * w_cycles w + 18)%nat) (c_workers c).
Proof.
  destruct c as [s m ws wd]. intros [Hs HI]; simpl in Hs; subst s.
  simpl in HI.
  destruct m as [[|[|[|i]]]|[|[|j]]| | |]; try done;
    destruct ws as [|w0 [|w1 [|w2 ws]]]; try done;
    try destruct w0 as [i0 o0 b0 x0 y0 pc0 c0];
    try destruct w1 as [i1 o1 b1 x1 y1 pc1 c1];
    unfold fresh in HI; cbn in HI;
    (split; [unfold progress, pos_w; cbn; try done; destruct_and?; subst; cbn; lia|]).
  - constructor.
  - destruct HI as (_ & -> & ->). fa; unfold progress, pos_w; cbn; lia.
  - destruct HI as ((_ & -> & ->) & (_ & -> & ->)).
    fa; unfold progress, pos_w; cbn; lia.
  - destruct HI as ((_ & -> & ->) & (_ & -> & ->)).
    fa; unfold progress, pos_w; cbn; lia.
  - destruct HI as (_ & _ & Hring).
    destruct seedB;
      destruct pc0 as [[|[|?]]| | |[|[|?]]| |]; try done;
      destruct pc1 as [[|[|?]]| | |[|[|?]]| |]; try done;
      cbn in Hring;
      fa; unfold progress, pos_w; cbn; lia.
  - destruct HI as (_ & _ & Hring).
    destruct seedB;
      destruct pc0 as [[|[|?]]| | |[|[|?]]| |]; try done;
      destruct pc1 as [[|[|?]]| | |[|[|?]]| |]; try done;
      cbn in Hring;
      fa; unfold progress, pos_w; cbn; lia.
Qed.

Lemma Inv_run seedB sched c c' :
  Inv seedB c -> run no_close sched c = Some c' ->
  Inv seedB c' /\ (progress c + length sched <= progress c')%nat.
Proof.
  revert c. induction sched as [|ch sched IH]; intros c Hc; simpl.
  - intros [= <-]. split; [done | lia].
  - destruct (exec no_close ch c) as [c1|] eqn:Hex; [|done]. simpl.
    intros Hrun. destruct (Inv_step _ _ _ _ Hc Hex) as [Hc1 Hlt].
    destruct (IH _ Hc1 Hrun). split; [done | lia].
Qed.

Lemma ring_runs seedB wd sched c :
  run no_close sched (start_config (ring_system [seed seedB]) wd) = Some c ->
  (exists ch c', exec no_close ch c = Some c')
  /\ (forall n, (10 * n + 18 <= length sched)%nat ->
        exists w0 w1, c_workers c = [w0; w1]
                      /\ (n <= w_cycles w0)%nat /\ (n <= w_cycles w1)%nat).
Proof.
  intros Hrun.
  destruct (Inv_run _ _ _ _ (Inv_start seedB wd) Hrun) as [Hc Hp].
  split; [by eapply Inv_not_stuck|].
  intros n Hn. destruct (Inv_bound _ _ Hc) as [Hlen Hb].
  destruct (c_workers c) as [|w0 [|w1 [|]]] eqn:Hws;
    try (simpl in Hlen; lia).
  exists w0, w1. split; [done|].
  inversion Hb as [|? ? H0' Hb']; subst.
  inversion Hb' as [|? ? H1' _]; subst. lia.
Qed.

Lemma InvU_step ch c c' :
  InvU c -> exec no_close ch c = Some c' ->
  InvU c' /\ (pos_u (c_main c) < pos_u (c_main c'))%nat.
Proof.
  clear Hab HA HB HP.
  destruct c as [s m ws wd]. intros [Hs HI]; simpl in Hs; subst s.
  simpl in HI.
  destruct m as [[|[|[|i]]]|[|j]| | |]; try done;
    destruct ws as [|w0 [|w1 [|w2 ws]]]; try done;
    destruct_and?; subst;
    intros Hex; destruct ch; cbn in Hex; lookups Hex; norm Hex;
    try discriminate Hex;
    injection Hex as <-; (split; [by split | cbn; lia]).
Qed.

Lemma InvU_run sched c c' :
  InvU c -> run no_close sched c = Some c' ->
  InvU c' /\ (pos_u (c_main c) + length sched <= pos_u (c_main c'))%nat.
Proof.
  clear Hab HA HB HP.
  revert c. induction sched as [|ch sched IH]; intros c Hc; simpl.
  - intros [= <-]. split; [done | lia].
  - destruct (exec no_close ch c) as [c1|] eqn:Hex; [|done]. simpl.
    intros Hrun. destruct (InvU_step _ _ _ Hc Hex) as [Hc1 Hlt].
    destruct (IH _ Hc1 Hrun). split; [done | lia].
Qed.

Lemma ring_unseeded_stalls wd sched c :
  run no_close sched (start_config (ring_system []) wd) = Some c ->
  (length sched <= 4)%nat
  /\ Forall (fun w => w_pc w = WRecv 0 /\ w_cycles w = 0%nat) (c_workers c).
Proof.
  clear Hab HA HB HP.
  intros Hrun.
  assert (Hstart : InvU (start_config (ring_system []) wd))
    by (split; [done | by vm_compute]).
  destruct (InvU_run _ _ _ Hstart Hrun) as [[_ HI] Hlen].
  destruct (c_main c) as [[|[|[|i]]]|[|j]| | |]; try done;
    destruct (c_workers c) as [|w0 [|w1 [|w2 ws]]]; try done;
    destruct_and?; subst; (split; [cbn in Hlen; lia | fa; done]).
Qed.

End Ring.

(** C8 (amended).  Take two blocks in a cycle A -> B -> A, on two
    distinct edges, whose [Step] never says stop and never panics, and
    one initial condition, on either edge.  Then the started system
    cannot deadlock and never stops making progress: whatever has
    happened, some step can happen next, and once [10 * n + 18] steps
    have happened each of the two workers has completed at least [n]
    iterations.  Take instead any set of blocks, in any system, each fed
    at one input port by an edge that only blocks of the set write and
    that no initial condition is sent on (a directed cycle with none of
    its edges seeded is such a set): whatever happens, no worker of the
    set gets past the receive on that edge, so none ever calls [Step].
    The two-block cycle with no initial condition at all stops for good
    within the four steps that spawn its workers. *)
Theorem seeded_cycle_runs_unseeded_cycle_stalls :
  (forall {F : Type} `{Num F} {World B : Type} `{Block F World B}
          (P : B -> Prop) sin sout init (A B' : B) (a b : chan) (v : F)
          seedB (wd : World) sched c,
      perpetual P -> P A -> P B' -> a <> b ->
      run no_close sched
          (start_config (ring_system sin sout init A B' a b [seed v seedB]) wd)
        = Some c ->
      (exists ch c', exec no_close ch c = Some c')
      /\ (forall n, (10 * n + 18 <= length sched)%nat ->
            exists w0 w1, c_workers c = [w0; w1]
                          /\ (n <= w_cycles w0)%nat /\ (n <= w_cycles w1)%nat))
  /\ (forall {F : Type} `{Num F} {World B : Type} `{Block F World B}
             (s : System F B) on_cycle fed_at (wd : World) sched c,
        unseeded s on_cycle fed_at ->
        run no_close sched (start_config s wd) = Some c ->
        waiting s on_cycle fed_at c)
  /\ (forall {F : Type} `{Num F} {World B : Type} `{Block F World B}
             sin sout init (A B' : B) (a b : chan) (wd : World) sched c,
        run no_close sched
            (start_config (ring_system (F:=F) sin sout init A B' a b []) wd)
          = Some c ->
        (length sched <= 4)%nat
        /\ Forall (fun w => w_pc w = WRecv 0 /\ w_cycles w = 0%nat)
                  (c_workers c)).
Proof.
  split; [|split].
  - intros F HF World B HB P sin sout init A B' a b v seedB wd sched c
           HP HA HB' Hab Hrun.
    exact (ring_runs P HP sin sout init A B' a b v Hab HA HB'
                     seedB wd sched c Hrun).
  - intros F HF World B HB s on_cycle fed_at wd sched c Hun Hrun.
    exact (unseeded_cycle_waits s on_cycle fed_at Hun wd sched c Hrun).
  - intros F HF World B HB sin sout init A B' a b wd sched c Hrun.
    exact (ring_unseeded_stalls sin sout init A B' a b wd sched c Hrun).
Qed.

(** A scaling block never says stop. *)
Lemma Scale_perpetual : perpetual is_Scale.
Proof.
  intros blk [|x0 [|]] [|y0 [|]] wd [k ->] Hx Hy; try done.
  exists (BScale k), [nmul k x0], wd. split; [reflexivity | by exists k].
Qed.

(** The cycle of two scaling blocks, just started. *)
Lemma seeded_cycle_runs_witness :
  (exists ch c', exec no_close ch (start_config scale_ring tt) = Some c')
  /\ (forall n, (10 * n + 18 <= length (@nil choice))%nat ->
        exists w0 w1, c_workers (start_config scale_ring tt) = [w0; w1]
                      /\ (n <= w_cycles w0)%nat /\ (n <= w_cycles w1)%nat).
Proof.
  apply (proj1 seeded_cycle_runs_unseeded_cycle_stalls
               float _ unit (StdBlock float unit) Std_float is_Scale
               [] [] false (BScale 2%float) (BScale 0.5%float) 0%nat 1%nat
               1%float true tt [] (start_config scale_ring tt)
               Scale_perpetual).
  - by exists 2%float.
  - by exists 0.5%float.
  - lia.
  - reflexivity.
Defined.

(** The cycle with a [Stop] block in it, with its one initial condition:
    eight steps after [Start] nothing can happen any more, and neither
    worker has completed an iteration. *)
Lemma stopping_cycle_halts :
  exists c,
    run (H0:=Std_float) no_close stopping_schedule
        (start_config stopping_ring tt) = Some c
    /\ c_main c = MReturn None
    /\ stuck (H0:=Std_float) no_close c
    /\ Forall (fun w => w_cycles w = 0%nat) (c_workers c).
Proof.
  eexists. split; [vm_compute; reflexivity|].
  split; [reflexivity|]. split.
  - intros ch. destruct ch as [|k|k|k k'|k|k|k|];
      try (destruct k as [|[|k]]); try (destruct k' as [|[|k']]);
      reflexivity.
  - fa; reflexivity.
Qed.

(** ** The [Stop] block *)

Section StopBlock.
Context {F : Type} `{Num F} {World : Type}.
Variable DT : F.

#[local] Abbreviation elapsed := (elapsed DT).
#[local] Abbreviation Stop_after := (Stop_after DT).

Lemma Stop_Step_continue (s : Stop F World) x y w :
  nge (nadd (t s) DT) (Time s) = false ->
  Stop_Step DT s [x] [y] w =
    Some ({| Time := Time s; Callbacks := Callbacks s;
             t := nadd (t s) DT |}, [x], w, true).
Proof. unfold Stop_Step. cbn [t Time]. by intros ->. Qed.

Lemma Stop_Step_stop (s : Stop F World) x y w :
  nge (nadd (t s) DT) (Time s) = true ->
  Stop_Step DT s x y w =
    Some ({| Time := Time s; Callbacks := Callbacks s;
             t := nadd (t s) DT |}, y, call_all (Callbacks s) w, false).
Proof. unfold Stop_Step. cbn [t Time]. by intros ->. Qed.

Lemma drive_Stop (s : Stop F World) (j m : nat) xs y w :
  (j < length xs)%nat ->
  (forall k, (k < j)%nat -> nge (elapsed (S (m + k))) (Time s) = false) ->
  nge (elapsed (S (m + j))) (Time s) = true ->
  drive (Stop_Step DT) (Stop_after s m) [y] w (wires xs) =
    (wires (take j xs), Stop_after s (S (m + j)),
     call_all (Callbacks s) w, true).
Proof.
  revert m xs y. induction j as [|j IH]; intros m [|x xs] y Hlen Hlow Hhit;
    simpl in Hlen; try lia.
  - rewrite Nat.add_0_r in *. cbn [wires fmap list_fmap drive].
    by rewrite Stop_Step_stop.
  - pose proof (Hlow 0%nat ltac:(lia)) as H0'. rewrite Nat.add_0_r in H0'.
    cbn [wires fmap list_fmap drive].
    rewrite Stop_Step_continue by done.
    change {| Time := Time (Stop_after s m);
              Callbacks := Callbacks (Stop_after s m);
              t := nadd (t (Stop_after s m)) DT |}
      with (Stop_after s (S m)).
    change ((fun x0 : F => [x0]) <$> xs) with (wires xs).
    rewrite (IH (S m) xs x); [| lia | |].
    + by replace (S m + j)%nat with (m + S j)%nat by lia.
    + intros k Hk. replace (S m + k)%nat with (m + S k)%nat by lia.
      apply Hlow. lia.
    + by replace (S m + j)%nat with (m + S j)%nat by lia.
Qed.

End StopBlock.

(** Without rounding the time crosses [T] at step [ceil (T / DT)]. *)
Section ExactTime.
Local Open Scope Q_scope.

Lemma elapsed_exact (DT : Q) (k : nat) :
  elapsed DT k == inject_Z (Z.of_nat k) * DT.
Proof.
  induction k as [|k IH].
  - reflexivity.
  - change (elapsed DT (S k)) with (elapsed DT k + DT).
    rewrite IH, Nat2Z.inj_succ. unfold Z.succ.
    rewrite inject_Z_plus. ring.
Qed.

Lemma crossing_exact (T DT : Q) (k : nat) :
  0 < DT ->
  nge (elapsed DT k) T = true <-> (Qceiling (T / DT) <= Z.of_nat k)%Z.
Proof.
  intros HDT. cbn [nge exactQ]. rewrite Qle_bool_iff, elapsed_exact.
  split.
  - intros Hle.
    rewrite <- (Qceiling_Z (Z.of_nat k)).
    apply Qceiling_resp_le. by apply Qle_shift_div_r.
  - intros Hle. rewrite Zle_Qle in Hle.
    assert (Hq : T / DT <= inject_Z (Z.of_nat k)).
    { eapply Qle_trans; [apply Qle_ceiling | exact Hle]. }
    apply (Qmult_le_compat_r _ _ DT) in Hq; [|by apply Qlt_le_weak].
    assert (Heq : T / DT * DT == T).
    { field. intros H0. rewrite H0 in HDT. by apply Qlt_irrefl in HDT. }
    by rewrite Heq in Hq.
Qed.

Lemma ceiling_positive (T DT : Q) :
  0 < T -> 0 < DT -> (0 < Qceiling (T / DT))%Z.
Proof.
  intros HT HDT.
  assert (Hpos : 0 < T / DT).
  { apply Qlt_shift_div_l; [done|]. by rewrite Qmult_0_l. }
  pose proof (Qle_ceiling (T / DT)) as Hc.
  assert (Hlt : inject_Z 0 < inject_Z (Qceiling (T / DT)))
    by (eapply Qlt_le_trans; [exact Hpos | exact Hc]).
  by rewrite <- Zlt_Qlt in Hlt.
Qed.

End ExactTime.

(** C5 (amended).  A [Stop] block whose clock starts at zero copies its
    input to its output and says continue on every step at which the
    accumulated time, [DT] added once per step before the comparison, is
    still below [Time]; on the first step at which it has reached [Time]
    the block runs every registered callback once, in the order of
    registration, leaves its output alone and says stop.  In exact
    arithmetic, with [Time] and [DT] positive, that step is step
    [ceil (Time / DT)]. *)
Theorem Stop_halts_at_first_crossing :
  (forall {F : Type} `{Num F} {World : Type} (DT : F) (s : Stop F World)
          (n : nat) xs y w,
      t s = nzero ->
      (forall k, (k < n)%nat -> nge (elapsed DT (S k)) (Time s) = false) ->
      nge (elapsed DT (S n)) (Time s) = true ->
      (n < length xs)%nat ->
      drive (Stop_Step DT) s [y] w (wires xs) =
        (wires (take n xs), Stop_after DT s (S n),
         call_all (Callbacks s) w, true))
  /\ (forall {World : Type} (T DT : Q) (cbs : list (World -> World)) xs y w,
        (0 < T)%Q -> (0 < DT)%Q ->
        let N := Z.to_nat (Qceiling (T / DT)) in
        (N <= length xs)%nat ->
        (1 <= N)%nat
        /\ drive (Stop_Step DT) {| Time := T; Callbacks := cbs; t := 0%Q |}
                 [y] w (wires xs) =
             (wires (take (N - 1) xs),
              {| Time := T; Callbacks := cbs; t := elapsed DT N |},
              call_all cbs w, true)).
Proof.
  assert (Hgen : forall {F : Type} `{Num F} {World : Type} (DT : F)
                        (s : Stop F World) (n : nat) xs y w,
             t s = nzero ->
             (forall k, (k < n)%nat -> nge (elapsed DT (S k)) (Time s) = false) ->
             nge (elapsed DT (S n)) (Time s) = true ->
             (n < length xs)%nat ->
             drive (Stop_Step DT) s [y] w (wires xs) =
               (wires (take n xs), Stop_after DT s (S n),
                call_all (Callbacks s) w, true)).
  { intros F HF World DT [T cbs t0] n xs y w Ht Hlow Hhit Hlen.
    simpl in Ht. subst t0.
    exact (drive_Stop DT {| Time := T; Callbacks := cbs; t := nzero |}
                      n 0 xs y w Hlen Hlow Hhit). }
  split; [exact Hgen|].
  intros World T DT cbs xs y w HT HDT N HN.
  pose proof (ceiling_positive T DT HT HDT) as Hpos.
  assert (HNZ : Z.of_nat N = Qceiling (T / DT)) by (subst N; lia).
  split; [lia|].
  rewrite (Hgen Q exactQ World DT {| Time := T; Callbacks := cbs; t := 0%Q |}
                (N - 1)%nat xs y w); [| done | | | lia].
  - unfold Stop_after. cbn [Time Callbacks].
    by replace (S (N - 1)) with N by lia.
  - intros k Hk. cbn [Time].
    destruct (nge (elapsed DT (S k)) T) eqn:Hge; [|done].
    apply crossing_exact in Hge; [|done]. lia.
  - cbn [Time]. replace (S (N - 1)) with N by lia.
    apply crossing_exact; [done | lia].
Qed.

Section StopInstances.
Local Open Scope Q_scope.

(** Without rounding: stop time 1, step 1/10. *)
Lemma Stop_halts_at_first_crossing_witness :
  (1 <= Z.to_nat (Qceiling (1 / (1 # 10))))%nat
  /\ drive (World:=unit) (Stop_Step (1 # 10))
           {| Time := 1; Callbacks := []; t := 0 |} [0] tt
           (wires (replicate 10 1)) =
       (wires (take (Z.to_nat (Qceiling (1 / (1 # 10))) - 1)
                    (replicate 10 1)),
        {| Time := 1; Callbacks := [];
           t := elapsed (1 # 10) (Z.to_nat (Qceiling (1 / (1 # 10)))) |},
        call_all [] tt, true).
Proof.
  apply (proj2 Stop_halts_at_first_crossing unit 1 (1 # 10) []
               (replicate 10 1) 0 tt); [reflexivity | reflexivity |].
  vm_compute. lia.
Defined.

End StopInstances.

(** In [float64], with stop time 3 and step 0.01, [3 / 0.01] is 300, yet
    after 300 steps the block has not said stop: it does on step 301. *)
Lemma Stop_float64_stops_late :
  PrimFloat.div 3 DT_default = 300%float
  /\ (drive (Stop_Step DT_default) stop3 [0%float] tt
            (wires (replicate 300 1%float))).2 = false
  /\ length (drive (Stop_Step DT_default) stop3 [0%float] tt
                   (wires (replicate 300 1%float))).1.1.1 = 300%nat
  /\ (drive (Stop_Step DT_default) stop3 [0%float] tt
            (wires (replicate 301 1%float))).2 = true.
Proof. repeat split; vm_compute; reflexivity. Qed.

(** ** The [Integrate] block *)

Section IntegrateBlock.
Context {F : Type} `{Num F} {World : Type}.
Variable DT : F.

(** The first output is the state after the first call; the rest is
    what the block puts out from there. *)
Lemma Integrate_sent_cons (b : Integrate F) x xs :
  Integrate_sent DT b (x :: xs) =
    [nadd (State b) (nmul x DT)]
      :: Integrate_sent DT {| State := nadd (State b) (nmul x DT) |} xs.
Proof.
  unfold Integrate_sent. cbn [length seq fmap list_fmap].
  f_equal. rewrite <- fmap_S_seq, <- list_fmap_compose. done.
Qed.

(** In any arithmetic: the outputs are the states, one per input. *)
Lemma drive_Integrate (b : Integrate F) xs y0 (w : World) :
  drive (Integrate_Step DT) b [y0] w (wires xs) =
    (Integrate_sent DT b xs, Integrate_after DT b xs, w, false).
Proof.
  revert b y0. induction xs as [|x xs IH]; intros b y0; [done|].
  cbn [wires fmap list_fmap drive].
  change (Integrate_Step DT b [x] [y0] w)
    with (Some ({| State := nadd (State b) (nmul x DT) |},
                [nadd (State b) (nmul x DT)], w, true)).
  cbv beta iota.
  change ((fun x0 : F => [x0]) <$> xs) with (wires xs).
  by rewrite IH, Integrate_sent_cons.
Qed.

End IntegrateBlock.

(** In binary64: zero inputs. *)

Lemma is_zero_SF (x : float) :
  PrimFloat.is_zero x = true -> SFzero (Prim2SF x).
Proof.
  unfold PrimFloat.is_zero. rewrite FloatAxioms.eqb_spec.
  change (Prim2SF zero) with (S754_zero false).
  unfold SFeqb, SFcompare, SFzero.
  destruct (Prim2SF x) as [s|s| |s m e]; try done; by destruct s.
Qed.

Lemma is_finite_SF (x : float) :
  PrimFloat.is_finite x = true ->
  match Prim2SF x with
  | S754_zero _ | S754_finite _ _ _ => True
  | _ => False
  end.
Proof.
  unfold PrimFloat.is_finite, PrimFloat.is_nan, PrimFloat.is_infinity.
  rewrite !FloatAxioms.eqb_spec, abs_spec.
  change (Prim2SF infinity) with (S754_infinity false).
  destruct (Prim2SF x) as [s|s| |s m e]; try done.
  by destruct s.
Qed.

(** Zero times a finite number is a zero. *)
Lemma zero_mul_finite (x DT : float) :
  PrimFloat.is_zero x = true -> PrimFloat.is_finite DT = true ->
  SFzero (Prim2SF (x * DT)).
Proof.
  intros Hx%is_zero_SF HDT%is_finite_SF. rewrite mul_spec.
  unfold SF64mul, SFmul.
  destruct (Prim2SF x); try done. by destruct (Prim2SF DT).
Qed.

(** Adding a zero changes nothing, the sign of a zero apart. *)
Lemma add_zero (s z : float) :
  SFzero (Prim2SF z) ->
  Prim2SF (s + z) = Prim2SF s
  \/ (SFzero (Prim2SF s) /\ SFzero (Prim2SF (s + z))).
Proof.
  rewrite add_spec. unfold SF64add, SFadd.
  destruct (Prim2SF z) as [sz| | |]; try done. intros _.
  destruct (Prim2SF s) as [ss| | |]; auto.
  destruct ss, sz; simpl; auto.
Qed.

Lemma same_eqb (x y : float) :
  PrimFloat.is_nan y = false -> same x y -> (x =? y)%float = true.
Proof.
  unfold PrimFloat.is_nan. rewrite !FloatAxioms.eqb_spec.
  intros Hy%negb_false_iff [->|[Hx Hy0]]; [done|].
  unfold SFeqb, SFcompare.
  destruct (Prim2SF x); try done. by destruct (Prim2SF y).
Qed.

Lemma same_add_zero (s x0 z : float) :
  same s x0 -> SFzero (Prim2SF z) -> same (s + z) x0.
Proof.
  intros Hs Hz. destruct (add_zero s z Hz) as [Heq|[Hz1 Hz2]].
  - unfold same. rewrite Heq. exact Hs.
  - right. split; [done|].
    destruct Hs as [<-|[_ ?]]; done.
Qed.

Lemma drive_Integrate_zero {World} (DT x0 s0 : float) xs y0 (w : World) :
  PrimFloat.is_finite DT = true ->
  Forall (fun x => PrimFloat.is_zero x = true) xs ->
  same s0 x0 ->
  exists sent b,
    drive (Integrate_Step DT) {| State := s0 |} [y0] w (wires xs)
      = (sent, b, w, false)
    /\ length sent = length xs
    /\ same (State b) x0
    /\ forall k out, sent !! k = Some out ->
         exists v, out = [v] /\ same v x0.
Proof.
  intros HDT Hxs. revert s0 y0.
  induction Hxs as [|x xs Hx Hxs IH]; intros s0 y0 Hs.
  - simpl. eexists _, _. split; [reflexivity|]. repeat split; try done.
  - cbn [wires fmap list_fmap drive].
    change (Integrate_Step DT {| State := s0 |} [x] [y0] w)
      with (Some ({| State := (s0 + x * DT)%float |},
                  [(s0 + x * DT)%float], w, true)).
    cbv beta iota.
    assert (Hs' : same (s0 + x * DT) x0).
    { apply same_add_zero; [done|]. by apply zero_mul_finite. }
    destruct (IH _ (s0 + x * DT)%float Hs') as (sent & b & Hd & Hl & Hb & Hout).
    unfold wires in Hd. rewrite Hd.
    eexists _, _. split; [reflexivity|].
    split; [simpl; lia|]. split; [done|].
    intros [|k] out Hk; simpl in Hk.
    + injection Hk as <-. eauto.
    + eauto.
Qed.

(** Without rounding: a constant input. *)

Section ExactSum.
Local Open Scope Q_scope.

Lemma Integrate_after_exact (DT c : Q) (b : Integrate Q) (n : nat) :
  State (Integrate_after DT b (replicate n c))
    == State b + inject_Z (Z.of_nat n) * c * DT.
Proof.
  revert b. induction n as [|n IH]; intros b.
  - simpl. ring.
  - cbn [replicate Integrate_after foldl].
    change (foldl _ ?b' (replicate n c))
      with (Integrate_after DT b' (replicate n c)).
    rewrite IH. cbn [State nadd nmul exactQ].
    rewrite Nat2Z.inj_succ. unfold Z.succ. rewrite inject_Z_plus. ring.
Qed.

End ExactSum.




(** ** The system as a block *)

(** Nothing the program does changes the system, its [initialized] flag
    included. *)
Lemma initialized_never_set {F : Type} `{Num F} {World B : Type}
    `{Block F World B} closed (s : System F B) (wd : World) sched c :
  run closed sched (start_config s wd) = Some c ->
  initialized (c_sys c) = initialized s.
Proof. intros Hrun. by rewrite (run_sys _ _ _ _ Hrun). Qed.

(** C4, against the code.  On a system whose [Start] returns (the cycle
    with a [Stop] block): the first [Step] calls [Start]; that [Start] runs
    and returns nil; the flag [initialized] is still false; and the
    next [Step] calls [Start] again, from the first [go] statement. *)
Lemma System_Step_starts_again :
  exists c,
    System_Step stopping_ring = Some (System_Start stopping_ring)
    /\ run no_close stopping_schedule (start_config stopping_ring tt) = Some c
    /\ c_main c = MReturn None
    /\ initialized (c_sys c) = false
    /\ System_Step (c_sys c) = Some (MSpawn 0).
Proof. eexists. repeat split; vm_compute; reflexivity. Qed.

(** ** The theorems at work on small systems *)


(** [Start] on the cycle of two scaling blocks: two [go] statements, the
    one initial condition, then the wait. *)
Lemma Start_phases_witness :
  m_drive 6 scale_ring (System_Start scale_ring) [] =
    ([l_go (ioA (BScale 2%float) 0 1); l_go (ioB (BScale 0.5%float) 0 1);
      l_ic (Some 1%nat) 1%float; l_wait],
     MReturn None,
     [spawn (ioA (BScale 2%float) 0 1); spawn (ioB (BScale 0.5%float) 0 1)]).
Proof.
  refine (proj1 (Start_phases (World:=unit) scale_ring eq_refl _) 0%nat).
  repeat constructor.
  exists (ioB (BScale 0.5%float) 0 1). split; [reflexivity|].
  unfold in_range. simpl. lia.
Defined.

(** Validation passes on a system with no block and one initial
    condition; [Start] panics at the send of that initial condition and
    never returns. *)
Lemma Start_panics_on_stray_ic :
  System_check stray_ic = None
  /\ m_drive 4 stray_ic (System_Start stray_ic) [] = ([], MPanic, [])
  /\ exists c,
       run no_close [main_local; main_local] (start_config stray_ic tt)
         = Some c
       /\ c_main c = MPanic /\ stuck no_close c.
Proof.
  split; [reflexivity|]. split; [reflexivity|].
  eexists. split; [reflexivity|]. split; [reflexivity|].
  intros ch. by destruct ch.
Qed.

(** Output 0 of the first of two blocks connected to input 0 of the
    second; input 0 of the first stays nil. *)
Lemma Connect_binds_one_fresh_edge_witness :
  exists st',
    System_Connect 0 1 0 0 two_scales = Ok tt st'
    /\ next_chan st' = 1%nat
    /\ read (sys st') (blk_in 1 0) = Some (Some 0%nat)
    /\ read (sys st') (blk_out 0 0) = Some (Some 0%nat)
    /\ read (sys st') (blk_in 0 0) = Some None.
Proof.
  destruct (Connect_binds_one_fresh_edge two_scales 0 1 0 0 eq_refl eq_refl)
    as (st' & Hc & Hn & _ & Hd & Hs & Ho & _).
  exists st'. repeat split; try done.
  by rewrite (Ho (blk_in 0 0)).
Defined.

(** Block indices 5 and 7 name no block, and [Connect] returns normally:
    with negative port indices it never looks at them. *)
Lemma Connect_ignores_block_of_boundary_port :
  ~ in_range (blocks (sys boundary_only)) 5
  /\ ~ in_range (blocks (sys boundary_only)) 7
  /\ System_Connect 5 7 (-1) (-1) boundary_only =
       Ok tt {| sys := {| s_In := [Some 0%nat]; s_Out := [Some 0%nat];
                          blocks := []; initials := [];
                          initialized := false |};
                next_chan := 1 |}.
Proof.
  split; [|split]; [unfold in_range; simpl; lia..|]. reflexivity.
Qed.

(** * Further properties *)

(** ** The calls that set a system up *)

Section Building.
Context {F : Type} `{Num F} {World : Type} {B : Type} `{Block F World B}.
Implicit Types (st : Store F B) (s : System F B).

Lemma grown_refl s : grown s s.
Proof.
  repeat split; try done.
  - exists []. by rewrite app_nil_r.
  - intros k io Hk. eauto.
  - eauto.
  - exists []. by rewrite app_nil_r.
Qed.

Lemma grown_trans s1 s2 s3 : grown s1 s2 -> grown s2 s3 -> grown s1 s3.
Proof.
  intros (Hi1 & Ho1 & [m1 Hb1] & Hk1 & Hr1 & [n1 Hc1] & Hf1)
         (Hi2 & Ho2 & [m2 Hb2] & Hk2 & Hr2 & [n2 Hc2] & Hf2).
  split; [congruence|]. split; [congruence|]. split.
  { exists (m1 ++ m2). by rewrite Hb2, Hb1, app_assoc. }
  split.
  { intros k io Hk. destruct (Hk1 k io Hk) as (io1 & Hio1 & ? & ?).
    destruct (Hk2 k io1 Hio1) as (io2 & Hio2 & ? & ?).
    exists io2. split; [done|]. split; congruence. }
  split.
  { intros sl c Hc. destruct (Hr1 sl c Hc) as [c1 Hc1']. eauto. }
  split; [|congruence].
  exists (n1 ++ n2). by rewrite Hc2, Hc1, app_assoc.
Qed.

(** Two lists are as long as each other when they have the same
    positions. *)
Lemma same_length_lookup {A} (l l' : list A) :
  (forall p, is_Some (l' !! p) <-> is_Some (l !! p)) -> length l' = length l.
Proof.
  intros Hl.
  destruct (Nat.lt_trichotomy (length l') (length l)) as [Hlt|[Heq|Hgt]];
    [|done|].
  - apply lookup_lt_is_Some_2, Hl, lookup_lt_is_Some_1 in Hlt. lia.
  - apply lookup_lt_is_Some_2, Hl, lookup_lt_is_Some_1 in Hgt. lia.
Qed.

Lemma valid_dst_read s dst i :
  valid_dst s dst i = true -> is_Some (read s (dst_slot dst i)).
Proof.
  unfold valid_dst, dst_slot. destruct (i <? 0).
  - intros Hr%bool_decide_eq_true. simpl.
    apply lookup_lt_is_Some_2. by apply in_range_lt.
  - destruct (index (blocks s) dst) as [b|] eqn:Hb; [|done].
    intros Hr%bool_decide_eq_true. simpl.
    apply index_Some in Hb as [_ ->]. simpl.
    apply lookup_lt_is_Some_2. by apply in_range_lt.
Qed.

Lemma valid_src_read s src o :
  valid_src s src o = true -> is_Some (read s (src_slot src o)).
Proof.
  unfold valid_src, src_slot. destruct (o <? 0).
  - intros Hr%bool_decide_eq_true. simpl.
    apply lookup_lt_is_Some_2. by apply in_range_lt.
  - destruct (index (blocks s) src) as [b|] eqn:Hb; [|done].
    intros Hr%bool_decide_eq_true. simpl.
    apply index_Some in Hb as [_ ->]. simpl.
    apply lookup_lt_is_Some_2. by apply in_range_lt.
Qed.

(** What [Connect] does to the slots, on every input: the channel is new;
    when the first index expression is in range it goes into the
    destination slot, and when the second is too, into the source slot;
    [Connect] returns when both are and panics otherwise. *)
Lemma Connect_slots st src dst o i :
  let c := next_chan st in
  let r := System_Connect src dst o i st in
  let s' := sys (store_of r) in
  next_chan (store_of r) = S c
  /\ returned r = valid_dst (sys st) dst i && valid_src (sys st) src o
  /\ b_Block <$> blocks s' = b_Block <$> blocks (sys st)
  /\ initials s' = initials (sys st)
  /\ initialized s' = initialized (sys st)
  /\ (forall sl, read s' sl = read (sys st) sl
        \/ (is_Some (read (sys st) sl) /\ read s' sl = Some (Some c)
            /\ (sl = dst_slot dst i \/ sl = src_slot src o)))
  /\ (returned r = true ->
        read s' (dst_slot dst i) = Some (Some c)
        /\ read s' (src_slot src o) = Some (Some c)).
Proof.
  intros c r s'. subst r s'. rewrite Connect_unfold. fold c.
  destruct (valid_dst (sys st) dst i) eqn:Hd.
  - destruct (assign_dst_valid
                {| sys := sys st; next_chan := S c |} dst i c Hd)
      as (s1 & -> & Hrd & Hod & Hb1 & Hi1 & Hf1 & Hv); simpl in *.
    rewrite <- Hv.
    assert (Hs1 : forall sl, read s1 sl = read (sys st) sl
        \/ (is_Some (read (sys st) sl) /\ read s1 sl = Some (Some c)
            /\ (sl = dst_slot dst i \/ sl = src_slot src o))).
    { intros sl. destruct (decide (sl = dst_slot dst i)) as [->|Hne].
      - right. split; [by apply valid_dst_read|]. auto.
      - left. by apply Hod. }
    destruct (valid_src s1 src o) eqn:Hs.
    + destruct (assign_src_valid
                  {| sys := s1; next_chan := S c |} src o c Hs)
        as (s2 & -> & Hrs & Hos & Hb2 & Hi2 & Hf2); simpl in *.
      split; [done|]. split; [done|].
      split; [congruence|]. split; [congruence|]. split; [congruence|].
      split.
      { intros sl. destruct (decide (sl = src_slot src o)) as [->|Hne].
        * right. split; [|auto].
          apply valid_src_read in Hs.
          destruct (Hs1 (src_slot src o)) as [<-|[? _]]; done.
        * rewrite (Hos sl Hne). apply Hs1. }
      intros _. split; [|done]. rewrite Hos; [done|].
      unfold dst_slot, src_slot. by destruct (i <? 0), (o <? 0).
    + rewrite assign_src_invalid by done. simpl.
      repeat split; try done.
  - rewrite assign_dst_invalid by done. simpl.
    repeat split; try done. intros sl. by left.
Qed.

Lemma read_blk_in s k p io :
  blocks s !! k = Some io -> read s (blk_in k p) = b_In io !! p.
Proof. intros Hk. simpl. by rewrite Hk. Qed.

Lemma read_blk_out s k p io :
  blocks s !! k = Some io -> read s (blk_out k p) = b_Out io !! p.
Proof. intros Hk. simpl. by rewrite Hk. Qed.

Lemma Connect_grown st src dst o i :
  grown (sys st) (sys (store_of (System_Connect src dst o i st))).
Proof.
  destruct (Connect_slots st src dst o i)
    as (_ & _ & Hb & Hi & Hf & Hr & _).
  set (s' := sys (store_of (System_Connect src dst o i st))) in *.
  assert (Hsome : forall sl, is_Some (read s' sl) <-> is_Some (read (sys st) sl)).
  { intros sl. destruct (Hr sl) as [->|(Hs & -> & _)]; [done|].
    split; [done | by eexists]. }
  assert (Hlen : length (blocks s') = length (blocks (sys st))).
  { by rewrite <- (length_fmap b_Block), Hb, length_fmap. }
  split. { apply same_length_lookup. intros p. apply (Hsome (sys_in p)). }
  split. { apply same_length_lookup. intros p. apply (Hsome (sys_out p)). }
  split. { exists []. by rewrite app_nil_r. }
  split.
  { intros k io Hk.
    destruct (lookup_lt_is_Some_2 (blocks s') k) as [io' Hk'].
    { rewrite Hlen. by eapply lookup_lt_Some. }
    exists io'. split; [done|]. split; apply same_length_lookup; intros p.
    - rewrite <- (read_blk_in s' k p io' Hk'), <- (read_blk_in _ k p io Hk).
      apply Hsome.
    - rewrite <- (read_blk_out s' k p io' Hk'), <- (read_blk_out _ k p io Hk).
      apply Hsome. }
  split.
  { intros sl c Hc. destruct (Hr sl) as [->|(_ & -> & _)]; eauto. }
  split; [|done]. exists []. by rewrite app_nil_r.
Qed.

Lemma read_app_blocks s (bs : list (ioBlock B)) s' sl x :
  s_In s' = s_In s -> s_Out s' = s_Out s -> blocks s' = blocks s ++ bs ->
  read s sl = Some x -> read s' sl = Some x.
Proof.
  intros Hi Ho Hb. destruct sl as [k p|k p|p|p]; simpl; rewrite ?Hi, ?Ho, ?Hb;
    try done.
  - destruct (blocks s !! k) as [io|] eqn:Hk; [|done].
    by rewrite (lookup_app_l_Some _ _ _ _ Hk).
  - destruct (blocks s !! k) as [io|] eqn:Hk; [|done].
    by rewrite (lookup_app_l_Some _ _ _ _ Hk).
Qed.

Lemma Add_store st b :
  store_of (System_Add b st) =
    {| sys := {| s_In := s_In (sys st); s_Out := s_Out (sys st);
                 blocks := blocks (sys st) ++ [fresh_ioBlock b];
                 initials := initials (sys st);
                 initialized := initialized (sys st) |};
       next_chan := next_chan st |}.
Proof. reflexivity. Qed.

Lemma AddIC_store st x dst i :
  store_of (System_AddIC x dst i st) =
    {| sys := {| s_In := s_In (sys st); s_Out := s_Out (sys st);
                 blocks := blocks (sys st);
                 initials := initials (sys st) ++
                   [{| value := x; block := dst; input := i |}];
                 initialized := initialized (sys st) |};
       next_chan := next_chan st |}.
Proof. reflexivity. Qed.

Lemma Add_grown st b :
  grown (sys st) (sys (store_of (System_Add b st))).
Proof.
  rewrite Add_store. unfold grown.
  cbn [sys s_In s_Out blocks initials initialized].
  split; [done|]. split; [done|]. split.
  { eexists. by rewrite fmap_app. }
  split.
  { intros k io Hk. exists io. split; [|done].
    by apply lookup_app_l_Some. }
  split.
  { intros sl c Hc. exists c.
    eapply (read_app_blocks (sys st) [fresh_ioBlock b]); [..|exact Hc]; done. }
  split; [|done]. exists []. by rewrite app_nil_r.
Qed.

Lemma AddIC_grown st x dst i :
  grown (sys st) (sys (store_of (System_AddIC x dst i st))).
Proof.
  rewrite AddIC_store. unfold grown.
  cbn [sys s_In s_Out blocks initials initialized].
  split; [done|]. split; [done|]. split.
  { exists []. by rewrite app_nil_r. }
  split; [eauto|]. split; [eauto|]. split; [|done]. eauto.
Qed.

Lemma do_call_grown st c : grown (sys st) (sys (store_of (do_call c st))).
Proof.
  destruct c; [apply Add_grown | apply AddIC_grown | apply Connect_grown].
Qed.

Lemma do_calls_cons c cs st :
  do_calls (c :: cs) st =
  match do_call c st with
  | Ok _ st' => do_calls cs st'
  | Panic st' => Panic st'
  end.
Proof. reflexivity. Qed.

Lemma do_calls_grown (cs : list (call F B)) st :
  grown (sys st) (sys (store_of (do_calls cs st))).
Proof.
  revert st. induction cs as [|c cs IH]; intros st.
  - apply grown_refl.
  - rewrite do_calls_cons. pose proof (do_call_grown st c) as Hc.
    destruct (do_call c st) as [[] st'|st']; simpl in Hc; [|done].
    eapply grown_trans; [exact Hc | apply IH].
Qed.

(** X1.  Whatever calls of [Add], [AddIC] and [Connect] are made, in
    whatever order and whether they all return or one of them panics,
    they only add to the system: the boundary arrays keep their lengths,
    the blocks already there stay where they are with the same numbers
    of ports and new ones come after them, no recorded initial
    condition is dropped or reordered, a port that holds a channel still
    holds one, and [initialized] is not touched. *)
Theorem building_only_adds (cs : list (call F B)) st :
  grown (sys st) (sys (store_of (do_calls cs st))).
Proof.
  destruct (do_calls_grown cs st)
    as (Hin & Hout & Hblocks & Hports & Hbound & Hics & Hinit).
  unfold grown. auto 10.
Qed.

(** *** Well-formed systems *)

Lemma Connect_well_formed st src dst o i :
  well_formed st -> well_formed (store_of (System_Connect src dst o i st)).
Proof.
  intros (Ha & Hp & Hq).
  pose proof (Connect_grown st src dst o i) as (_ & _ & _ & Hk & _).
  destruct (Connect_slots st src dst o i)
    as (Hn & _ & Hb & _ & _ & Hr & _).
  set (st' := store_of (System_Connect src dst o i st)) in *.
  assert (Hold : forall sl c, read (sys st') sl = Some (Some c) ->
             c <> next_chan st -> read (sys st) sl = Some (Some c)).
  { intros sl c Hc Hne. destruct (Hr sl) as [<-|(_ & Hc' & _)]; [done|].
    congruence. }
  assert (Hnew : forall sl, read (sys st') sl = Some (Some (next_chan st)) ->
             sl = dst_slot dst i \/ sl = src_slot src o).
  { intros sl Hc. destruct (Hr sl) as [Heq|(_ & _ & ?)]; [|done].
    rewrite Heq in Hc. specialize (Ha sl _ Hc). lia. }
  split; [|split].
  - intros sl c Hc. rewrite Hn.
    destruct (decide (c = next_chan st)) as [->|Hne]; [lia|].
    specialize (Ha sl c (Hold sl c Hc Hne)). lia.
  - intros sl1 sl2 c H1 H2 Hend.
    destruct (decide (c = next_chan st)) as [->|Hne].
    + destruct (Hnew sl1 H1) as [->| ->], (Hnew sl2 H2) as [->| ->];
        try done; exfalso; revert Hend;
        unfold dst_slot, src_slot; by destruct (i <? 0), (o <? 0).
    + eapply Hp; eauto.
  - apply Forall_lookup. intros k io' Hk'.
    assert (Hlt : (k < length (blocks (sys st)))%nat).
    { rewrite <- (length_fmap b_Block), <- Hb, length_fmap.
      by eapply lookup_lt_Some. }
    destruct (lookup_lt_is_Some_2 _ _ Hlt) as [io Hio].
    destruct (Hk k io Hio) as (io'' & Hio'' & Hli & Hlo).
    assert (io'' = io') as -> by congruence.
    pose proof (Forall_lookup_1 _ _ _ _ Hq Hio) as [Hai Hao].
    assert (Hbb : b_Block io' = b_Block io).
    { assert (Hf : (b_Block <$> blocks (sys st')) !! k
                   = (b_Block <$> blocks (sys st)) !! k) by (by rewrite Hb).
      rewrite !list_lookup_fmap, Hk', Hio in Hf. simpl in Hf. congruence. }
    split; congruence.
Qed.

Lemma Add_well_formed st b :
  well_formed st -> well_formed (store_of (System_Add b st)).
Proof.
  intros (Ha & Hp & Hq). rewrite Add_store.
  set (s' := {| s_In := s_In (sys st); s_Out := s_Out (sys st);
                blocks := blocks (sys st) ++ [fresh_ioBlock b];
                initials := initials (sys st);
                initialized := initialized (sys st) |}).
  assert (Hold : forall sl c, read s' sl = Some (Some c) ->
             read (sys st) sl = Some (Some c)).
  { intros [k p|k p|p|p] c; cbn [read s' blocks s_In s_Out]; try done.
    - destruct (decide (k < length (blocks (sys st)))%nat) as [Hlt|Hge].
      + by rewrite lookup_app_l.
      + rewrite lookup_app_r by lia.
        destruct (k - length (blocks (sys st)))%nat as [|k']; simpl; [|done].
        intros [[=] _]%lookup_replicate.
    - destruct (decide (k < length (blocks (sys st)))%nat) as [Hlt|Hge].
      + by rewrite lookup_app_l.
      + rewrite lookup_app_r by lia.
        destruct (k - length (blocks (sys st)))%nat as [|k']; simpl; [|done].
        intros [[=] _]%lookup_replicate. }
  split; [|split]; cbn [sys next_chan].
  - intros sl c Hc. apply (Ha sl c). by apply Hold.
  - intros sl1 sl2 c H1 H2. eapply Hp; eauto.
  - cbn [s' blocks]. apply Forall_app. split; [done|].
    constructor; [|done]. split; simpl; apply length_replicate.
Qed.

Lemma AddIC_well_formed st x dst i :
  well_formed st -> well_formed (store_of (System_AddIC x dst i st)).
Proof. intros (Ha & Hp & Hq). rewrite AddIC_store. by repeat split. Qed.

Lemma do_calls_well_formed (cs : list (call F B)) st :
  well_formed st -> well_formed (store_of (do_calls cs st)).
Proof.
  revert st. induction cs as [|c cs IH]; intros st Hwf; [done|].
  rewrite do_calls_cons.
  assert (Hc : well_formed (store_of (do_call c st))).
  { destruct c; [by apply Add_well_formed | by apply AddIC_well_formed
                | by apply Connect_well_formed]. }
  destruct (do_call c st) as [[] st'|st']; simpl in Hc; [|done].
  by apply IH.
Qed.

Lemma zero_well_formed n :
  well_formed {| sys := System_zero (F:=F) (B:=B); next_chan := n |}.
Proof.
  split; [|split].
  - intros [k p|k p|p|p] c; simpl; done.
  - intros [k p|k p|p|p] sl2 c; simpl; done.
  - constructor.
Qed.

(** X2.  The zero [System] is well formed, and calls of [Add], [AddIC]
    and [Connect] keep a system well formed, whether they return or
    panic: every channel in it came from the allocator, no channel sits
    in two slots that read it or in two slots that write it (an edge has
    one reader and one writer at most), and every block has as many
    input and output ports as its [Inputs] and [Outputs] say. *)
Theorem built_systems_are_well_formed :
  (forall n, well_formed {| sys := System_zero (F:=F) (B:=B);
                            next_chan := n |})
  /\ (forall (cs : list (call F B)) st,
        well_formed st -> well_formed (store_of (do_calls cs st))).
Proof. split; [apply zero_well_formed | apply do_calls_well_formed]. Qed.

(** X3.  No method gives the system a boundary port: a sequence of calls
    that holds a [Connect] with a negative port index naming a boundary
    port the system does not have when the calls begin panics, at that
    [Connect] if not before.  On the zero [System] every negative port
    index is such. *)
Theorem boundary_ports_are_never_created (cs : list (call F B)) st
    src dst o i :
  call_Connect src dst o i ∈ cs ->
  (i < 0 /\ ~ in_range (s_Out (sys st)) (- i - 1))
  \/ (o < 0 /\ ~ in_range (s_In (sys st)) (- o - 1)) ->
  returned (do_calls cs st) = false.
Proof.
  revert st. induction cs as [|c cs IH]; intros st Hin Hbad.
  { by apply elem_of_nil in Hin. }
  rewrite do_calls_cons.
  pose proof (do_call_grown st c) as (Hli & Hlo & _).
  destruct (do_call c st) as [[] st'|st'] eqn:Hc; [|done]. simpl in Hli, Hlo.
  apply elem_of_cons in Hin as [<-|Hin].
  - exfalso. simpl in Hc.
    destruct (Connect_slots st src dst o i) as (_ & Hret & _).
    rewrite Hc in Hret. simpl in Hret. symmetry in Hret.
    apply andb_true_iff in Hret as [Hd Hs].
    unfold valid_dst, valid_src in Hd, Hs.
    destruct Hbad as [[Hi Hr]|[Ho Hr]].
    + apply Z.ltb_lt in Hi. rewrite Hi in Hd.
      by apply bool_decide_eq_true in Hd.
    + apply Z.ltb_lt in Ho. rewrite Ho in Hs.
      by apply bool_decide_eq_true in Hs.
  - apply IH; [done|]. unfold in_range in *. rewrite Hli, Hlo. exact Hbad.
Qed.

(** *** An output connected a second time *)

Lemma orphan_reader_waits s k p e (wd : World) sched c w :
  read s (blk_in k p) = Some (Some e) -> orphan s e ->
  run no_close sched (start_config s wd) = Some c ->
  c_workers c !! k = Some w ->
  w_cycles w = 0%nat /\ exists i, w_pc w = WRecv i /\ (i <= p)%nat.
Proof.
  intros He [Hw Hic] Hrun Hk.
  assert (Hun : unseeded s (fun k' => k' = k) (fun _ => p)).
  { intros k' io -> Hio. exists e. split.
    - by rewrite (read_blk_in s k p io Hio) in He.
    - split; [|done]. intros k' io' o Hio' Ho. exfalso.
      apply (Hw (blk_out k' o)); [done|].
      by rewrite (read_blk_out s k' o io' Hio'). }
  destruct (unseeded_cycle_waits s _ _ Hun wd sched c Hrun k w eq_refl Hk)
    as (i & Hpc & Hi & Hc & _).
  eauto.
Qed.

Lemma Connect_orphans st st' src dst o i sl e :
  well_formed st ->
  read_end sl = true -> read (sys st) sl = Some (Some e) ->
  read (sys st) (src_slot src o) = Some (Some e) ->
  sl <> dst_slot dst i ->
  System_Connect src dst o i st = Ok tt st' ->
  read (sys st') sl = Some (Some e)
  /\ (forall sl', read_end sl' = false -> read (sys st') sl' <> Some (Some e)).
Proof.
  intros (Ha & Hp & _) Hend He Hsrc Hne HC.
  destruct (Connect_slots st src dst o i) as (_ & _ & _ & _ & _ & Hr & Hok).
  rewrite HC in Hr, Hok. simpl in Hr, Hok.
  destruct (Hok eq_refl) as [_ Hnew].
  assert (Hlt : (e < next_chan st)%nat) by (by eapply Ha).
  assert (Hsend : read_end (src_slot src o) = false).
  { unfold src_slot. by destruct (o <? 0). }
  split.
  - destruct (Hr sl) as [->|(_ & _ & [->| ->])]; [done | done |].
    congruence.
  - intros sl' Hend' He'.
    destruct (Hr sl') as [Heq|(_ & Hnew' & _)].
    + rewrite Heq in He'.
      assert (sl' = src_slot src o) as ->
        by (eapply Hp; eauto; congruence).
      rewrite Hnew in Heq. rewrite <- Heq in He'. injection He' as Hq. lia.
    + rewrite Hnew' in He'. injection He' as Hq. lia.
Qed.

(** X4.  In a well-formed system, take an input port of block [k] that
    holds the channel [e], and the slot that writes [e].  When
    [Connect] is called with that slot as its source and another port
    as its destination, it puts a new channel into the source slot and
    leaves [e] in the input port of block [k]: nothing writes [e] any
    more.  If no initial condition is sent on [e] either, then in
    every run of [Start] on that system the worker of block [k] never
    gets past the receive on that port and completes no iteration;
    [check] does not see it. *)
Theorem reconnected_output_starves_its_reader st st' src dst o i k p e :
  well_formed st ->
  read (sys st) (blk_in k p) = Some (Some e) ->
  read (sys st) (src_slot src o) = Some (Some e) ->
  blk_in k p <> dst_slot dst i ->
  System_Connect src dst o i st = Ok tt st' ->
  (forall ic, ic ∈ initials (sys st') ->
     ic_target (sys st') ic <> Some (Some e)) ->
  read (sys st') (blk_in k p) = Some (Some e)
  /\ orphan (sys st') e
  /\ forall (wd : World) sched c w,
       run no_close sched (start_config (sys st') wd) = Some c ->
       c_workers c !! k = Some w ->
       w_cycles w = 0%nat /\ exists j, w_pc w = WRecv j /\ (j <= p)%nat.
Proof.
  intros Hwf He Hsrc Hne HC Hic.
  destruct (Connect_orphans st st' src dst o i (blk_in k p) e
              Hwf eq_refl He Hsrc Hne HC) as [He' Hw].
  split; [done|]. split; [by split|].
  intros wd sched c w Hrun Hk.
  eapply orphan_reader_waits; [exact He' | by split | exact Hrun | exact Hk].
Qed.

(** *** Which ports are bound *)

Lemma Add_reads st b sl c :
  read (sys (store_of (System_Add b st))) sl = Some (Some c) ->
  read (sys st) sl = Some (Some c).
Proof.
  rewrite Add_store. destruct sl as [k p|k p|p|p];
    cbn [read sys blocks s_In s_Out]; try done.
  - destruct (decide (k < length (blocks (sys st)))%nat) as [Hlt|Hge].
    + by rewrite lookup_app_l.
    + rewrite lookup_app_r by lia.
      destruct (k - length (blocks (sys st)))%nat as [|k']; simpl; [|done].
      intros [[=] _]%lookup_replicate.
  - destruct (decide (k < length (blocks (sys st)))%nat) as [Hlt|Hge].
    + by rewrite lookup_app_l.
    + rewrite lookup_app_r by lia.
      destruct (k - length (blocks (sys st)))%nat as [|k']; simpl; [|done].
      intros [[=] _]%lookup_replicate.
Qed.

Lemma names_cons c (cs : list (call F B)) sl :
  names (c :: cs) sl <-> names [c] sl \/ names cs sl.
Proof.
  unfold names. split.
  - intros (src & dst & o & i & [<-|Hin]%elem_of_cons & Hsl).
    + left. exists src, dst, o, i. split; [apply elem_of_cons; by left | done].
    + right. by exists src, dst, o, i.
  - intros [(src & dst & o & i & Hin & Hsl)|(src & dst & o & i & Hin & Hsl)];
      exists src, dst, o, i; (split; [|done]).
    + apply elem_of_cons in Hin as [<-|Hin]; [apply elem_of_cons; by left|].
      by apply elem_of_nil in Hin.
    + apply elem_of_cons. by right.
Qed.

(** A port holds a channel only if it did before or a [Connect] among
    the calls names it. *)
Lemma bound_is_named (cs : list (call F B)) st (Q : slot -> Prop) :
  (forall sl c, read (sys st) sl = Some (Some c) -> Q sl) ->
  forall sl c, read (sys (store_of (do_calls cs st))) sl = Some (Some c) ->
    Q sl \/ names cs sl.
Proof.
  revert st Q. induction cs as [|c0 cs IH]; intros st Q HQ sl c Hc.
  { left. by eapply HQ. }
  rewrite do_calls_cons in Hc.
  assert (H1 : forall sl c, read (sys (store_of (do_call c0 st))) sl
                 = Some (Some c) -> Q sl \/ names [c0] sl).
  { clear sl c Hc. intros sl c Hc. destruct c0 as [b|x dst i|src dst o i].
    - left. eapply HQ. by eapply Add_reads.
    - left. eapply HQ. exact Hc.
    - simpl in Hc.
      destruct (Connect_slots st src dst o i) as (_ & _ & _ & _ & _ & Hr & _).
      destruct (Hr sl) as [Heq|(_ & _ & Hsl)].
      + left. eapply HQ. by rewrite <- Heq.
      + right. exists src, dst, o, i.
        split; [apply elem_of_cons; by left|]. destruct Hsl; auto. }
  rewrite names_cons.
  destruct (do_call c0 st) as [[] st1|st1]; simpl in *.
  - destruct (IH st1 _ H1 sl c Hc) as [[?|?]|?]; auto.
  - destruct (H1 sl c Hc); auto.
Qed.

(** When the calls all return, a port that a [Connect] among them names
    holds a channel in the end. *)
Lemma named_is_bound (cs : list (call F B)) st sl :
  returned (do_calls cs st) = true -> names cs sl ->
  exists c, read (sys (store_of (do_calls cs st))) sl = Some (Some c).
Proof.
  revert st. induction cs as [|c0 cs IH]; intros st Hret Hn.
  { destruct Hn as (? & ? & ? & ? & Hin & _). by apply elem_of_nil in Hin. }
  rewrite do_calls_cons in *.
  destruct (do_call c0 st) as [[] st1|st1] eqn:Hc0; [|done].
  apply names_cons in Hn as [(src & dst & o & i & Hin & Hsl)|Hn];
    [|by apply IH].
  apply elem_of_cons in Hin as [<-|Hin]; [|by apply elem_of_nil in Hin].
  simpl in Hc0.
  destruct (Connect_slots st src dst o i) as (_ & _ & _ & _ & _ & _ & Hok).
  rewrite Hc0 in Hok. simpl in Hok. destruct (Hok eq_refl) as [Hd Hs].
  destruct (do_calls_grown cs st1) as (_ & _ & _ & _ & Hbound & _).
  destruct Hsl as [<-|<-]; eauto.
Qed.

Lemma bound_lookup (io : ioBlock B) :
  bound io <->
  (forall p, (p < length (b_In io))%nat -> exists c, b_In io !! p = Some (Some c))
  /\ (forall p, (p < length (b_Out io))%nat ->
        exists c, b_Out io !! p = Some (Some c)).
Proof.
  assert (Hl : forall l : list port,
    Forall is_Some l <->
    forall p, (p < length l)%nat -> exists c, l !! p = Some (Some c)).
  { intros l. rewrite Forall_lookup. split.
    - intros Hall p Hp. destruct (lookup_lt_is_Some_2 l p Hp) as [x Hx].
      destruct (Hall p x Hx) as [c ->]. eauto.
    - intros Hall p x Hx.
      destruct (Hall p (lookup_lt_Some _ _ _ Hx)) as [c Hc].
      rewrite Hx in Hc. injection Hc as ->. by eexists. }
  unfold bound. by rewrite !Hl.
Qed.

(** X5.  A system set up from the zero [System] by calls that all
    return passes [check] exactly when every input port and every
    output port of every block is named, as destination or as source,
    by one of the [Connect] calls. *)
Theorem check_passes_iff_every_port_connected (cs : list (call F B)) n :
  returned (do_calls cs {| sys := System_zero; next_chan := n |}) = true ->
  System_check
    (sys (store_of (do_calls cs {| sys := System_zero; next_chan := n |})))
    = None
  <-> (forall k io,
         blocks (sys (store_of
                   (do_calls cs {| sys := System_zero; next_chan := n |})))
           !! k = Some io ->
         (forall p, (p < length (b_In io))%nat -> names cs (blk_in k p))
         /\ (forall p, (p < length (b_Out io))%nat ->
               names cs (blk_out k p))).
Proof.
  intros Hret.
  set (st0 := {| sys := System_zero; next_chan := n |}) in *.
  set (s := sys (store_of (do_calls cs st0))).
  unfold System_check. rewrite check_blocks_None, Forall_lookup.
  assert (Hzero : forall sl c,
            read (sys st0) sl = Some (Some c) -> False).
  { intros [k p|k p|p|p] c; simpl; done. }
  split.
  - intros Hall k io Hio.
    destruct (proj1 (bound_lookup io) (Hall k io Hio)) as [Hi Ho].
    split; intros p Hp.
    + destruct (Hi p Hp) as [c Hc].
      rewrite <- (read_blk_in s k p io Hio) in Hc.
      by destruct (bound_is_named cs st0 _ Hzero _ _ Hc).
    + destruct (Ho p Hp) as [c Hc].
      rewrite <- (read_blk_out s k p io Hio) in Hc.
      by destruct (bound_is_named cs st0 _ Hzero _ _ Hc).
  - intros Hall k io Hio. apply bound_lookup.
    destruct (Hall k io Hio) as [Hi Ho].
    split; intros p Hp.
    + rewrite <- (read_blk_in s k p io Hio).
      apply named_is_bound; auto.
    + rewrite <- (read_blk_out s k p io Hio).
      apply named_is_bound; auto.
Qed.

End Building.

(** ** The order in which [check] looks *)

Section CheckOrder.
Context {F : Type} `{Num F} {World : Type} {B : Type} `{Block F World B}.

Lemma check_ports_first i d k (l : list port) j :
  l !! j = Some None -> Forall is_Some (take j l) ->
  check_ports i d k l = Some (not_connected i d (k + j)).
Proof.
  revert k j. induction l as [|[c|] l IH]; intros k j Hj Hbefore;
    [done| |].
  - destruct j as [|j]; [done|]. simpl in *.
    rewrite (IH (S k) j); [f_equal; f_equal; lia | done |].
    by inversion Hbefore.
  - destruct j as [|j]; simpl.
    + f_equal. f_equal. lia.
    + simpl in Hbefore. inversion Hbefore as [|? ? [? ?]]. done.
Qed.

Lemma check_blocks_first i0 (bs : list (ioBlock B)) j b d k :
  bs !! j = Some b -> Forall bound (take j bs) ->
  ports d b !! k = Some None -> Forall is_Some (take k (ports d b)) ->
  (d = output_port -> Forall is_Some (b_In b)) ->
  check_blocks i0 bs = Some (not_connected (i0 + j) d k).
Proof.
  revert i0 j. induction bs as [|b0 bs IH]; intros i0 j Hj Hbefore Hk Hkb Hin;
    [done|].
  destruct j as [|j]; simpl in *.
  - injection Hj as ->. rewrite Nat.add_0_r. destruct d; simpl in *.
    + by rewrite (check_ports_first i0 input_port 0 (b_In b) k).
    + rewrite (proj2 (check_ports_None i0 input_port 0 (b_In b))) by auto.
      by rewrite (check_ports_first i0 output_port 0 (b_Out b) k).
  - inversion Hbefore as [|? ? [Hb0i Hb0o] Hrest]; subst.
    rewrite (proj2 (check_ports_None i0 input_port 0 (b_In b0))) by done.
    rewrite (proj2 (check_ports_None i0 output_port 0 (b_Out b0))) by done.
    rewrite (IH (S i0) j); [f_equal; f_equal; lia | done..].
Qed.

Lemma check_blocks_Some_first i0 (bs : list (ioBlock B)) i d k :
  check_blocks i0 bs = Some (not_connected i d k) ->
  exists j b, i = (i0 + j)%nat /\ bs !! j = Some b
              /\ Forall bound (take j bs)
              /\ ports d b !! k = Some None
              /\ Forall is_Some (take k (ports d b))
              /\ (d = output_port -> Forall is_Some (b_In b)).
Proof.
  revert i0. induction bs as [|b bs IH]; intros i0; simpl; [done|].
  destruct (check_ports i0 input_port 0 (b_In b)) eqn:Hin.
  { intros [= ->].
    apply check_ports_Some in Hin as (j & [= -> -> ->] & Hj & Hb).
    exists 0%nat, b. split; [lia|]. by repeat split. }
  destruct (check_ports i0 output_port 0 (b_Out b)) eqn:Hout.
  { intros [= ->].
    apply check_ports_Some in Hout as (j & [= -> -> ->] & Hj & Hb).
    exists 0%nat, b. split; [lia|]. repeat split; try done.
    intros _. by eapply check_ports_None. }
  intros (j & b' & -> & Hj & Hbefore & Hk & Hkb & Hi)%IH.
  exists (S j), b'. split; [lia|]. repeat split; try done.
  simpl. constructor; [|done].
  split; by eapply check_ports_None.
Qed.

(** X6.  The error of [check] names the first nil port and no other:
    [check] returns "block i input k is not connected" (or "output k")
    exactly when every block before block [i] has all its ports bound,
    port [k] of block [i] in that direction is nil, the ports before
    it in that direction are bound, and, for an output, all the inputs
    of block [i] are bound. *)
Theorem check_reports_first_unbound_port (s : System F B) i d k :
  System_check s = Some (not_connected i d k) <-> first_unbound s i d k.
Proof.
  unfold System_check, first_unbound. split.
  - intros (j & b & -> & Hj & Hbefore & Hk & Hkb & Hi)%check_blocks_Some_first.
    exists b. by repeat split.
  - intros (b & Hb & Hbefore & Hk & Hkb & Hi).
    by rewrite (check_blocks_first 0 (blocks s) i b d k).
Qed.

End CheckOrder.

(** ** The standard blocks *)

Section StdBlocks.
Context {F : Type} `{Num F} {World : Type}.
Variable DT : F.
Variable println : F -> F -> World -> World.

Lemma list_length_1 {A} (l : list A) :
  length l = 1%nat -> exists a, l = [a].
Proof. destruct l as [|a [|]]; try done. eauto. Qed.

Lemma list_length_2 {A} (l : list A) :
  length l = 2%nat -> exists a b, l = [a; b].
Proof. destruct l as [|a [|b [|]]]; try done. eauto. Qed.

(** X7.  Called on slices of the lengths it declares, no standard block
    panics.  Its [Step] returns, leaves the block with the same numbers
    of inputs and outputs, and says stop exactly when the block is a
    [Stop] block whose clock, [DT] added, has reached its stop time. *)
Theorem standard_blocks_fit_their_arity (b : StdBlock F World) x y w :
  length x = Std_Inputs b -> length y = Std_Outputs b ->
  exists b' y' w',
    Std_Step DT println b x y w = Some (b', y', w', negb (stopping DT b))
    /\ Std_Inputs b' = Std_Inputs b /\ Std_Outputs b' = Std_Outputs b
    /\ length y' = length y.
Proof.
  destruct b; simpl; intros Hx Hy;
    repeat match goal with
      | Hl : length _ = 1%nat |- _ => apply list_length_1 in Hl as [? ->]
      | Hl : length _ = 2%nat |- _ => apply list_length_2 in Hl as (? & ? & ->)
      | Hl : length _ = 0%nat |- _ => apply length_zero_iff_nil in Hl as ->
      end;
    try (by eexists _, _, _).
  unfold Stop_Step, wrap; simpl.
  destruct (nge _ _); simpl; by eexists _, _, _.
Qed.

(** With the standard blocks as the blocks of the system. *)
Lemma Std_safe : safe (H0:=Std_Block DT println) (fun _ => True).
Proof.
  intros b x y w _. simpl. destruct b; simpl; intros Hx Hy;
    repeat match goal with
      | Hl : length _ = 1%nat |- _ => apply list_length_1 in Hl as [? ->]
      | Hl : length _ = 2%nat |- _ => apply list_length_2 in Hl as (? & ? & ->)
      | Hl : length _ = 0%nat |- _ => apply length_zero_iff_nil in Hl as ->
      end;
    try (by eexists _, _, _, _).
  unfold Stop_Step, wrap; simpl.
  destruct (nge _ _); simpl; by eexists _, _, _, _.
Qed.

Lemma drive_Print (p : Print F) (k : nat) xs y w :
  time p = elapsed DT k ->
  drive (Print_Step DT println) p y w (wires xs) =
    (replicate (length xs) y, {| time := elapsed DT (k + length xs) |},
     printed DT println k xs w, false).
Proof.
  revert p k w. induction xs as [|x xs IH]; intros [t0] k w Ht; simpl in *.
  - subst. by rewrite Nat.add_0_r.
  - unfold Print_Step at 1. simpl.
    rewrite (IH _ (S k)); [|by subst].
    subst. by replace (S k + length xs)%nat with (k + S (length xs))%nat by lia.
Qed.

(** X8.  A [Print] block whose clock starts at zero prints its [k]-th
    input (from 0) together with the time [DT] added [k] times to zero,
    in the order of the inputs; it never says stop, never touches its
    output slice, and after [n] inputs its clock is [DT] added [n]
    times. *)
Theorem Print_stamps_each_value (p : Print F) xs y w :
  time p = nzero ->
  drive (Print_Step DT println) p y w (wires xs) =
    (replicate (length xs) y, {| time := elapsed DT (length xs) |},
     printed DT println 0 xs w, false).
Proof. intros Ht. by rewrite (drive_Print p 0 xs y w Ht). Qed.

End StdBlocks.

(** *** [Integrate] in binary64 *)

(** X9.  In binary64, with a finite [DT]: an [Integrate] block whose
    state [x0] is not NaN, stepped on inputs that are all zero (of
    either sign), never says stop, and its state and every value it
    puts out compare equal ([==]) to [x0]. *)
Theorem Integrate_holds_state_on_zero_input {World} (DT x0 : float)
    xs y0 (w : World) :
  PrimFloat.is_finite DT = true ->
  PrimFloat.is_nan x0 = false ->
  Forall (fun x => PrimFloat.is_zero x = true) xs ->
  exists sent b,
    drive (Integrate_Step DT) {| State := x0 |} [y0] w (wires xs)
      = (sent, b, w, false)
    /\ length sent = length xs
    /\ (State b =? x0)%float = true
    /\ forall k out, sent !! k = Some out ->
         exists v, out = [v] /\ (v =? x0)%float = true.
Proof.
  intros HDT Hnan Hxs.
  destruct (drive_Integrate_zero DT x0 x0 xs y0 w HDT Hxs)
    as (sent & b & Hd & Hl & Hb & Hout); [by left|].
  exists sent, b. split; [done|]. split; [done|].
  split; [by apply same_eqb|].
  intros k out Hk. destruct (Hout k out Hk) as (v & -> & Hv).
  exists v. split; [done | by apply same_eqb].
Qed.

(** *** [Integrate] without rounding *)

Section ExactIntegrate.
Local Open Scope Q_scope.

(** X10.  In exact arithmetic, an [Integrate] block with state [x0]
    stepped [n] times on the constant input [c] never says stop, puts
    out [x0 + k * c * DT] at step [k] (from 1) and ends with the state
    [x0 + n * c * DT]; on zero inputs its output stays [x0]. *)
Theorem Integrate_constant_input_exact (DT x0 c : Q) {World} (n : nat) y0
    (w : World) :
  exists sent b,
    drive (Integrate_Step DT) {| State := x0 |} [y0] w (wires (replicate n c))
      = (sent, b, w, false)
    /\ State b == x0 + inject_Z (Z.of_nat n) * c * DT
    /\ length sent = n
    /\ forall k out, sent !! k = Some out ->
         exists v, out = [v] /\ v == x0 + inject_Z (Z.of_nat (S k)) * c * DT.
Proof.
  revert x0 y0. induction n as [|n IH]; intros x0 y0.
  - simpl. eexists _, _. split; [reflexivity|]. simpl.
    split; [ring|]. split; [done|]. intros k out Hk. done.
  - cbn [replicate wires fmap list_fmap drive].
    change (Integrate_Step DT {| State := x0 |} [c] [y0] w)
      with (Some ({| State := x0 + c * DT |}, [x0 + c * DT], w, true)).
    cbv beta iota.
    destruct (IH (x0 + c * DT) (x0 + c * DT)) as (sent & b & Hd & Hb & Hl & Hs).
    unfold wires in Hd. rewrite Hd.
    eexists _, _. split; [reflexivity|].
    assert (Hn : inject_Z (Z.of_nat (S n)) == inject_Z (Z.of_nat n) + 1).
    { rewrite Nat2Z.inj_succ. unfold Z.succ. rewrite inject_Z_plus.
      reflexivity. }
    split; [rewrite Hb, Hn; ring|]. split; [simpl; lia|].
    intros [|k] out Hk; simpl in Hk.
    + injection Hk as <-. eexists. split; [reflexivity|].
      change (inject_Z (Z.of_nat 1)) with 1. ring.
    + destruct (Hs k out Hk) as (v & -> & Hv). exists v. split; [done|].
      rewrite Hv.
      assert (Hk' : inject_Z (Z.of_nat (S (S k)))
                    == inject_Z (Z.of_nat (S k)) + 1).
      { rewrite (Nat2Z.inj_succ (S k)). unfold Z.succ.
        rewrite inject_Z_plus. reflexivity. }
      rewrite Hk'. ring.
Qed.

End ExactIntegrate.

(** ** What every run keeps *)

Section Invariants.
Context {F : Type} `{Num F} {World : Type} {B : Type} `{Block F World B}.
Variable closed : chan -> bool.
Implicit Types (c : config F World B) (w : worker F B) (s : System F B).

Lemma stable_exec (Q : worker F B -> Prop) ch c c' :
  stable closed Q ->
  (forall io, io ∈ blocks (c_sys c) -> Q (spawn io)) ->
  Forall Q (c_workers c) -> exec closed ch c = Some c' ->
  Forall Q (c_workers c').
Proof.
  intros (Hl & Hr & Hs & Hn & Hp) Hspawn Hws Hex.
  exec_inv Hex; cbn [c_workers with_worker].
  - unfold m_local in Hml.
    destruct (c_main c) as [i|j| | |]; try discriminate Hmop.
    + destruct (blocks (c_sys c) !! i) as [io|] eqn:Hio;
        injection Hml as <- <-; [|done].
      apply Forall_app. split; [done|]. constructor; [|done].
      apply Hspawn. by eapply list_elem_of_lookup_2.
    + destruct (initials (c_sys c) !! j); by injection Hml as <- <-.
  - apply Forall_insert; [done|].
    pose proof (Hl w (c_world c) (Forall_lookup_1 _ _ _ _ Hws Hk) Hwop) as Hq.
    by rewrite Hwl in Hq.
  - apply Forall_insert; [done|].
    eapply Hr; [by eapply Forall_lookup_1 | done].
  - apply Forall_insert.
    + apply Forall_insert; [done|].
      eapply Hs; [by eapply Forall_lookup_1 | done].
    + eapply Hr; [by eapply Forall_lookup_1 | done].
  - apply Forall_insert; [done|].
    eapply Hn; [by eapply Forall_lookup_1 | done].
  - apply Forall_insert; [done|].
    eapply Hr; [by eapply Forall_lookup_1 | done].
  - apply Forall_insert; [done|].
    eapply Hp; [by eapply Forall_lookup_1 | done | done].
  - done.
Qed.

Lemma w_op_local_pc w :
  w_op w = op_local ->
  w_pc w = WCall \/ (exists i, w_pc w = WRecv i) \/ (exists i, w_pc w = WSend i).
Proof.
  unfold w_op. destruct (w_pc w) as [i| | |i| |]; try done; eauto.
Qed.

Lemma w_op_notify_pc w : w_op w = op_notify -> w_pc w = WNotify.
Proof.
  unfold w_op. destruct (w_pc w) as [i| | |i| |]; try done.
  - by destruct (w_in w !! i).
  - by destruct (w_out w !! i).
Qed.

Lemma going_stable (P : B -> Prop) : never_stops P -> stable closed (going P).
Proof.
  intros HP. unfold going. split; [|split; [|split; [|split]]].
  - intros w wd [Hb Hpc] Hop. unfold w_local.
    destruct (w_op_local_pc w Hop) as [->|[[i ->]| [i ->]]]; simpl; try done.
    destruct (Step _ _ _ _) as [[[[b' y'] wd'] ok]|] eqn:HS; simpl; [|done].
    by destruct (HP _ _ _ _ _ _ _ _ Hb HS) as [-> ?].
  - intros w p v ok [Hb _] (i & Hpc & _)%w_op_recv.
    unfold w_received. rewrite Hpc. simpl. by destruct ok.
  - intros w p v [Hb _] (i & Hpc & _)%w_op_send.
    unfold w_sent. by rewrite Hpc.
  - intros w [_ Hpc] Hop%w_op_notify_pc. done.
  - intros w a v [Hb _] _ _. done.
Qed.

Lemma not_returned_exec ch c c' :
  Forall (fun w => w_pc w <> WNotify) (c_workers c) ->
  exec closed ch c = Some c' ->
  c_main c <> MReturn None -> c_main c' <> MReturn None.
Proof.
  intros Hws Hex Hm. exec_inv Hex; cbn [c_main with_worker]; try done.
  - unfold m_local in Hml.
    destruct (c_main c) as [i|j| | |]; try discriminate Hmop.
    + by destruct (blocks (c_sys c) !! i); injection Hml as <- <-.
    + by destruct (initials (c_sys c) !! j); injection Hml as <- <-.
  - by destruct (c_main c).
  - apply w_op_notify_pc in Hwop.
    by pose proof (Forall_lookup_1 _ _ _ _ Hws Hk).
Qed.

(** X11.  [Start] returns nil only after a block has said stop: on a
    system whose blocks never do, whatever the schedule and whichever
    channels are closed, [Start] does not return nil. *)
Theorem Start_returns_nil_only_after_a_stop (P : B -> Prop) s
    (wd : World) sched c :
  never_stops P ->
  Forall (fun io => P (b_Block io)) (blocks s) ->
  run closed sched (start_config s wd) = Some c ->
  c_main c <> MReturn None.
Proof.
  intros HP Hs.
  assert (Hgen : forall sched c0,
    c_sys c0 = s -> Forall (going P) (c_workers c0) ->
    c_main c0 <> MReturn None ->
    run closed sched c0 = Some c -> c_main c <> MReturn None).
  { clear sched. intros sched. induction sched as [|ch sched IH];
      intros c0 Hsys Hws Hm; simpl.
    - by intros [= <-].
    - destruct (exec closed ch c0) as [c1|] eqn:Hex; [|done]. simpl.
      apply IH.
      + by rewrite (exec_sys _ _ _ _ Hex).
      + eapply stable_exec; [by apply going_stable| |done|done].
        rewrite Hsys. intros io Hio. split; [|done]. simpl.
        by eapply Forall_forall in Hs.
      + eapply not_returned_exec; [|done|done].
        eapply Forall_impl; [exact Hws|]. by intros w [_ ?]. }
  apply Hgen; [done | constructor |].
  unfold start_config, System_Start. simpl. by destruct (System_check s).
Qed.

(** *** After [Start] has returned *)

Lemma returned_exec ch c c' e :
  c_main c = MReturn e -> exec closed ch c = Some c' ->
  c_main c' = MReturn e
  /\ forall k w, c_workers c !! k = Some w -> w_pc w = WNotify ->
       c_workers c' !! k = Some w.
Proof.
  intros Hm Hex.
  exec_inv Hex; cbn [c_main c_workers with_worker];
    rewrite ?Hm in *; try discriminate; (split; [done|]).
  - (* worker_local *)
    intros k wn Hk1 Hpc. destruct (decide (k = kx)) as [->|Hne].
    + exfalso. assert (wn = w) as -> by congruence.
      unfold w_op in Hwop. by rewrite Hpc in Hwop.
    + by rewrite list_lookup_insert_ne.
  - (* value_passed *)
    intros k wn Hk1 Hpc.
    destruct (decide (k = ky)) as [->|Hne1].
    { exfalso. assert (wn = w0) as -> by congruence.
      unfold w_op in Hwop0. by rewrite Hpc in Hwop0. }
    rewrite list_lookup_insert_ne by done.
    destruct (decide (k = kx)) as [->|Hne2].
    { exfalso. assert (wn = w) as -> by congruence.
      unfold w_op in Hwop. by rewrite Hpc in Hwop. }
    by rewrite list_lookup_insert_ne.
  - (* closed_recv *)
    intros k wn Hk1 Hpc. destruct (decide (k = kx)) as [->|Hne].
    + exfalso. assert (wn = w) as -> by congruence.
      unfold w_op in Hwop. by rewrite Hpc in Hwop.
    + by rewrite list_lookup_insert_ne.
  - (* closed_send *)
    intros k wn Hk1 Hpc. destruct (decide (k = kx)) as [->|Hne].
    + exfalso. assert (wn = w) as -> by congruence.
      unfold w_op in Hwop. by rewrite Hpc in Hwop.
    + by rewrite list_lookup_insert_ne.
Qed.

(** X12.  [Start] receives on [done] once.  After it has returned,
    with nil or with an error, it stays returned whatever the workers
    go on to do, and a worker whose block says stop later stays
    blocked on its send on [done] for ever: it never exits. *)
Theorem Start_returns_once sched c c' e :
  c_main c = MReturn e -> run closed sched c = Some c' ->
  c_main c' = MReturn e
  /\ forall k w, c_workers c !! k = Some w -> w_pc w = WNotify ->
       c_workers c' !! k = Some w.
Proof.
  revert c. induction sched as [|ch sched IH]; intros c Hm; simpl.
  - intros [= <-]. auto.
  - destruct (exec closed ch c) as [c1|] eqn:Hex; [|done]. simpl.
    intros Hrun.
    destruct (returned_exec _ _ _ _ Hm Hex) as [Hm1 Hw1].
    destruct (IH c1 Hm1 Hrun) as [Hm' Hw'].
    split; [done|]. intros k w Hk Hpc. apply Hw'; [|done]. by apply Hw1.
Qed.

End Invariants.

(** *** No panic *)

Section NoPanic.
Context {F : Type} `{Num F} {World : Type} {B : Type} `{Block F World B}.
Implicit Types (c : config F World B) (w : worker F B) (s : System F B).

Lemma sound_stable (P : B -> Prop) : safe P -> stable no_close (sound P).
Proof.
  intros HP. unfold sound. split; [|split; [|split; [|split]]].
  - intros w wd (Hx & Hy & Hb & Hpc) Hop. unfold w_local.
    destruct (w_op_local_pc w Hop) as [->|[[i ->]| [i ->]]]; simpl; try done.
    destruct (HP _ _ _ wd Hb Hx Hy) as (b' & y' & wd' & ok & HS & Hb' & Hi & Ho).
    rewrite HS. simpl. rewrite Hi, Ho.
    rewrite (Step_length _ _ _ _ _ _ _ _ HS).
    repeat split; try done. by destruct ok.
  - intros w p v ok (Hx & Hy & Hb & _) (i & Hpc & _)%w_op_recv.
    unfold w_received. rewrite Hpc. simpl. rewrite length_insert.
    repeat split; try done. by destruct ok.
  - intros w p v (Hx & Hy & Hb & _) (i & Hpc & _)%w_op_send.
    unfold w_sent. by rewrite Hpc.
  - intros w (Hx & Hy & Hb & _) Hop%w_op_notify_pc.
    unfold w_sent. by rewrite Hop.
  - intros w a v _ _ Hc. done.
Qed.

Lemma not_panicked_exec ch c c' :
  Forall (ic_in_range (c_sys c)) (initials (c_sys c)) ->
  exec no_close ch c = Some c' ->
  c_main c <> MPanic -> c_main c' <> MPanic.
Proof.
  intros Hics Hex Hm. exec_inv Hex; cbn [c_main with_worker]; try done.
  - unfold m_local in Hml.
    destruct (c_main c) as [i|j| | |]; try discriminate Hmop.
    + by destruct (blocks (c_sys c) !! i); injection Hml as <- <-.
    + simpl in Hmop.
      destruct (initials (c_sys c) !! j) as [ic|] eqn:Hj;
        injection Hml as <- <-; [|done].
      pose proof (Forall_lookup_1 _ _ _ _ Hics Hj) as [x Hx]%ic_target_Some.
      by rewrite Hx in Hmop.
  - by destruct (c_main c).
  - by destruct (c_main c).
Qed.

Lemma crashed_false c :
  c_main c <> MPanic -> Forall (fun w => w_pc w <> WPanic) (c_workers c) ->
  crashed c = false.
Proof.
  intros Hm Hws. unfold crashed.
  assert (existsb w_panicked (c_workers c) = false) as ->.
  { induction Hws as [|w ws Hw Hws IH]; [done|]. simpl. rewrite IH.
    unfold w_panicked. by destruct (w_pc w). }
  by destruct (c_main c).
Qed.

Lemma never_panics (P : B -> Prop) s (wd : World) sched c :
  safe P ->
  Forall (fun io => arity_ok io /\ P (b_Block io)) (blocks s) ->
  Forall (ic_in_range s) (initials s) ->
  run no_close sched (start_config s wd) = Some c ->
  crashed c = false.
Proof.
  intros HP Hs Hics.
  assert (Hgen : forall sched c0,
    c_sys c0 = s -> Forall (sound P) (c_workers c0) ->
    c_main c0 <> MPanic ->
    run no_close sched c0 = Some c -> crashed c = false).
  { clear sched. intros sched. induction sched as [|ch sched IH];
      intros c0 Hsys Hws Hm; simpl.
    - intros [= <-]. apply crashed_false; [done|].
      eapply Forall_impl; [exact Hws|]. by intros w (_ & _ & _ & ?).
    - destruct (exec no_close ch c0) as [c1|] eqn:Hex; [|done]. simpl.
      apply IH.
      + by rewrite (exec_sys _ _ _ _ Hex).
      + eapply stable_exec; [by apply sound_stable| |done|done].
        rewrite Hsys. intros io Hio.
        eapply Forall_forall in Hs as [[Hi Ho] Hb]; [|done].
        unfold sound, spawn. simpl. rewrite !length_replicate. done.
      + eapply not_panicked_exec; [|done|done]. by rewrite Hsys. }
  apply Hgen; [done | constructor |].
  unfold start_config, System_Start. simpl. by destruct (System_check s).
Qed.


(** X13.  When every block has as many ports as it declares (as [Add]
    makes them), no block panics on slices of these lengths, every
    recorded initial condition names an input port that exists and
    nobody closes a channel, no goroutine of [Start] ever panics,
    whatever the schedule: the buffers a worker hands to [Step] always
    have the lengths the block declares.  A nil port is no exception:
    its worker blocks. *)
Theorem no_goroutine_panics (P : B -> Prop) s (wd : World) sched c :
  safe P ->
  Forall (fun io => arity_ok io /\ P (b_Block io)) (blocks s) ->
  Forall (ic_in_range s) (initials s) ->
  run no_close sched (start_config s wd) = Some c ->
  crashed c = false.
Proof.
  intros HP Hs Hics Hrun.
  pose proof (never_panics P s wd sched c HP Hs Hics Hrun) as Hc.
  unfold crashed in *. by destruct (c_main c).
Qed.

End NoPanic.

(** X14.  A system of standard blocks set up through [Add], [AddIC] and
    [Connect] from the zero [System] never panics in [Start]: whatever
    the calls were and whether or not they all returned, if every
    recorded initial condition names an input port that exists and
    nobody closes a channel, then in every run of [Start] on that
    system no goroutine panics. *)
Theorem standard_systems_never_panic
    {F : Type} `{Num F} {World : Type} (DT : F)
    (println : F -> F -> World -> World)
    (cs : list (call F (StdBlock F World))) n (wd : World) sched c :
  Forall (ic_in_range
            (sys (store_of (do_calls (H0:=Std_Block DT println) cs
                              {| sys := System_zero; next_chan := n |}))))
         (initials
            (sys (store_of (do_calls (H0:=Std_Block DT println) cs
                              {| sys := System_zero; next_chan := n |})))) ->
  run (H0:=Std_Block DT println) no_close sched
      (start_config
         (sys (store_of (do_calls (H0:=Std_Block DT println) cs
                           {| sys := System_zero; next_chan := n |})))
         wd)
    = Some c ->
  crashed c = false.
Proof.
  intros Hics Hrun.
  destruct (do_calls_well_formed (H0:=Std_Block DT println) (World:=World)
              cs {| sys := System_zero; next_chan := n |}
              (zero_well_formed n)) as (_ & _ & Har).
  eapply (never_panics (H0:=Std_Block DT println) (fun _ => True));
    [apply Std_safe | | exact Hics | exact Hrun].
  eapply Forall_impl; [exact Har|]. by intros io Hio.
Qed.

(** ** The cycle of two blocks, its data *)

Section Hand.
Context {F : Type} `{Num F} {World : Type} {B : Type} `{Block F World B}.

Variable P : B -> Prop.
Hypothesis HP : perpetual P.

Variables (sin sout : list port) (init : bool).
Variables (A B' : B) (a b : chan) (v : F).
Hypothesis Hab : a <> b.
Hypothesis HA : P A.
Hypothesis HB : P B'.
Variable wd0 : World.

Implicit Types (wd : World) (c : config F World B).

#[local] Abbreviation ioA := (ioA A a b).
#[local] Abbreviation ioB := (ioB B' a b).
#[local] Abbreviation ring_system := (ring_system sin sout init A B' a b).
#[local] Abbreviation seed := (seed v).
#[local] Abbreviation Inv := (Inv P sin sout init A B' a b v).
#[local] Abbreviation hand := (by_hand A B' v).
#[local] Abbreviation DInv := (fun seedB => DataInv A B' v seedB wd0 a b).

Lemma hand_S seedB n :
  hand seedB wd0 (S n) =
    (d ← hand seedB wd0 n;
     if Nat.even n then step_first v n d else step_second d).
Proof. reflexivity. Qed.

Lemma hand_first seedB k d b' y' wd' ok :
  hand seedB wd0 (k + k) = Some d ->
  Step (d_first d) (match k with O => [v] | _ => d_second_out d end)
       (d_first_out d) (d_world d) = Some (b', y', wd', ok) ->
  hand seedB wd0 (S (k + k)) =
    Some {| d_first := b'; d_first_out := y'; d_second := d_second d;
            d_second_out := d_second_out d; d_world := wd' |}.
Proof.
  intros Hd HS. rewrite hand_S, Hd. cbn [mbind option_bind].
  assert (Nat.even (k + k) = true) as ->.
  { replace (k + k)%nat with (2 * k)%nat by lia.
    by rewrite Nat.even_mul. }
  unfold step_first.
  replace (match (k + k)%nat with O => [v] | S _ => d_second_out d end)
    with (match k with O => [v] | S _ => d_second_out d end)
    by (by destruct k).
  by rewrite HS.
Qed.

Lemma hand_second seedB k d b' y' wd' ok :
  hand seedB wd0 (S (k + k)) = Some d ->
  Step (d_second d) (d_first_out d) (d_second_out d) (d_world d)
    = Some (b', y', wd', ok) ->
  hand seedB wd0 (S (S (k + k))) =
    Some {| d_first := d_first d; d_first_out := d_first_out d;
            d_second := b'; d_second_out := y'; d_world := wd' |}.
Proof.
  intros Hd HS. rewrite hand_S, Hd. cbn [mbind option_bind].
  assert (Nat.even (S (k + k)) = false) as ->.
  { replace (S (k + k))%nat with (2 * k + 1)%nat by lia.
    by rewrite Nat.even_add, Nat.even_mul. }
  unfold step_second. by rewrite HS.
Qed.

Ltac get_step H :=
  match type of H with
  | context [Step ?blk ?x ?y ?wd] =>
      let E := fresh "E" in
      let HP' := fresh "HP'" in
      destruct (HP blk x y wd) as (? & ? & ? & E & HP');
      [done..|]; rewrite E in H; cbn in H
  end.

(** No call was made, or the first block's, or the second's. *)
Ltac hand_eq Hd HxT HxO :=
  first
    [ rewrite <- Hd; f_equal; lia
    | match goal with
      | E : Step _ _ _ _ = Some _, k : nat |- _ ?n = _ =>
          match type of Hd with
          | _ ?m = _ =>
              replace m with (k + k)%nat in Hd by lia;
              replace n with (S (k + k)) by lia;
              refine (hand_first _ k _ _ _ _ true Hd _);
              cbn [d_first d_first_out d_second d_second_out d_world];
              rewrite <- HxT by auto; exact E
          end
      end
    | match goal with
      | E : Step _ _ _ _ = Some _, k : nat |- _ ?n = _ =>
          match type of Hd with
          | _ ?m = _ =>
              replace m with (S (k + k))%nat in Hd by lia;
              replace n with (S (S (k + k))) by lia;
              refine (hand_second _ k _ _ _ _ true Hd _);
              cbn [d_first d_first_out d_second d_second_out d_world];
              rewrite <- HxO by auto; exact E
          end
      end ].

Ltac await_eq HxT HxO :=
  let Hq := fresh "Hq" in
  intros [Hq|Hq]; try discriminate Hq;
  first
    [ apply HxT; auto
    | apply HxO; auto
    | repeat match goal with
        | |- context [match ?c with O => _ | S _ => _ end] =>
            destruct c; [try lia|]
        end; first [reflexivity | lia] ].

Lemma DInv_step seedB ch c c' :
  Inv seedB c -> DInv seedB c -> exec no_close ch c = Some c' ->
  DInv seedB c'.
Proof.
  destruct c as [s m ws wd]. intros [Hs HI] HD; simpl in Hs; subst s.
  simpl in HI. unfold DataInv in HD. cbn [c_main c_workers c_world] in HD.
  destruct m as [[|[|[|i]]]|[|[|j]]| | |]; try done;
    destruct ws as [|w0 [|w1 [|w2 ws]]]; try done.
  - destruct HD as [_ ->].
    intros Hex. destruct ch; cbn in Hex; lookups Hex; try discriminate Hex.
    injection Hex as <-. split; [|done]. by repeat constructor.
  - destruct HD as [HF ->]. cbn in HF.
    inversion HF as [|? ? ? ? -> _]; subst.
    intros Hex. destruct ch; cbn in Hex; lookups Hex; try discriminate Hex.
    injection Hex as <-. split; [|done]. by repeat constructor.
  - destruct HD as [HF ->]. cbn in HF.
    inversion HF as [|? ? ? ? -> HF']; subst.
    inversion HF' as [|? ? ? ? -> _]; subst.
    intros Hex. destruct ch; cbn in Hex; lookups Hex; try discriminate Hex.
    injection Hex as <-. split; [|done]. by repeat constructor.
  - destruct HD as [HF ->]. cbn in HF.
    inversion HF as [|? ? ? ? -> HF']; subst.
    inversion HF' as [|? ? ? ? -> _]; subst.
    intros Hex. destruct seedB;
      destruct ch; cbn in Hex; lookups Hex; norm Hex; try done;
      try discriminate Hex; injection Hex as <-;
      unfold DataInv, awaiting; cbn;
      (split; [done|]); split; intros [?|?]; done.
  - destruct w0 as [i0 o0 b0 x0 y0 pc0 c0], w1 as [i1 o1 b1 x1 y1 pc1 c1].
    destruct HI as ((Hi0 & Ho0 & Hx0 & Hy0 & Hb0)
                    & (Hi1 & Ho1 & Hx1 & Hy1 & Hb1) & Hring); cbn in *; subst.
    destruct x0 as [|x0 [|]]; try done; destruct y0 as [|y0 [|]]; try done;
    destruct x1 as [|x1 [|]]; try done; destruct y1 as [|y1 [|]]; try done.
    intros Hex. destruct seedB;
      destruct pc0 as [[|[|?]]| | |[|[|?]]| |]; try done;
      destruct pc1 as [[|[|?]]| | |[|[|?]]| |]; try done;
      destruct ch; cbn in Hex; lookups Hex; norm Hex;
      try get_step Hex; try done; try discriminate Hex;
      injection Hex as <-.
    all: unfold DataInv, awaiting, total_calls, data_of, calls in *; cbn in *.
    all: rewrite ?Nat.add_0_r, ?Nat.add_1_r in *.
    all: destruct HD as (Hd & HxT & HxO).
    all: split; [hand_eq Hd HxT HxO
                |split; [await_eq HxT HxO | await_eq HxT HxO]].
  - destruct w0 as [i0 o0 b0 x0 y0 pc0 c0], w1 as [i1 o1 b1 x1 y1 pc1 c1].
    destruct HI as ((Hi0 & Ho0 & Hx0 & Hy0 & Hb0)
                    & (Hi1 & Ho1 & Hx1 & Hy1 & Hb1) & Hring); cbn in *; subst.
    destruct x0 as [|x0 [|]]; try done; destruct y0 as [|y0 [|]]; try done;
    destruct x1 as [|x1 [|]]; try done; destruct y1 as [|y1 [|]]; try done.
    intros Hex. destruct seedB;
      destruct pc0 as [[|[|?]]| | |[|[|?]]| |]; try done;
      destruct pc1 as [[|[|?]]| | |[|[|?]]| |]; try done;
      destruct ch; cbn in Hex; lookups Hex; norm Hex;
      try get_step Hex; try done; try discriminate Hex;
      injection Hex as <-.
    all: unfold DataInv, awaiting, total_calls, data_of, calls in *; cbn in *.
    all: rewrite ?Nat.add_0_r, ?Nat.add_1_r in *.
    all: destruct HD as (Hd & HxT & HxO).
    all: split; [hand_eq Hd HxT HxO
                |split; [await_eq HxT HxO | await_eq HxT HxO]].
Qed.

Lemma DInv_start seedB :
  DInv seedB (start_config (ring_system [seed seedB]) wd0).
Proof. split; [|done]. by destruct seedB; vm_compute; constructor. Qed.

Lemma DInv_run seedB sched c c' :
  Inv seedB c -> DInv seedB c -> run no_close sched c = Some c' ->
  Inv seedB c' /\ DInv seedB c'.
Proof.
  revert c. induction sched as [|ch sched IH]; intros c Hc Hd; simpl.
  - by intros [= <-].
  - destruct (exec no_close ch c) as [c1|] eqn:Hex; [|done]. simpl.
    apply IH.
    + by eapply Inv_step.
    + by eapply DInv_step.
Qed.

Lemma ring_by_hand seedB sched c :
  run no_close sched (start_config (ring_system [seed seedB]) wd0) = Some c ->
  length (c_workers c) = 2%nat ->
  by_hand A B' v seedB wd0 (total_calls c) = data_of seedB c.
Proof.
  intros Hrun Hlen.
  assert (HI0 : Inv seedB (start_config (ring_system [seed seedB]) wd0))
    by apply Inv_start.
  destruct (DInv_run seedB sched _ c HI0 (DInv_start seedB) Hrun)
    as [[_ HI] HD].
  unfold DataInv in HD.
  destruct (c_main c) as [[|[|[|i]]]|[|[|j]]| | |]; try done;
    destruct (c_workers c) as [|w0 [|w1 [|w2 ws]]] eqn:Hws; try done.
  - destruct HD as [HF Hw]. cbn in HF.
    apply Forall2_cons in HF as [E0 [E1 _]%Forall2_cons].
    unfold total_calls, data_of. rewrite Hws, Hw, E0, E1. by destruct seedB.
  - destruct HD as [HF Hw]. cbn in HF.
    apply Forall2_cons in HF as [E0 [E1 _]%Forall2_cons].
    unfold total_calls, data_of. rewrite Hws, Hw, E0, E1. by destruct seedB.
  - destruct seedB; by destruct HD as [Hd _].
  - destruct seedB; by destruct HD as [Hd _].
Qed.

End Hand.

(** X15.  The result of the seeded cycle of two blocks does not depend
    on the schedule.  Take two blocks in a cycle on two distinct edges,
    whose [Step] never says stop and never panics, and one initial
    condition.  Once both workers exist, whatever the schedule, the
    states of the two blocks, their output buffers and the world are
    those of the cycle run on one thread, the two blocks stepping in
    turn, for as many calls of [Step] as the workers have made; so two
    runs in which the workers have made equally many calls have the
    same data. *)
Theorem cycle_result_is_schedule_independent
    {F : Type} `{Num F} {World B : Type} `{Block F World B}
    (P : B -> Prop) sin sout init (A B' : B) (a b : chan) (v : F)
    seedB (wd : World) sched c :
  perpetual P -> P A -> P B' -> a <> b ->
  run no_close sched
      (start_config (ring_system sin sout init A B' a b [seed v seedB]) wd)
    = Some c ->
  length (c_workers c) = 2%nat ->
  by_hand A B' v seedB wd (total_calls c) = data_of seedB c
  /\ forall sched' c',
       run no_close sched'
           (start_config (ring_system sin sout init A B' a b [seed v seedB])
                         wd)
         = Some c' ->
       length (c_workers c') = 2%nat ->
       total_calls c' = total_calls c ->
       data_of seedB c' = data_of seedB c.
Proof.
  intros HP HA HB Hab Hrun Hlen.
  pose proof (ring_by_hand P HP sin sout init A B' a b v Hab HA HB wd
                           seedB sched c Hrun Hlen) as Hc.
  split; [done|].
  intros sched' c' Hrun' Hlen' Hn.
  pose proof (ring_by_hand P HP sin sout init A B' a b v Hab HA HB wd
                           seedB sched' c' Hrun' Hlen') as Hc'.
  by rewrite <- Hc, <- Hc', Hn.
Qed.

(** ** The cycle of two blocks with two initial conditions *)

Section Over.
Context {F : Type} `{Num F} {World : Type} {B : Type} `{Block F World B}.

Variable P : B -> Prop.
Hypothesis HP : perpetual P.

Variables (sin sout : list port) (init : bool).
Variables (A B' : B) (a b : chan) (v1 v2 : F).
Hypothesis Hab : a <> b.
Hypothesis HA : P A.
Hypothesis HB : P B'.

Implicit Types (wd : World) (c : config F World B).

#[local] Abbreviation ioA := (ioA A a b).
#[local] Abbreviation ioB := (ioB B' a b).
#[local] Abbreviation ring_system := (ring_system sin sout init A B' a b).
#[local] Abbreviation InvO := (InvO P sin sout init A B' a b v1 v2).

Lemma InvO_start s1 s2 wd :
  InvO s1 s2 (start_config (ring_system [seed v1 s1; seed v2 s2]) wd).
Proof. split; [done|]. by destruct s1, s2; vm_compute. Qed.

Ltac use_step H :=
  match type of H with
  | context [Step ?blk ?x ?y ?wd] =>
      let E := fresh "E" in
      let HP' := fresh "HP'" in
      destruct (HP blk x y wd) as (? & ? & ? & E & HP');
      [done..|]; rewrite E in H; cbn in H;
      apply Step_length in E
  end.

Ltac finish H :=
  first
    [ discriminate H
    | injection H as <-;
      split; [split; [reflexivity|]; cbn; unfold fresh, good; cbn;
              rewrite ?length_insert;
              repeat split; try done; try lia; try congruence
             | unfold over, pos_o, pos_h; cbn;
               first [ tauto | intros _; repeat split; solve [lia | done] ] ] ].

Lemma InvO_step s1 s2 ch c c' :
  InvO s1 s2 c -> exec no_close ch c = Some c' ->
  InvO s1 s2 c'
  /\ (over c -> (pos_o c < pos_o c')%nat /\ over c'
                /\ (c_main c = MWait -> c_main c' = MWait)).
Proof.
  destruct c as [s m ws wd]. intros [Hs HI]; simpl in Hs; subst s.
  simpl in HI.
  destruct m as [[|[|[|i]]]|[|[|[|j]]]| | |]; try done;
    destruct ws as [|w0 [|w1 [|w2 ws]]]; try done.
  - intros Hex. destruct ch; cbn in Hex; lookups Hex; finish Hex.
  - destruct w0 as [i0 o0 b0 x0 y0 pc0 c0].
    destruct HI as ((Hi0 & Ho0 & Hx0 & Hy0 & Hb0) & Hpc0 & Hc0); cbn in *; subst.
    intros Hex. destruct ch; cbn in Hex; lookups Hex; finish Hex.
  - destruct w0 as [i0 o0 b0 x0 y0 pc0 c0], w1 as [i1 o1 b1 x1 y1 pc1 c1].
    destruct HI as (((Hi0 & Ho0 & Hx0 & Hy0 & Hb0) & Hpc0 & Hc0)
                    & ((Hi1 & Ho1 & Hx1 & Hy1 & Hb1) & Hpc1 & Hc1)); cbn in *; subst.
    intros Hex. destruct ch; cbn in Hex; lookups Hex; finish Hex.
  - destruct w0 as [i0 o0 b0 x0 y0 pc0 c0], w1 as [i1 o1 b1 x1 y1 pc1 c1].
    destruct HI as (((Hi0 & Ho0 & Hx0 & Hy0 & Hb0) & Hpc0 & Hc0)
                    & ((Hi1 & Ho1 & Hx1 & Hy1 & Hb1) & Hpc1 & Hc1)); cbn in *; subst.
    intros Hex. destruct s1;
    destruct ch; cbn in Hex; lookups Hex; norm Hex; try done; try finish Hex.
  - destruct w0 as [i0 o0 b0 x0 y0 pc0 c0], w1 as [i1 o1 b1 x1 y1 pc1 c1].
    destruct HI as ((Hi0 & Ho0 & Hx0 & Hy0 & Hb0)
                    & (Hi1 & Ho1 & Hx1 & Hy1 & Hb1) & Hring); cbn in *; subst.
    intros Hex. destruct s1, s2;
      destruct pc0 as [[|[|?]]| | |[|[|?]]| |]; try done;
      destruct pc1 as [[|[|?]]| | |[|[|?]]| |]; try done;
      destruct ch; cbn in Hex; lookups Hex; norm Hex;
      try use_step Hex; try done; try finish Hex.
  - destruct w0 as [i0 o0 b0 x0 y0 pc0 c0], w1 as [i1 o1 b1 x1 y1 pc1 c1].
    destruct HI as ((Hi0 & Ho0 & Hx0 & Hy0 & Hb0)
                    & (Hi1 & Ho1 & Hx1 & Hy1 & Hb1) & Hh0 & Hh1); cbn in *; subst.
    intros Hex.
      destruct pc0 as [[|[|?]]| | |[|[|?]]| |]; try done;
      destruct pc1 as [[|[|?]]| | |[|[|?]]| |]; try done;
      destruct ch; cbn in Hex; lookups Hex; norm Hex;
      try use_step Hex; try done; try finish Hex.
  - destruct w0 as [i0 o0 b0 x0 y0 pc0 c0], w1 as [i1 o1 b1 x1 y1 pc1 c1].
    destruct HI as ((Hi0 & Ho0 & Hx0 & Hy0 & Hb0)
                    & (Hi1 & Ho1 & Hx1 & Hy1 & Hb1) & Hh0 & Hh1); cbn in *; subst.
    intros Hex.
      destruct pc0 as [[|[|?]]| | |[|[|?]]| |]; try done;
      destruct pc1 as [[|[|?]]| | |[|[|?]]| |]; try done;
      destruct ch; cbn in Hex; lookups Hex; norm Hex;
      try use_step Hex; try done; try finish Hex.
Qed.

Lemma InvO_run s1 s2 sched c c' :
  InvO s1 s2 c -> run no_close sched c = Some c' ->
  InvO s1 s2 c'
  /\ (over c -> (pos_o c + length sched <= pos_o c')%nat
                /\ (c_main c = MWait -> c_main c' = MWait)).
Proof.
  revert c. induction sched as [|ch sched IH]; intros c Hc; simpl.
  - intros [= <-]. split; [done|]. intros _. split; [lia | done].
  - destruct (exec no_close ch c) as [c1|] eqn:Hex; [|done]. simpl.
    intros Hrun. destruct (InvO_step _ _ _ _ _ Hc Hex) as [Hc1 Hstep].
    destruct (IH _ Hc1 Hrun) as [Hc' Hrest]. split; [done|].
    intros Ho. destruct (Hstep Ho) as (Hlt & Ho1 & Hm).
    destruct (Hrest Ho1) as [Hle Hm']. split; [lia|auto].
Qed.

Lemma InvO_bound s1 s2 c :
  InvO s1 s2 c -> over c ->
  (pos_o c <= 5)%nat /\ (c_main c = MWait -> (1 <= pos_o c)%nat).
Proof.
  destruct c as [s m ws wd]. intros [Hs HI] Ho; simpl in Hs; subst s.
  simpl in HI. unfold over in Ho. simpl in Ho.
  destruct m as [?|[|[|[|?]]]| | |]; try done;
    destruct ws as [|w0 [|w1 [|w2 ws]]]; try done;
    destruct w0 as [i0 o0 b0 x0 y0 pc0 c0], w1 as [i1 o1 b1 x1 y1 pc1 c1];
    destruct HI as (_ & _ & Hh0 & Hh1); cbn in *;
    destruct pc0 as [[|[|?]]| | |[|[|?]]| |]; try done;
    destruct pc1 as [[|[|?]]| | |[|[|?]]| |]; try done;
    unfold pos_o, pos_h; cbn; split; try lia; done.
Qed.

Lemma over_seeded_stops s1 s2 wd sched c sched' c' :
  run no_close sched (start_config (ring_system [seed v1 s1; seed v2 s2]) wd)
    = Some c ->
  c_main c = MWait ->
  run no_close sched' c = Some c' ->
  (length sched' <= 4)%nat /\ c_main c' = MWait.
Proof.
  intros Hrun Hm Hrun'.
  destruct (InvO_run _ _ _ _ _ (InvO_start s1 s2 wd) Hrun) as [Hc _].
  assert (Ho : over c) by (unfold over; by rewrite Hm).
  destruct (InvO_run _ _ _ _ _ Hc Hrun') as [Hc' Hrest].
  destruct (Hrest Ho) as [Hle Hm'].
  assert (Ho' : over c') by (unfold over; by rewrite (Hm' Hm)).
  destruct (InvO_bound _ _ _ Hc Ho) as [_ Hlow].
  destruct (InvO_bound _ _ _ Hc' Ho') as [Hhigh _].
  specialize (Hlow Hm). split; [lia | auto].
Qed.

Ltac go :=
  repeat (cbn;
          try change (Z.to_nat 1) with 1%nat;
          try change (Z.to_nat 0) with 0%nat;
          rewrite ?bool_decide_eq_true_2 by done;
          try match goal with
            | E : Step _ _ _ _ = _ |- _ => rewrite E
            end);
  reflexivity.

Lemma over_seeded_reaches_wait s1 s2 wd :
  exists sched c,
    run no_close sched (start_config (ring_system [seed v1 s1; seed v2 s2]) wd)
      = Some c
    /\ c_main c = MWait.
Proof.
  destruct s1, s2.
  - destruct (HP B' [v1] [nzero] wd) as (b' & y' & wd' & E & _); [done..|].
    exists [main_local; main_local; main_local; ic_delivered 1;
            worker_local 1; worker_local 1; value_passed 1 0;
            worker_local 1; ic_delivered 1; main_local].
    eexists. split; [go|]. reflexivity.
  - exists [main_local; main_local; main_local; ic_delivered 1;
            ic_delivered 0; main_local].
    eexists. split; [go|]. reflexivity.
  - exists [main_local; main_local; main_local; ic_delivered 0;
            ic_delivered 1; main_local].
    eexists. split; [go|]. reflexivity.
  - destruct (HP A [v1] [nzero] wd) as (b' & y' & wd' & E & _); [done..|].
    exists [main_local; main_local; main_local; ic_delivered 0;
            worker_local 0; worker_local 0; value_passed 0 1;
            worker_local 0; ic_delivered 0; main_local].
    eexists. split; [go|]. reflexivity.
Qed.

End Over.

(** X16.  One initial condition too many deadlocks the cycle.  Take two
    blocks in a cycle on two distinct edges, whose [Step] never says
    stop and never panics, and two initial conditions, on the same edge
    or one on each.  There are schedules on which [Start] sends both and
    comes to wait on [done]; and whenever it has, at most four more
    steps happen in the whole program, and [Start] waits for ever: each
    worker holds a value it can send to nobody. *)
Theorem over_seeded_cycle_deadlocks
    {F : Type} `{Num F} {World B : Type} `{Block F World B}
    (P : B -> Prop) sin sout init (A B' : B) (a b : chan) (v1 v2 : F)
    s1 s2 (wd : World) :
  perpetual P -> P A -> P B' -> a <> b ->
  (exists sched c,
     run no_close sched
         (start_config
            (ring_system sin sout init A B' a b [seed v1 s1; seed v2 s2]) wd)
       = Some c
     /\ c_main c = MWait)
  /\ (forall sched c sched' c',
        run no_close sched
            (start_config
               (ring_system sin sout init A B' a b [seed v1 s1; seed v2 s2])
               wd)
          = Some c ->
        c_main c = MWait ->
        run no_close sched' c = Some c' ->
        (length sched' <= 4)%nat /\ c_main c' = MWait).
Proof.
  intros HP HA HB Hab. split.
  - by apply (over_seeded_reaches_wait P HP).
  - intros sched c sched' c'.
    by apply (over_seeded_stops P HP sin sout init A B' a b v1 v2 Hab HA HB).
Qed.

(** ** The cycle of two blocks of which one stops *)

Section Halt.
Context {F : Type} `{Num F} {World : Type} {B : Type} `{Block F World B}.

Variable P : B -> Prop.
Hypothesis HP : perpetual P.
Variable PA : nat -> B -> Prop.
Variable N : nat.
Hypothesis HPA : counts_down PA N.
Hypothesis HN : (0 < N)%nat.

Variables (sin sout : list port) (init : bool).
Variables (A B' : B) (a b : chan) (v : F).
Hypothesis Hab : a <> b.
Hypothesis HA : PA 0 A.
Hypothesis HB : P B'.

Implicit Types (wd : World) (c : config F World B).

#[local] Abbreviation ioA := (ioA A a b).
#[local] Abbreviation ioB := (ioB B' a b).
#[local] Abbreviation ring_system := (ring_system sin sout init A B' a b).
#[local] Abbreviation seed := (seed v).
#[local] Abbreviation InvS := (InvS P PA N sin sout init A B' a b v).

Lemma InvS_start seedB wd :
  InvS seedB (start_config (ring_system [seed seedB]) wd).
Proof. split; [done|]. by destruct seedB; vm_compute. Qed.

(** The call of [Step] in [H] is the counting block's or the other's. *)
Ltac use_step H :=
  match type of H with
  | context [Step ?blk ?x ?y ?wd] =>
      let E := fresh "E" in
      let HP' := fresh "HP'" in
      first
        [ match goal with
          | Hn : PA ?n blk |- _ =>
              let Hq := fresh "Hq" in
              destruct (HPA n blk x y wd) as (? & ? & ? & E & HP');
              [lia | exact Hn | done | done |];
              revert E;
              destruct (S n =? N)%nat eqn:Hq;
              [apply Nat.eqb_eq in Hq | apply Nat.eqb_neq in Hq];
              intros E; rewrite E in H; cbn in H;
              apply Step_length in E
          end
        | destruct (HP blk x y wd) as (? & ? & ? & E & HP');
          [done..|]; rewrite E in H; cbn in H;
          apply Step_length in E ]
  end.

Ltac finish H :=
  first
    [ discriminate H
    | injection H as <-;
      split; [split; [reflexivity|]; cbn; unfold fresh, good, calls; cbn;
              rewrite ?length_insert, ?Nat.add_0_r, ?Nat.add_1_r;
              repeat split; try done; try lia; try congruence
             | unfold progress_h, pos_wh; cbn; lia] ].

Lemma InvS_step seedB ch c c' :
  InvS seedB c -> exec no_close ch c = Some c' ->
  InvS seedB c' /\ (progress_h c < progress_h c')%nat.
Proof.
  destruct c as [s m ws wd]. intros [Hs HI]; simpl in Hs; subst s.
  simpl in HI.
  destruct m as [[|[|[|i]]]|[|[|j]]| |[e|]|]; try done;
    destruct ws as [|w0 [|w1 [|w2 ws]]]; try done.
  - intros Hex. destruct ch; cbn in Hex; lookups Hex; finish Hex.
  - destruct w0 as [i0 o0 b0 x0 y0 pc0 c0].
    destruct HI as ((Hi0 & Ho0 & Hx0 & Hy0 & Hb0) & Hpc0 & Hc0); cbn in *; subst.
    intros Hex. destruct ch; cbn in Hex; lookups Hex; finish Hex.
  - destruct w0 as [i0 o0 b0 x0 y0 pc0 c0], w1 as [i1 o1 b1 x1 y1 pc1 c1].
    destruct HI as (((Hi0 & Ho0 & Hx0 & Hy0 & Hb0) & Hpc0 & Hc0)
                    & ((Hi1 & Ho1 & Hx1 & Hy1 & Hb1) & Hpc1 & Hc1)); cbn in *; subst.
    intros Hex. destruct ch; cbn in Hex; lookups Hex; finish Hex.
  - destruct w0 as [i0 o0 b0 x0 y0 pc0 c0], w1 as [i1 o1 b1 x1 y1 pc1 c1].
    destruct HI as (((Hi0 & Ho0 & Hx0 & Hy0 & Hb0) & Hpc0 & Hc0)
                    & ((Hi1 & Ho1 & Hx1 & Hy1 & Hb1) & Hpc1 & Hc1)); cbn in *; subst.
    intros Hex. destruct seedB;
    destruct ch; cbn in Hex; lookups Hex; norm Hex; try done; try finish Hex.
  - destruct w0 as [i0 o0 b0 x0 y0 pc0 c0], w1 as [i1 o1 b1 x1 y1 pc1 c1].
    intros Hex. destruct seedB;
      destruct pc0 as [[|[|?]]| | |[|[|?]]| |];
      destruct pc1 as [[|[|?]]| | |[|[|?]]| |];
      unfold good, resting, calls in HI; cbn in HI;
      rewrite ?Nat.add_0_r, ?Nat.add_1_r in HI;
      destruct_and?; try done; cbn in *; subst;
      destruct ch; cbn in Hex; lookups Hex; norm Hex;
      try use_step Hex; try done; try finish Hex.
  - destruct w0 as [i0 o0 b0 x0 y0 pc0 c0], w1 as [i1 o1 b1 x1 y1 pc1 c1].
    intros Hex. destruct seedB;
      destruct pc0 as [[|[|?]]| | |[|[|?]]| |];
      destruct pc1 as [[|[|?]]| | |[|[|?]]| |];
      unfold good, resting, calls in HI; cbn in HI;
      rewrite ?Nat.add_0_r, ?Nat.add_1_r in HI;
      destruct_and?; try done; cbn in *; subst;
      destruct ch; cbn in Hex; lookups Hex; norm Hex;
      try use_step Hex; try done; try finish Hex.
  - destruct w0 as [i0 o0 b0 x0 y0 pc0 c0], w1 as [i1 o1 b1 x1 y1 pc1 c1].
    intros Hex. destruct seedB;
      destruct pc0 as [[|[|?]]| | |[|[|?]]| |];
      destruct pc1 as [[|[|?]]| | |[|[|?]]| |];
      unfold good, resting, calls in HI; cbn in HI;
      rewrite ?Nat.add_0_r, ?Nat.add_1_r in HI;
      destruct_and?; try done; cbn in *; subst;
      destruct ch; cbn in Hex; lookups Hex; norm Hex;
      try use_step Hex; try done; try finish Hex.
Qed.

Lemma InvS_run seedB sched c c' :
  InvS seedB c -> run no_close sched c = Some c' ->
  InvS seedB c' /\ (progress_h c + length sched <= progress_h c')%nat.
Proof.
  revert c. induction sched as [|ch sched IH]; intros c Hc; simpl.
  - intros [= <-]. split; [done | lia].
  - destruct (exec no_close ch c) as [c1|] eqn:Hex; [|done]. simpl.
    intros Hrun. destruct (InvS_step _ _ _ _ Hc Hex) as [Hc1 Hlt].
    destruct (IH _ Hc1 Hrun). split; [done | lia].
Qed.

Lemma InvS_bound seedB c :
  InvS seedB c -> (progress_h c <= 10 * N + 10)%nat.
Proof.
  destruct c as [s m ws wd]. intros [Hs HI]; simpl in Hs; subst s.
  simpl in HI.
  destruct m as [[|[|[|i]]]|[|[|j]]| |[e|]|]; try done;
    destruct ws as [|w0 [|w1 [|w2 ws]]]; try done;
    try destruct w0 as [i0 o0 b0 x0 y0 pc0 c0];
    try destruct w1 as [i1 o1 b1 x1 y1 pc1 c1];
    unfold fresh, good, resting, calls in HI; cbn in HI;
    unfold progress_h, pos_wh; cbn.
  - lia.
  - destruct_and?; subst; cbn; lia.
  - destruct_and?; subst; cbn; lia.
  - destruct_and?; subst; cbn; lia.
  - destruct seedB;
      destruct pc0 as [[|[|?]]| | |[|[|?]]| |];
      destruct pc1 as [[|[|?]]| | |[|[|?]]| |];
      cbn in HI; destruct_and?; try done; cbn; lia.
  - destruct seedB;
      destruct pc0 as [[|[|?]]| | |[|[|?]]| |];
      destruct pc1 as [[|[|?]]| | |[|[|?]]| |];
      cbn in HI; destruct_and?; try done; cbn; lia.
  - destruct_and?; subst.
    destruct pc1 as [[|[|?]]| | |[|[|?]]| |]; try done; cbn in *; lia.
Qed.

Ltac step_eqn wd :=
  try match goal with
    | Hn : PA ?n ?blk
      |- context [ {| w_in := _; w_out := _; w_b := ?blk; w_x := ?x;
                      w_y := ?y; w_pc := WCall; w_cycles := _ |} ] =>
        let E := fresh "E" in
        destruct (HPA n blk x y wd) as (? & ? & ? & E & _);
        [lia | exact Hn | done | done |]
    | |- context [ {| w_in := _; w_out := _; w_b := ?blk; w_x := ?x;
                      w_y := ?y; w_pc := WCall; w_cycles := _ |} ] =>
        let E := fresh "E" in
        destruct (HP blk x y wd) as (? & ? & ? & E & _); [done..|]
    end.

Ltac take_step ch :=
  eexists ch, _; unfold exec; cbn;
  try change (Z.to_nat 1) with 1%nat;
  try change (Z.to_nat 0) with 0%nat;
  cbn; rewrite ?bool_decide_eq_true_2 by done; cbn;
  try match goal with
    | E : Step _ _ _ _ = _ |- _ => rewrite E
    end;
  reflexivity.

Lemma InvS_not_stuck seedB c :
  InvS seedB c -> c_main c <> MReturn None ->
  exists ch c', exec no_close ch c = Some c'.
Proof.
  destruct c as [s m ws wd]. intros [Hs HI] Hm; simpl in Hs; subst s.
  simpl in HI, Hm.
  destruct m as [[|[|[|i]]]|[|[|j]]| |[e|]|]; try done;
    destruct ws as [|w0 [|w1 [|w2 ws]]]; try done.
  - take_step main_local.
  - destruct w0 as [i0 o0 b0 x0 y0 pc0 c0].
    destruct HI as ((Hi0 & Ho0 & Hx0 & Hy0 & Hb0) & Hpc0 & Hc0); cbn in *; subst.
    take_step main_local.
  - destruct w0 as [i0 o0 b0 x0 y0 pc0 c0], w1 as [i1 o1 b1 x1 y1 pc1 c1].
    destruct HI as (((Hi0 & Ho0 & Hx0 & Hy0 & Hb0) & Hpc0 & Hc0)
                    & ((Hi1 & Ho1 & Hx1 & Hy1 & Hb1) & Hpc1 & Hc1)); cbn in *; subst.
    take_step main_local.
  - destruct w0 as [i0 o0 b0 x0 y0 pc0 c0], w1 as [i1 o1 b1 x1 y1 pc1 c1].
    destruct HI as (((Hi0 & Ho0 & Hx0 & Hy0 & Hb0) & Hpc0 & Hc0)
                    & ((Hi1 & Ho1 & Hx1 & Hy1 & Hb1) & Hpc1 & Hc1)); cbn in *; subst.
    destruct seedB; [take_step (ic_delivered 1) | take_step (ic_delivered 0)].
  - destruct w0 as [i0 o0 b0 x0 y0 pc0 c0], w1 as [i1 o1 b1 x1 y1 pc1 c1].
    destruct seedB;
      destruct pc0 as [[|[|?]]| | |[|[|?]]| |];
      destruct pc1 as [[|[|?]]| | |[|[|?]]| |];
      unfold good, resting, calls in HI; cbn in HI;
      destruct_and?; try done; cbn in *; subst;
      take_step main_local.
  - destruct w0 as [i0 o0 b0 x0 y0 pc0 c0], w1 as [i1 o1 b1 x1 y1 pc1 c1].
    destruct seedB;
      destruct pc0 as [[|[|?]]| | |[|[|?]]| |];
      destruct pc1 as [[|[|?]]| | |[|[|?]]| |];
      unfold good, resting, calls in HI; cbn in HI;
      rewrite ?Nat.add_0_r, ?Nat.add_1_r in HI;
      destruct_and?; try done; cbn in *; subst;
      step_eqn wd;
      first [ take_step (notified 0)
            | take_step (worker_local 0) | take_step (worker_local 1)
            | take_step (value_passed 0 1) | take_step (value_passed 1 0) ].
Qed.

Lemma counting_ring_returns seedB wd sched c :
  run no_close sched (start_config (ring_system [seed seedB]) wd) = Some c ->
  (length sched <= 10 * N + 10)%nat
  /\ (stuck no_close c -> c_main c = MReturn None)
  /\ (c_main c = MReturn None ->
      exists w0 w1, c_workers c = [w0; w1]
        /\ PA N (w_b w0) /\ w_pc w0 = WExit /\ S (w_cycles w0) = N).
Proof.
  intros Hrun.
  destruct (InvS_run _ _ _ _ (InvS_start seedB wd) Hrun) as [Hc Hp].
  pose proof (InvS_bound _ _ Hc) as Hb.
  split; [lia|]. split.
  - intros Hstuck.
    destruct (c_main c) as [i|j| |[e|]|] eqn:Hm; try reflexivity; exfalso;
      (destruct (InvS_not_stuck _ _ Hc) as (ch & c' & Hex);
       [by rewrite Hm | by rewrite (Hstuck ch) in Hex]).
  - intros Hm. destruct Hc as [_ HI]. rewrite Hm in HI.
    destruct (c_workers c) as [|w0 [|w1 [|w2 ws]]]; try done.
    exists w0, w1. split; [done|].
    destruct HI as (_ & (_ & _ & _ & _ & HA') & Hpc & Hcy & _). done.
Qed.

End Halt.

(** X17.  A simulation with a stopping block ends, on every schedule.
    Take two blocks in a cycle on two distinct edges with one initial
    condition, on either edge; the first block says stop at its [N]-th
    call of [Step] and not before, the second never does, and neither
    panics.  Then every run of [Start] has at most [10 * N + 10] steps;
    the program cannot come to a halt before [Start] has returned nil,
    so [Start] returns nil on every schedule; and when it has, the
    first block has made exactly [N] calls and its worker has exited. *)
Theorem counting_cycle_returns
    {F : Type} `{Num F} {World B : Type} `{Block F World B}
    (P : B -> Prop) (PA : nat -> B -> Prop) (N : nat)
    sin sout init (A B' : B) (a b : chan) (v : F) seedB (wd : World)
    sched c :
  perpetual P -> counts_down PA N -> (0 < N)%nat ->
  a <> b -> PA 0%nat A -> P B' ->
  run no_close sched
      (start_config (ring_system sin sout init A B' a b [seed v seedB]) wd)
    = Some c ->
  (length sched <= 10 * N + 10)%nat
  /\ (stuck no_close c -> c_main c = MReturn None)
  /\ (c_main c = MReturn None ->
      exists w0 w1, c_workers c = [w0; w1]
        /\ PA N (w_b w0) /\ w_pc w0 = WExit /\ S (w_cycles w0) = N).
Proof.
  intros HP HPA HN Hab HA HB Hrun.
  exact (counting_ring_returns P HP PA N HPA HN sin sout init A B' a b v
           Hab HA HB seedB wd sched c Hrun).
Qed.

(** *** With a [Stop] block *)

Section StopCounts.
Context {F : Type} `{Num F} {World : Type}.
Variable DT : F.
Variable println : F -> F -> World -> World.

(** When the clock of [Stop] reaches the stop time at step [N] and not
    before, the block says stop at call [N] and not before. *)
Lemma Stop_counts_down T cbs (N : nat) :
  (forall n, (n < N)%nat ->
     nge (elapsed DT (S n)) T = (S n =? N)%nat) ->
  counts_down (H0:=Std_Block DT println) (Stop_at DT T cbs) N.
Proof.
  intros Hcross n blk x y wd Hn -> Hx Hy.
  apply list_length_1 in Hx as [x0 ->]. apply list_length_1 in Hy as [y0 ->].
  specialize (Hcross n Hn).
  change (elapsed DT (S n)) with (nadd (elapsed DT n) DT) in Hcross.
  cbn [Step Std_Block Std_Step]. unfold Stop_Step. cbn [t Time Callbacks].
  rewrite Hcross. unfold Stop_at.
  destruct (S n =? N)%nat; cbn; eexists _, _, _; split; reflexivity.
Qed.

End StopCounts.

Lemma Stop_crossing_exact (T DT : Q) (n : nat) :
  (0 < T)%Q -> (0 < DT)%Q ->
  (n < Z.to_nat (Qceiling (T / DT)))%nat ->
  nge (elapsed DT (S n)) T = (S n =? Z.to_nat (Qceiling (T / DT)))%nat.
Proof.
  intros HT HDT Hn.
  pose proof (ceiling_positive T DT HT HDT) as Hpos.
  destruct (Nat.eqb_spec (S n) (Z.to_nat (Qceiling (T / DT)))) as [Heq|Hne].
  - apply crossing_exact; [done|]. lia.
  - destruct (nge (elapsed DT (S n)) T) eqn:Hge; [|done].
    apply crossing_exact in Hge; [|done]. lia.
Qed.

(** Stop time 3 with the default step, in binary64: reached at step 301
    and not before. *)
Lemma Stop_crossing_float64 (n : nat) :
  (n < 301)%nat ->
  nge (elapsed DT_default (S n)) 3%float = (S n =? 301)%nat.
Proof.
  intros Hn.
  assert (Hall : forallb
            (fun n => Bool.eqb (nge (elapsed DT_default (S n)) 3%float)
                               (S n =? 301)%nat)
            (seq 0 301) = true) by (vm_compute; reflexivity).
  rewrite forallb_forall in Hall.
  apply Bool.eqb_prop, Hall, in_seq. lia.
Qed.

(** A scaling block never says stop. *)
Lemma scaling_perpetual {F : Type} `{Num F} {World : Type} (DT : F)
    (println : F -> F -> World -> World) :
  perpetual (H0:=Std_Block DT println) scaling.
Proof.
  intros blk [|x0 [|]] [|y0 [|]] wd [k ->] Hx Hy; try done.
  exists (BScale k), [nmul k x0], wd. split; [reflexivity | by exists k].
Qed.

(** X18.  In exact arithmetic, a [Stop] block with stop time [T > 0] and
    clock zero, in a cycle with a standard block that never says stop
    and with one initial condition, ends the simulation on every
    schedule, with [DT > 0]: every run of [Start] has at most
    [10 * N + 10] steps for [N = ceil (T / DT)], the program cannot come
    to a halt before [Start] has returned nil, and when it has, the
    [Stop] block has made exactly [N] steps. *)
Theorem Stop_cycle_returns_at_ceiling
    {World : Type} (DT T : Q) (println : Q -> Q -> World -> World)
    (cbs : list (World -> World)) (P : StdBlock Q World -> Prop)
    sin sout init (B' : StdBlock Q World) (a b : chan) (v : Q) seedB
    (wd : World) sched c :
  (0 < T)%Q -> (0 < DT)%Q ->
  perpetual (H0:=Std_Block DT println) P -> P B' -> a <> b ->
  run (H0:=Std_Block DT println) no_close sched
      (start_config
         (ring_system sin sout init
            (BStop {| Time := T; Callbacks := cbs; t := 0%Q |}) B' a b
            [seed v seedB]) wd)
    = Some c ->
  (length sched <= 10 * Z.to_nat (Qceiling (T / DT)) + 10)%nat
  /\ (stuck (H0:=Std_Block DT println) no_close c ->
      c_main c = MReturn None)
  /\ (c_main c = MReturn None ->
      exists w0 w1, c_workers c = [w0; w1]
        /\ w_b w0 = BStop {| Time := T; Callbacks := cbs;
                             t := elapsed DT (Z.to_nat (Qceiling (T / DT))) |}
        /\ w_pc w0 = WExit
        /\ S (w_cycles w0) = Z.to_nat (Qceiling (T / DT))).
Proof.
  intros HT HDT HP HB Hab Hrun.
  pose proof (ceiling_positive T DT HT HDT) as Hpos.
  apply (counting_ring_returns (H0:=Std_Block DT println) P HP
           (Stop_at DT T cbs) (Z.to_nat (Qceiling (T / DT)))
           (Stop_counts_down DT println T cbs _
              (fun n => Stop_crossing_exact T DT n HT HDT))
           ltac:(lia) sin sout init _ B' a b v Hab eq_refl HB seedB wd
           sched c Hrun).
Qed.

(** ** The further properties at work on small systems *)

(** A standard block that is not a [Stop] block never says stop. *)
Lemma no_Stop_never_stops : never_stops no_Stop.
Proof.
  intros blk x y wd b' y' wd' ok Hb HS. simpl in HS.
  destruct blk; try done; simpl in HS;
    unfold wrap, Scale_Step, Add_Step, Integrate_Step,
      Source_Step, Print_Step, Tee_Step in HS;
    repeat match goal with
      | Hb : _ ≫= _ = Some _ |- _ =>
          apply bind_Some in Hb as (? & ? & ?)
      | Hb : (let '(_, _) := ?p in _) = Some _ |- _ => destruct p
      | Hb : Some _ = Some _ |- _ => injection Hb as <- <- <- <-
      end; done.
Qed.

(** On the zero [System] with one block, a [Connect] to the boundary
    panics. *)
Lemma boundary_ports_are_never_created_witness :
  returned
    (do_calls [call_Add (BScale 2%float); call_Connect 0 0 0 (-1)]
              {| sys := System_zero (F:=float) (B:=StdBlock float unit);
                 next_chan := 0 |})
  = false.
Proof.
  apply (boundary_ports_are_never_created (World:=unit) _ _ 0 0 0 (-1)).
  - apply elem_of_cons. right. apply elem_of_cons. by left.
  - left. split; [lia|]. unfold in_range. simpl. lia.
Defined.

(** The output of the first of three blocks, connected to the second,
    is connected again, to the third: the second never steps. *)
Lemma reconnected_output_starves_its_reader_witness :
  exists st',
    System_Connect 0 2 0 0 three_scales = Ok tt st'
    /\ read (sys st') (blk_in 1 0) = Some (Some 0%nat)
    /\ orphan (sys st') 0%nat
    /\ forall (wd : unit) sched c w,
         run no_close sched (start_config (sys st') wd) = Some c ->
         c_workers c !! 1%nat = Some w ->
         w_cycles w = 0%nat /\ exists j, w_pc w = WRecv j /\ (j <= 0)%nat.
Proof.
  eexists. split; [reflexivity|].
  apply (reconnected_output_starves_its_reader (World:=unit)
           three_scales _ 0 2 0 0 1 0 0%nat).
  - apply (do_calls_well_formed (World:=unit)), zero_well_formed.
  - reflexivity.
  - reflexivity.
  - discriminate.
  - reflexivity.
  - intros ic Hic. by apply elem_of_nil in Hic.
Defined.

(** A [Tee] block on one input and two outputs. *)
Lemma standard_blocks_fit_their_arity_witness :
  exists b' y' w',
    Std_Step DT_default quiet BTee [3%float] [0%float; 0%float] tt
      = Some (b', y', w',
              negb (stopping DT_default (BTee (F:=float) (World:=unit))))
    /\ Std_Inputs b' = Std_Inputs (BTee (F:=float) (World:=unit))
    /\ Std_Outputs b' = Std_Outputs (BTee (F:=float) (World:=unit))
    /\ length y' = length [0%float; 0%float].
Proof.
  apply (standard_blocks_fit_their_arity DT_default quiet BTee);
    reflexivity.
Defined.

(** Two values printed with the step 1/10. *)
Lemma Print_stamps_each_value_witness :
  drive (Print_Step (1 # 10) println_log) {| time := 0%Q |} [] []
        (wires [5%Q; 7%Q]) =
    (replicate 2 [], {| time := elapsed (1 # 10)%Q 2 |},
     printed (1 # 10)%Q println_log 0 [5%Q; 7%Q] [], false).
Proof.
  apply (Print_stamps_each_value (1 # 10)%Q println_log
           {| time := 0%Q |} [5%Q; 7%Q] [] []).
  reflexivity.
Defined.

(** The state 1 held over three zero inputs, one of them negative
    zero, with the default step. *)
Lemma Integrate_holds_state_on_zero_input_witness :
  exists sent b,
    drive (Integrate_Step DT_default) {| State := 1%float |} [0%float] tt
          (wires [0%float; neg_zero; 0%float])
      = (sent, b, tt, false)
    /\ length sent = length [0%float; neg_zero; 0%float]
    /\ (State b =? 1)%float = true
    /\ forall k out, sent !! k = Some out ->
         exists v, out = [v] /\ (v =? 1)%float = true.
Proof.
  apply (Integrate_holds_state_on_zero_input DT_default 1%float
           [0%float; neg_zero; 0%float] 0%float tt);
    [reflexivity | reflexivity | by repeat constructor].
Defined.

(** The cycle of two scaling blocks does not return. *)
Lemma Start_returns_nil_only_after_a_stop_witness :
  c_main (start_config scale_ring tt) <> MReturn None.
Proof.
  apply (Start_returns_nil_only_after_a_stop no_close no_Stop scale_ring tt
           [] _ no_Stop_never_stops);
    [|reflexivity].
  by repeat constructor.
Defined.

(** [Start] has returned; a worker that comes to notify stays there. *)
Lemma Start_returns_once_witness :
  c_main second_stop = MReturn None
  /\ forall k w, c_workers second_stop !! k = Some w -> w_pc w = WNotify ->
       c_workers second_stop !! k = Some w.
Proof.
  apply (Start_returns_once no_close [] second_stop second_stop None);
    reflexivity.
Defined.

(** The cycle of two scaling blocks does not panic. *)
Lemma no_goroutine_panics_witness :
  crashed (start_config scale_ring tt) = false.
Proof.
  apply (no_goroutine_panics (fun _ => True) scale_ring tt [] _
           (Std_safe DT_default quiet));
    [| |reflexivity].
  - by repeat constructor.
  - repeat constructor. exists (ioB (BScale 0.5%float) 0 1).
    split; [reflexivity|]. unfold in_range. simpl. lia.
Defined.

(** The cycle of two scaling blocks after the first call of [Step]. *)
Lemma cycle_result_is_schedule_independent_witness :
  exists c,
    run no_close [main_local; main_local; main_local; ic_delivered 1;
                  worker_local 1; worker_local 1]
        (start_config scale_ring tt) = Some c
    /\ by_hand (BScale 2%float) (BScale 0.5%float) 1%float true tt
               (total_calls c) = data_of true c
    /\ forall sched' c',
         run no_close sched' (start_config scale_ring tt) = Some c' ->
         length (c_workers c') = 2%nat ->
         total_calls c' = total_calls c ->
         data_of true c' = data_of true c.
Proof.
  eexists. split; [vm_compute; reflexivity|].
  apply (cycle_result_is_schedule_independent
           is_Scale [] [] false (BScale 2%float) (BScale 0.5%float)
           0%nat 1%nat 1%float true tt
           [main_local; main_local; main_local; ic_delivered 1;
            worker_local 1; worker_local 1] _ Scale_perpetual).
  - by exists 2%float.
  - by exists 0.5%float.
  - lia.
  - vm_compute. reflexivity.
  - reflexivity.
Defined.

(** The cycle of two scaling blocks with an initial condition on each
    edge. *)
Lemma over_seeded_cycle_deadlocks_witness :
  (exists sched c,
     run no_close sched
         (start_config
            (ring_system [] [] false (BScale 2%float) (BScale 0.5%float)
                         0 1 [seed 1%float true; seed 1%float false]) tt)
       = Some c
     /\ c_main c = MWait)
  /\ (forall sched c sched' c',
        run no_close sched
            (start_config
               (ring_system [] [] false (BScale 2%float) (BScale 0.5%float)
                            0 1 [seed 1%float true; seed 1%float false]) tt)
          = Some c ->
        c_main c = MWait ->
        run no_close sched' c = Some c' ->
        (length sched' <= 4)%nat /\ c_main c' = MWait).
Proof.
  apply (over_seeded_cycle_deadlocks
           is_Scale [] [] false (BScale 2%float) (BScale 0.5%float)
           0%nat 1%nat 1%float 1%float true false tt Scale_perpetual).
  - by exists 2%float.
  - by exists 0.5%float.
  - lia.
Defined.

(** Two scaling blocks connected in a cycle pass [check]. *)
Lemma check_passes_iff_every_port_connected_witness :
  System_check
    (sys (store_of (do_calls cycle_calls
                      {| sys := System_zero; next_chan := 0 |})))
    = None
  <-> (forall k io,
         blocks (sys (store_of
                   (do_calls cycle_calls
                      {| sys := System_zero; next_chan := 0 |})))
           !! k = Some io ->
         (forall p, (p < length (b_In io))%nat ->
            names cycle_calls (blk_in k p))
         /\ (forall p, (p < length (b_Out io))%nat ->
               names cycle_calls (blk_out k p))).
Proof.
  apply (check_passes_iff_every_port_connected (World:=unit) cycle_calls 0).
  reflexivity.
Defined.

(** The cycle of two scaling blocks set up by calls, with an initial
    condition on the input of the second. *)
Lemma standard_systems_never_panic_witness :
  crashed
    (start_config
       (sys (store_of
               (do_calls (cycle_calls ++ [call_AddIC 1%float 1 0])
                         {| sys := System_zero; next_chan := 0 |})))
       tt)
  = false.
Proof.
  apply (standard_systems_never_panic DT_default quiet
           (cycle_calls ++ [call_AddIC 1%float 1 0]) 0 tt []).
  - repeat constructor. eexists. split; [reflexivity|].
    unfold in_range. simpl. lia.
  - reflexivity.
Defined.

(** Stop time 3 with the default step, in binary64: the cycle of the
    [Stop] block and a scaling block ends within 3020 steps, after 301
    steps of the [Stop] block. *)
Lemma counting_cycle_returns_witness :
  (length (@nil choice) <= 10 * 301 + 10)%nat
  /\ (stuck no_close (start_config stop3_ring tt) ->
      c_main (start_config stop3_ring tt) = MReturn None)
  /\ (c_main (start_config stop3_ring tt) = MReturn None ->
      exists w0 w1, c_workers (start_config stop3_ring tt) = [w0; w1]
        /\ Stop_at DT_default 3%float [] 301 (w_b w0)
        /\ w_pc w0 = WExit /\ S (w_cycles w0) = 301%nat).
Proof.
  apply (counting_cycle_returns is_Scale (Stop_at DT_default 3%float [])
           301 [] [] false (BStop stop3) (BScale 1%float) 0%nat 1%nat
           1%float true tt [] (start_config stop3_ring tt)
           Scale_perpetual
           (Stop_counts_down DT_default quiet 3%float [] 301
              Stop_crossing_float64)).
  - lia.
  - lia.
  - reflexivity.
  - by exists 1%float.
  - reflexivity.
Defined.

(** Stop time 1 with the step 1/10, without rounding. *)
Lemma Stop_cycle_returns_at_ceiling_witness :
  (length (@nil choice) <= 10 * Z.to_nat (Qceiling (1 / (1 # 10))) + 10)%nat
  /\ (stuck (H0:=Std_Block (1 # 10)%Q (fun _ _ w => w)) no_close
             (start_config stop1_ring tt) ->
      c_main (start_config stop1_ring tt) = MReturn None)
  /\ (c_main (start_config stop1_ring tt) = MReturn None ->
      exists w0 w1, c_workers (start_config stop1_ring tt) = [w0; w1]
        /\ w_b w0 = BStop {| Time := 1%Q; Callbacks := [];
                             t := elapsed (1 # 10)%Q
                                    (Z.to_nat (Qceiling (1 / (1 # 10)))) |}
        /\ w_pc w0 = WExit
        /\ S (w_cycles w0) = Z.to_nat (Qceiling (1 / (1 # 10)))).
Proof.
  apply (Stop_cycle_returns_at_ceiling (1 # 10)%Q 1%Q (fun _ _ w => w) []
           scaling [] [] false (BScale 1%Q) 0%nat 1%nat 1%Q true tt []
           (start_config stop1_ring tt)).
  - reflexivity.
  - reflexivity.
  - apply scaling_perpetual.
  - by exists 1%Q.
  - lia.
  - reflexivity.
Defined.
